(** * RTSIM / MetaSim: a shallow embedding of the simulation kernel

    The development follows the layout of the sources:
    - [Rand]      : METASIM/src/randomvar.cpp (RandomGen, DetVar);
    - [MetaSim]   : METASIM/src/event.hpp and simul.cpp (event engine and
                    simulation driver);
    - [RTSim]     : RTLIB/src/schedinstr.cpp and rttask.cpp;
    - [SimSpec]   : the predicates the statements are written with;
    - [Scenarios] : small simulations the definitions are run on.
    The properties follow, component by component.

    C++ integers are modelled in [Z]; where a machine width matters the
    wrap-around is written out.  Exceptions are values of a sum type, and
    every stateful function threads its state explicitly. *)

From stdpp Require Import gmap strings list fin_maps.
From Stdlib Require Import ZArith Lia Sorted.

Local Open Scope Z_scope.

(* ===================================================================== *)
(** ** Pseudo-random numbers (randomvar.cpp)                              *)
(* ===================================================================== *)

Module Rand.

(** [typedef long int RandNum]: a signed 64-bit integer on the LP64
    targets the library is built for. *)
Definition RandNum := Z.

Definition LONG_MIN : Z := - 2 ^ 63.
Definition LONG_MAX : Z := 2 ^ 63 - 1.
Definition is_long (z : Z) : Prop := LONG_MIN <= z <= LONG_MAX.

Definition A : RandNum := 16807.
Definition M : RandNum := 2147483647.
Definition Q : RandNum := 127773. (* M div A *)
Definition R : RandNum := 2836.   (* M mod A *)

Record RandomGen := mkGen { _seed : RandNum; _xn : RandNum }.

(** [RandomGen::RandomGen(RandNum s) : _seed(s), _xn(s)] *)
Definition RandomGen_new (s : RandNum) : RandomGen :=
  {| _seed := s; _xn := s |}.

(** [RandomGen::sample]: C++ [/] and [%] truncate toward zero, hence
    [Z.quot] and [Z.rem]. *)
Definition sample (g : RandomGen) : RandNum * RandomGen :=
  let xq := Z.quot (_xn g) Q in
  let xr := Z.rem (_xn g) Q in
  let x1 := A * xr - R * xq in
  let x2 := if x1 <? 0 then x1 + M else x1 in
  (x2, {| _seed := _seed g; _xn := x2 |}).

(** [RandomGen::init]: [_xn = _seed = s]. *)
Definition init (s : RandNum) (g : RandomGen) : RandomGen :=
  {| _seed := s; _xn := s |}.

Definition getCurrSeed (g : RandomGen) : RandNum := _xn g.
Definition getModule (g : RandomGen) : RandNum := M.

(** The first [n] values returned by consecutive calls of [sample],
    together with the generator they leave behind. *)
Fixpoint samples (n : nat) (g : RandomGen) : list RandNum * RandomGen :=
  match n with
  | O => ([], g)
  | S n' =>
      let '(v, g1) := sample g in
      let '(vs, g2) := samples n' g1 in
      (v :: vs, g2)
  end.

(** The value [A * xr - R * xq] that [sample] computes before its sign
    test. *)
Definition raw_step (x : Z) : Z := A * Z.rem x Q - R * Z.quot x Q.

(** The recurrence as the documentation of the generator words it. *)
Definition park_miller (x : Z) : Z := (A * (x mod Q) - R * (x / Q)) mod M.

(** The same recurrence read with C's truncating operators. *)
Definition park_miller_trunc (x : Z) : Z :=
  (A * Z.rem x Q - R * Z.quot x Q) mod M.

(** *** DetVar *)

Section DetVar.
(** The element type ([double] in the source) plays no role in the
    replay logic. *)
Context {double : Type}.

Definition UINT_MOD : Z := 2 ^ 32.

Record DetVar := mkDetVar { _array : list double; _count : Z }.

(** [DetVar::DetVar(vector<double> &a)] and [DetVar(double*, int)]. *)
Definition DetVar_new (a : list double) : DetVar :=
  {| _array := a; _count := 0 |}.

Inductive access (T : Type) :=
| Value (x : T)
| OutOfBounds (index : Z).
Global Arguments Value {T} x.
Global Arguments OutOfBounds {T} index.

Definition size (v : DetVar) : Z := Z.of_nat (length (_array v)).

(** [vector::operator[]] performs no range check: an index outside
    [0, size) is reported as [OutOfBounds]. *)
Definition at_index (a : list double) (i : Z) : access double :=
  if (0 <=? i) && (i <? Z.of_nat (length a)) then
    match a !! Z.to_nat i with
    | Some x => Value x
    | None => OutOfBounds i
    end
  else OutOfBounds i.

(** The index [get] really uses: the counter after the wrap test. *)
Definition eff (v : DetVar) : Z :=
  if size v <=? _count v then 0 else _count v.

(** [DetVar::get]:
    [if (_count >= _array.size()) _count = 0; return _array[_count++];]
    with [_count] an [unsigned int]. *)
Definition get (v : DetVar) : access double * DetVar :=
  let c := if size v <=? _count v then 0 else _count v in
  (at_index (_array v) c,
   {| _array := _array v; _count := (c + 1) mod UINT_MOD |}).

(** Result of the [k]-th call of [get] (counting from 1) on [v]; the
    0-th call is no call and is reported as out of bounds at -1. *)
Fixpoint kth_get (k : nat) (v : DetVar) : access double :=
  match k with
  | O => OutOfBounds (-1)
  | S O => fst (get v)
  | S k' => kth_get k' (snd (get v))
  end.

Fixpoint after_gets (k : nat) (v : DetVar) : DetVar :=
  match k with
  | O => v
  | S k' => after_gets k' (snd (get v))
  end.
End DetVar.

(** *** Extreme values of a DetVar *)

Section DetVarExtrema.
Context {double : Type}.
(** The literal [0] and the comparisons [>] and [<] of the element type
    are taken as they come. *)
Variable zero : double.
Variable gt lt : double -> double -> bool.

(** The loop of [getMaximum] and of [getMinimum], which differ in the
    comparison only:
    [for (unsigned int i = 1; i < _array.size(); i++)
       if (_array[i] > max) max = _array[i];]
    The index is an [unsigned int]: [i++] wraps at [2^32], while
    [_array.size()] does not. *)
Fixpoint scan (better : double -> double -> bool) (fuel : nat)
         (a : list double) (i : Z) (best : double) : option (access double) :=
  match fuel with
  | O => None
  | S fuel' =>
      if i <? Z.of_nat (length a) then
        match at_index a i with
        | Value x =>
            scan better fuel' a ((i + 1) mod UINT_MOD)
                 (if better x best then x else best)
        | OutOfBounds j => Some (OutOfBounds j)
        end
      else Some (Value best)
  end.

(** [DetVar::getMaximum]: [if (_array.empty()) return 0;
    double max = _array[0]; ...; return max;] *)
Definition getMaximum (fuel : nat) (v : DetVar) : option (access double) :=
  match _array v with
  | [] => Some (Value zero)
  | x0 :: _ => scan gt fuel (_array v) 1 x0
  end.

(** [DetVar::getMinimum] *)
Definition getMinimum (fuel : nat) (v : DetVar) : option (access double) :=
  match _array v with
  | [] => Some (Value zero)
  | x0 :: _ => scan lt fuel (_array v) 1 x0
  end.
End DetVarExtrema.

(** *** The default generator of the random variables *)

(** A [RandomGen *]: [NULL], the address of [RandomVar::_stdgen], or the
    address of a generator of the client's. *)
Inductive GenPtr :=
| NullGen
| StdGen
| UserGen (g : nat).

(** The static members [_stdgen] and [_pstdgen] of [RandomVar], and the
    generators the client has made. *)
Record GenStore := mkGenStore {
  stdgen : RandomGen;
  _pstdgen : GenPtr;
  usergens : gmap nat RandomGen
}.

(** [RandomGen RandomVar::_stdgen(1);
     RandomGen* RandomVar::_pstdgen(&_stdgen);] *)
Definition GenStore_init : GenStore := mkGenStore (RandomGen_new 1) StdGen ∅.

(** The generator behind a pointer; [None] for [NULL] and for a pointer
    to no generator. *)
Definition gen_at (p : GenPtr) (st : GenStore) : option RandomGen :=
  match p with
  | NullGen => None
  | StdGen => Some (stdgen st)
  | UserGen i => usergens st !! i
  end.

Definition gen_put (p : GenPtr) (g : RandomGen) (st : GenStore) : GenStore :=
  match p with
  | NullGen => st
  | StdGen => mkGenStore g (_pstdgen st) (usergens st)
  | UserGen i => mkGenStore (stdgen st) (_pstdgen st) (<[i := g]> (usergens st))
  end.

(** [RandomVar::RandomVar(RandomGen *gen) : _gen(gen)
     { if (_gen == NULL) _gen = _pstdgen; }]: the [_gen] of the new
    variable. *)
Definition RandomVar_new (gen : GenPtr) (st : GenStore) : GenPtr :=
  match gen with
  | NullGen => _pstdgen st
  | _ => gen
  end.

(** [RandomVar::changeGenerator]:
    [RandomGen *old = _pstdgen; _pstdgen = g; return old;] *)
Definition changeGenerator (g : GenPtr) (st : GenStore) : GenPtr * GenStore :=
  (_pstdgen st, mkGenStore (stdgen st) g (usergens st)).

(** [RandomVar::restoreGenerator]: [_pstdgen = &_stdgen;] *)
Definition restoreGenerator (st : GenStore) : GenStore :=
  mkGenStore (stdgen st) StdGen (usergens st).

(** [RandomVar::init(RandNum s) { _pstdgen->init(s); }]; [None] when
    [_pstdgen] points to no generator. *)
Definition RandomVar_init (s : RandNum) (st : GenStore) : option GenStore :=
  match gen_at (_pstdgen st) st with
  | Some g => Some (gen_put (_pstdgen st) (init s g) st)
  | None => None
  end.

(** [_gen->sample()], as [UniformVar::get] calls it on the generator of
    the variable. *)
Definition sample_at (p : GenPtr) (st : GenStore)
  : option (RandNum * GenStore) :=
  match gen_at p st with
  | Some g => let '(v, g') := sample g in Some (v, gen_put p g' st)
  | None => None
  end.

(** *** [UniformVar::get] and [PoissonVar::get] *)

Section Draws.
Context {double : Type}.
(** The arithmetic of [double] is taken as it comes: the conversion of an
    integer, the four operations, the negation, [exp] and [<]. *)
Variable of_int : Z -> double.
Variables fadd fsub fmul fdiv : double -> double -> double.
Variable fneg : double -> double.
Variable fexp : double -> double.
Variable flt : double -> double -> bool.

(** [UniformVar::get]:
    [tmp = _gen->sample();
     tmp = tmp * (_max - _min) / _gen->getModule() + _min;] *)
Definition UniformVar_get (_min _max : double) (_gen : GenPtr) (st : GenStore)
  : option (double * GenStore) :=
  match sample_at _gen st with
  | Some (v, st') =>
      Some (fadd (fdiv (fmul (of_int v) (fsub _max _min)) (of_int M)) _min,
            st')
  | None => None
  end.

(** [const unsigned long PoissonVar::CUTOFF = 10000;] *)
Definition CUTOFF : Z := 10000.

(** The loop of [PoissonVar::get]:
    [for (register unsigned int i = 1; i < CUTOFF; ++i) {
       if (u < S) return i - 1;
       F = F * _lambda / double(i);
       S += F;
     }
     return CUTOFF;]
    The result is the integer that is returned, before its conversion to
    [double]. *)
Fixpoint poisson_loop (fuel : nat) (_lambda u : double) (i : Z)
    (F S : double) : option Z :=
  match fuel with
  | O => None
  | Datatypes.S fuel' =>
      if i <? CUTOFF then
        if flt u S then Some ((i - 1) mod UINT_MOD)
        else
          let F' := fdiv (fmul F _lambda) (of_int i) in
          poisson_loop fuel' _lambda u ((i + 1) mod UINT_MOD) F' (fadd S F')
      else Some CUTOFF
  end.

(** [PoissonVar::get]: [double u = UniformVar::get();
    double F = exp(-_lambda); double S = F;] and the loop; a
    [PoissonVar] is a [UniformVar(0, 1, g)]. *)
Definition PoissonVar_get (fuel : nat) (_lambda : double) (_gen : GenPtr)
    (st : GenStore) : option (Z * GenStore) :=
  match UniformVar_get (of_int 0) (of_int 1) _gen st with
  | Some (u, st') =>
      let F := fexp (fneg _lambda) in
      match poisson_loop fuel _lambda u 1 F F with
      | Some k => Some (k, st')
      | None => None
      end
  | None => None
  end.
End Draws.

(** *** The factories *)

Section Factories.
Context {double : Type}.
(** [atof] is taken as it comes. *)
Variable atof : string -> double.

(** The object a factory makes, as the constructor call that makes it. *)
Inductive RandomVar :=
| DeltaVar (a : double)
| UniformVar (min max : double)
| ExponentialVar (m : double)
| ParetoVar (m k : double)
| NormalVar (m s : double)
| PoissonVar (l : double).

(** What a factory comes to: the new object, a [ParseExc], or a read of
    [par] outside its bounds, which [operator[]] does not check for. *)
Inductive made :=
| Made (v : RandomVar)
| ParseExc (msg cls : string)
| BadIndex (i : nat).

(** [par[i]], then the rest. *)
Definition par_at (par : list string) (i : nat) (k : string -> made) : made :=
  match par !! i with
  | Some x => k x
  | None => BadIndex i
  end.

(** [DeltaVar::createInstance] *)
Definition DeltaVar_createInstance (par : list string) : made :=
  if negb (length par =? 1)%nat
  then ParseExc "Wrong number of parameters" "DeltaVar"
  else par_at par 0 (fun p0 => Made (DeltaVar (atof p0))).

(** [UniformVar::createInstance] *)
Definition UniformVar_createInstance (par : list string) : made :=
  if negb (length par =? 2)%nat
  then ParseExc "Wrong number of parameters" "UniformVar"
  else par_at par 0 (fun p0 => par_at par 1 (fun p1 =>
         Made (UniformVar (atof p0) (atof p1)))).

(** [ExponentialVar::createInstance] *)
Definition ExponentialVar_createInstance (par : list string) : made :=
  if negb (length par =? 1)%nat
  then ParseExc "Wrong number of parameters" "ExponentialVar"
  else par_at par 0 (fun p0 => Made (ExponentialVar (atof p0))).

(** [ParetoVar::createInstance] *)
Definition ParetoVar_createInstance (par : list string) : made :=
  if negb (length par =? 2)%nat
  then ParseExc "Wrong number of parameters" "ParetoVar"
  else par_at par 0 (fun p0 => par_at par 1 (fun p1 =>
         Made (ParetoVar (atof p0) (atof p1)))).

(** [NormalVar::createInstance] *)
Definition NormalVar_createInstance (par : list string) : made :=
  if negb (length par =? 2)%nat
  then ParseExc "Wrong number of parameters" "NormalVar"
  else par_at par 0 (fun p0 => par_at par 1 (fun p1 =>
         Made (NormalVar (atof p0) (atof p1)))).

(** [PoissonVar::createInstance] *)
Definition PoissonVar_createInstance (par : list string) : made :=
  if negb (length par =? 1)%nat
  then ParseExc "Wrong number of parameters" "PoissonVar"
  else par_at par 0 (fun p0 => Made (PoissonVar (atof p0))).
End Factories.

End Rand.

(* ===================================================================== *)
(** ** The event engine and the simulation driver (event.hpp, simul.cpp)  *)
(* ===================================================================== *)

Module MetaSim.
Import Rand.

(** [Tick]: integer virtual time. *)
Definition Tick := Z.

(** Objects are named by their address. *)
Definition EventId := nat.  (* Event* *)
Definition ProbeId := nat.  (* BaseStat*, ParticleInterface*, Trace* *)

Definition _DEFAULT_PRIORITY : Z := 8.
Definition _IMMEDIATE_PRIORITY : Z := 0.

Inductive Exc :=
| NoMoreEventsInQueue           (* class NoMoreEventsInQueue, simul.cpp *)
| EventExc (msg : string)       (* Event::Exc *)
| BaseExc (msg : string)        (* BaseExc *)
| BadPointer (e : EventId).     (* use of an event that was destroyed *)

(** *** A small state-and-exception monad

    A C++ function that may throw and that updates the state it runs in:
    the state reached when the exception is raised is kept. *)
Definition M (S A : Type) : Type := S -> (Exc + A) * S.

Definition ret {S A} (a : A) : M S A := fun s => (inr a, s).
Definition throw {S A} (x : Exc) : M S A := fun s => (inl x, s).
Definition bind {S A B} (m : M S A) (k : A -> M S B) : M S B :=
  fun s => match m s with
           | (inl x, s') => (inl x, s')
           | (inr a, s') => k a s'
           end.
Definition gets {S A} (f : S -> A) : M S A := fun s => (inr (f s), s).
Definition modify {S} (f : S -> S) : M S unit := fun s => (inr tt, f s).

(** [try { m } catch (...) { h; throw; }] *)
Definition on_exception {S A} (m : M S A) (h : M S unit) : M S A :=
  fun s => match m s with
           | (inl x, s') =>
               match h s' with
               | (inl y, s'') => (inl y, s'')
               | (inr _, s'') => (inl x, s'')
               end
           | (inr a, s') => (inr a, s')
           end.

Declare Scope sim_scope.
Delimit Scope sim_scope with sim.
Notation "x <- m ;; k" := (bind m (fun x => k))
  (at level 100, m at next level, k at level 200, right associativity)
  : sim_scope.
Notation "m ;; k" := (bind m (fun _ => k))
  (at level 100, k at level 200, right associativity) : sim_scope.
Local Open Scope sim_scope.

Fixpoint for_each {S A} (f : A -> M S unit) (l : list A) : M S unit :=
  match l with
  | [] => ret tt
  | x :: l' => f x ;; for_each f l'
  end.

(** *** Client code

    What the body of a [doit()], [newRun()] or [endRun()] may do to the
    engine: call the public interface of [Event], read the clock, draw
    from the default generator. *)
Inductive Handler :=
| Done
| Post (e : EventId) (t : Tick) (disp : bool) (k : Handler)
| Drop (e : EventId) (k : Handler)
| Process (e : EventId) (disp : bool) (k : Handler)
| SetPriority (e : EventId) (p : Z) (k : Handler)
| RestorePriority (e : EventId) (k : Handler)
| GetTime (k : Tick -> Handler)         (* SIMUL.getTime() *)
| GetRandom (k : RandNum -> Handler).   (* _pstdgen->sample() *)

(** *** Events (class Event) *)
Record Event := mkEvent {
  _order : Z;
  _isInQueue : bool;
  _stats : list ProbeId;
  _particles : list ProbeId;
  _traces : list ProbeId;
  _time : Tick;
  _lastTime : Tick;
  _priority : Z;
  _std_priority : Z;
  _disposable : bool;
  doit : Handler
}.

Definition set_order (o : Z) (ev : Event) : Event :=
  mkEvent o (_isInQueue ev) (_stats ev) (_particles ev) (_traces ev)
          (_time ev) (_lastTime ev) (_priority ev) (_std_priority ev)
          (_disposable ev) (doit ev).
Definition set_isInQueue (b : bool) (ev : Event) : Event :=
  mkEvent (_order ev) b (_stats ev) (_particles ev) (_traces ev)
          (_time ev) (_lastTime ev) (_priority ev) (_std_priority ev)
          (_disposable ev) (doit ev).
Definition set_time (t : Tick) (ev : Event) : Event :=
  mkEvent (_order ev) (_isInQueue ev) (_stats ev) (_particles ev) (_traces ev)
          t (_lastTime ev) (_priority ev) (_std_priority ev)
          (_disposable ev) (doit ev).
Definition set_lastTime (t : Tick) (ev : Event) : Event :=
  mkEvent (_order ev) (_isInQueue ev) (_stats ev) (_particles ev) (_traces ev)
          (_time ev) t (_priority ev) (_std_priority ev)
          (_disposable ev) (doit ev).
Definition set_priority (p : Z) (ev : Event) : Event :=
  mkEvent (_order ev) (_isInQueue ev) (_stats ev) (_particles ev) (_traces ev)
          (_time ev) (_lastTime ev) p (_std_priority ev)
          (_disposable ev) (doit ev).
Definition set_disposable (d : bool) (ev : Event) : Event :=
  mkEvent (_order ev) (_isInQueue ev) (_stats ev) (_particles ev) (_traces ev)
          (_time ev) (_lastTime ev) (_priority ev) (_std_priority ev)
          d (doit ev).

(** Modelled from the spec: [Event::Event(int p)] (event.cpp), for an
    event whose [doit()] is [h]: the priority and the standard priority
    are the constructor value, and the event is not queued. *)
Definition Event_new (p : Z) (h : Handler) : Event :=
  mkEvent 0 false [] [] [] 0 0 p p false h.

(** Modelled from the spec: [Event::Cmp::operator()] (event.cpp is not
    part of the sources at hand).  "Events are ordered by (time ASC,
    priority ASC, order ASC)". *)
Definition Cmp (e1 e2 : Event) : bool :=
  if _time e1 <? _time e2 then true
  else if _time e1 =? _time e2 then
    if _priority e1 <? _priority e2 then true
    else if _priority e1 =? _priority e2 then _order e1 <? _order e2
    else false
  else false.

(** *** The static part of [Event], the event objects and the default
    generator: everything client code can reach. *)
Record EventSys := mkEventSys {
  heap : gmap EventId Event;      (* the live Event objects *)
  _eventQueue : list EventId;     (* Event::_eventQueue, front first *)
  counter : Z;                    (* Event::counter *)
  _stdgen : RandomGen;            (* RandomVar::_stdgen *)
  drawn : list RandNum            (* the samples handed out so far *)
}.

Definition set_heap (h : gmap EventId Event) (q : EventSys) : EventSys :=
  mkEventSys h (_eventQueue q) (counter q) (_stdgen q) (drawn q).
Definition set_eventQueue (l : list EventId) (q : EventSys) : EventSys :=
  mkEventSys (heap q) l (counter q) (_stdgen q) (drawn q).
Definition set_counter (c : Z) (q : EventSys) : EventSys :=
  mkEventSys (heap q) (_eventQueue q) c (_stdgen q) (drawn q).

(** The comparator as the queue applies it, to two pointers. *)
Definition Cmp_ptr (h : gmap EventId Event) (e1 e2 : EventId) : bool :=
  match h !! e1, h !! e2 with
  | Some a, Some b => Cmp a b
  | _, _ => false
  end.

(** Modelled from the spec: [priority_list::insert] (plist.hpp is not
    part of the sources at hand): the element goes in front of the first
    one it compares less than. *)
Fixpoint plist_insert (lt : EventId -> EventId -> bool) (e : EventId)
         (l : list EventId) : list EventId :=
  match l with
  | [] => [e]
  | x :: l' => if lt e x then e :: x :: l' else x :: plist_insert lt e l'
  end.

(** Modelled from the spec: [priority_list::erase] (plist.hpp), the
    "arbitrary removal by key" that [drop] needs. *)
Definition plist_erase (e : EventId) (l : list EventId) : list EventId :=
  filter (fun x => x <> e) l.

(** Access to the object behind a pointer. *)
Definition deref (e : EventId) : M EventSys Event :=
  fun q => match heap q !! e with
           | Some ev => (inr ev, q)
           | None => (inl (BadPointer e), q)
           end.

Definition store (e : EventId) (ev : Event) : M EventSys unit :=
  modify (fun q => set_heap (<[e := ev]> (heap q)) q).

(** Modelled from the spec: [Event::post] (event.cpp).  "Fails if
    [at < globalTime]; fails if [inQueue].  On success: assigns
    [order := ++globalCounter], [time := at], [inQueue := true]"; the
    [disp] argument becomes the disposable flag (event.hpp, doc of
    [post]).  [now] is [SIMUL.getTime()]. *)
Definition post (e : EventId) (myTime : Tick) (disp : bool) (now : Tick)
  : M EventSys unit :=
  ev <- deref e ;;
  if myTime <? now then throw (EventExc "Posting in the past")
  else if _isInQueue ev then throw (EventExc "Already in queue")
  else
    c <- gets (fun q => counter q + 1) ;;
    modify (set_counter c) ;;
    store e (set_isInQueue true
               (set_disposable disp (set_time myTime (set_order c ev)))) ;;
    modify (fun q =>
              set_eventQueue
                (plist_insert (Cmp_ptr (heap q)) e (_eventQueue q)) q).

(** Modelled from the spec: [Event::drop] (event.cpp).  "Extracts this
    event from the queue if present; safe when not queued (no-op).  Does
    not destroy the event." *)
Definition drop (e : EventId) : M EventSys unit :=
  ev <- deref e ;;
  modify (fun q => set_eventQueue (plist_erase e (_eventQueue q)) q) ;;
  store e (set_isInQueue false ev).

Definition getTime (e : EventId) : M EventSys Tick :=
  ev <- deref e ;; ret (_time ev).

Definition isDisposable (e : EventId) : M EventSys bool :=
  ev <- deref e ;; ret (_disposable ev).

Definition setPriority (e : EventId) (p : Z) : M EventSys unit :=
  ev <- deref e ;; store e (set_priority p ev).

Definition restorePriority (e : EventId) : M EventSys unit :=
  ev <- deref e ;; store e (set_priority (_std_priority ev) ev).

(** [inline bool isInQueue() { return _isInQueue; }] *)
Definition isInQueue (e : EventId) : M EventSys bool :=
  ev <- deref e ;; ret (_isInQueue ev).

(** [inline int getPriority() const { return _priority; }] *)
Definition getPriority (e : EventId) : M EventSys Z :=
  ev <- deref e ;; ret (_priority ev).

(** Modelled from the spec: [Event::process] (event.cpp).  "Equivalent
    to [post(globalTime, disposable)] with priority temporarily forced to
    IMMEDIATE (0) [...]; restore priority afterwards."  The steps are
    taken in the order of the sentence.  Nothing that runs later puts
    the priority back -- [action], as the spec has it, does not -- so
    the event waits in the queue, where [post] has put it, under its
    standard priority. *)
Definition process (e : EventId) (disp : bool) (now : Tick)
  : M EventSys unit :=
  setPriority e _IMMEDIATE_PRIORITY ;;
  post e now disp now ;;
  restorePriority e.

(** Modelled from the spec: [Event::~Event] (event.cpp).  A destroyed
    event is "never observed in the queue again": the destructor unlinks
    the object, then its storage is gone. *)
Definition destroy (e : EventId) : M EventSys unit :=
  drop e ;;
  modify (fun q => set_heap (delete e (heap q)) q).

(** [static Event *getFirst()]: [None] is [NULL]. *)
Definition getFirst (q : EventSys) : option EventId := head (_eventQueue q).

(** [RandomGen::sample] on the default generator. *)
Definition draw : M EventSys RandNum :=
  fun q =>
    let '(v, g) := sample (_stdgen q) in
    (inr v,
     mkEventSys (heap q) (_eventQueue q) (counter q) g (drawn q ++ [v])).

(** Execution of client code at simulation time [now]. *)
Fixpoint run_handler (h : Handler) (now : Tick) : M EventSys unit :=
  match h with
  | Done => ret tt
  | Post e t disp k => post e t disp now ;; run_handler k now
  | Drop e k => drop e ;; run_handler k now
  | Process e disp k => process e disp now ;; run_handler k now
  | SetPriority e p k => setPriority e p ;; run_handler k now
  | RestorePriority e k => restorePriority e ;; run_handler k now
  | GetTime k => run_handler (k now) now
  | GetRandom k => v <- draw ;; run_handler (k v) now
  end.

(** *** The simulation (class Simulation) *)

(** Calls into the statistics engine ([BaseStat], not part of the
    sources at hand), recorded in call order. *)
Inductive StatCall :=
| StatInit (n : Z)      (* BaseStat::init(n) *)
| StatNewRun            (* BaseStat::newRun() *)
| StatEndRun            (* BaseStat::endRun() *)
| StatEndSim.           (* BaseStat::endSim() *)

(** What the engine lets the outside see, in the order it happens. *)
Inductive Obs :=
| ObsProbe (p : ProbeId) (e : EventId) (time lastTime : Tick)
    (* p->probe(e), with what getTime() and getLastTime() return then *)
| ObsStat (c : StatCall)
| ObsCout (msg : string)
| ObsRun (n : Z)                 (* cout << "\n Run #" << actRuns *)
| ObsNoMoreEvents (t : Tick)     (* cerr << "No more events in queue ..." *)
| ObsExec (e : EventId) (t : Tick).
    (* the debug line of sim_step, "Executing event action at time
       [mytime]" followed by temp->print(): which event, and when *)

(** A registered entity: its [newRun()] and [endRun()] hooks. *)
Record Entity := mkEntity { newRun : Handler; endRun : Handler }.

Record Simulation := mkSim {
  evs : EventSys;
  globTime : Tick;
  numRuns : Z;
  actRuns : Z;
  end_ : bool;
  registry : list Entity;   (* the entity registry, in registration order *)
  out : list Obs
}.

Definition set_evs (q : EventSys) (s : Simulation) : Simulation :=
  mkSim q (globTime s) (numRuns s) (actRuns s) (end_ s) (registry s) (out s).
Definition set_globTime (t : Tick) (s : Simulation) : Simulation :=
  mkSim (evs s) t (numRuns s) (actRuns s) (end_ s) (registry s) (out s).
Definition set_numRuns (n : Z) (s : Simulation) : Simulation :=
  mkSim (evs s) (globTime s) n (actRuns s) (end_ s) (registry s) (out s).
Definition set_actRuns (n : Z) (s : Simulation) : Simulation :=
  mkSim (evs s) (globTime s) (numRuns s) n (end_ s) (registry s) (out s).
Definition set_end (b : bool) (s : Simulation) : Simulation :=
  mkSim (evs s) (globTime s) (numRuns s) (actRuns s) b (registry s) (out s).
Definition set_out (o : list Obs) (s : Simulation) : Simulation :=
  mkSim (evs s) (globTime s) (numRuns s) (actRuns s) (end_ s) (registry s) o.

(** [Simulation::Simulation() : dbg(), numRuns(0), actRuns(0),
    globTime(0), end(false)], around the event system and the registry
    it finds. *)
Definition Simulation_new (q : EventSys) (reg : list Entity) : Simulation :=
  mkSim q 0 0 0 false reg [].

(** A member of [Event] run from the simulation: it sees the clock and
    acts on the event system. *)
Definition liftE {A} (m : Tick -> M EventSys A) : M Simulation A :=
  fun s => let '(r, q) := m (globTime s) (evs s) in (r, set_evs q s).

Definition emit (o : Obs) : M Simulation unit :=
  modify (fun s => set_out (out s ++ [o]) s).

(** [Simulation::setTime] *)
Definition setTime (t : Tick) : M Simulation unit := modify (set_globTime t).

(** Modelled from the spec: [BaseStat::probe], [ParticleInterface::probe]
    and [Trace::probe] (basestat.hpp, particle.hpp and trace.hpp are not
    part of the sources at hand).  A probe "is notified with the event
    pointer after the handler returns": what it can read through the
    pointer at that moment is recorded. *)
Definition probe (e : EventId) (p : ProbeId) : M Simulation unit :=
  ev <- liftE (fun _ => deref e) ;;
  emit (ObsProbe p e (_time ev) (_lastTime ev)).

(** Modelled from the spec: [Event::action] (event.cpp).  "Sets
    [lastTime := time], clears [inQueue], invokes the subclass handler
    [doit()], then iterates [stats], [particles], [traces] in insertion
    order and notifies each." *)
Definition action (e : EventId) : M Simulation unit :=
  ev <- liftE (fun _ => deref e) ;;
  liftE (fun _ => store e (set_isInQueue false (set_lastTime (_time ev) ev))) ;;
  liftE (run_handler (doit ev)) ;;
  ev' <- liftE (fun _ => deref e) ;;
  for_each (probe e) (_stats ev') ;;
  for_each (probe e) (_particles ev') ;;
  for_each (probe e) (_traces ev').

(** [Simulation::sim_step] *)
Definition sim_step : M Simulation Tick :=
  temp <- gets (fun s => getFirst (evs s)) ;;
  match temp with
  | None => throw NoMoreEventsInQueue
  | Some temp =>
      liftE (fun _ => drop temp) ;;
      mytime <- liftE (fun _ => getTime temp) ;;
      emit (ObsExec temp mytime) ;;
      setTime mytime ;;
      action temp ;;
      d <- liftE (fun _ => isDisposable temp) ;;
      (if d then liftE (fun _ => destroy temp) else ret tt) ;;
      ret mytime
  end.

(** [Simulation::getNextEventTime] *)
Definition getNextEventTime : M Simulation Tick :=
  temp <- gets (fun s => getFirst (evs s)) ;;
  match temp with
  | None => throw NoMoreEventsInQueue
  | Some temp => liftE (fun _ => getTime temp)
  end.

(** Result of a loop that is given [fuel] iterations: [None] when they
    do not suffice. *)
Definition Partial (A : Type) : Type := option ((Exc + A) * Simulation).

(** The [while] of [run_to]. *)
Fixpoint run_to_loop (fuel : nat) (stop : Tick) (s : Simulation)
  : Partial unit :=
  match fuel with
  | O => None
  | S fuel' =>
      match getNextEventTime s with
      | (inl x, s1) => Some (inl x, s1)
      | (inr t, s1) =>
          if t <=? stop then
            match sim_step s1 with
            | (inl x, s2) => Some (inl x, s2)
            | (inr t', s2) => run_to_loop fuel' stop (set_globTime t' s2)
            end
          else Some (inr tt, s1)
      end
  end.

(** [if (globTime < stop) globTime = stop; return globTime;] *)
Definition clamp_to (stop : Tick) : M Simulation Tick :=
  t <- gets globTime ;;
  (if t <? stop then setTime stop else ret tt) ;;
  gets globTime.

(** [Simulation::run_to] *)
Definition run_to (fuel : nat) (stop : Tick) (s : Simulation)
  : Partial Tick :=
  match run_to_loop fuel stop s with
  | None => None
  | Some (inl NoMoreEventsInQueue, s1) =>
      Some ((emit (ObsNoMoreEvents (globTime s1)) ;; clamp_to stop) s1)
  | Some (inl x, s1) => Some (inl x, s1)
  | Some (inr _, s1) => Some (clamp_to stop s1)
  end.

(** [Simulation::initRuns] *)
Definition initRuns (nRuns : Z) : M Simulation unit :=
  emit (ObsStat (StatInit nRuns)) ;;
  setTime 0 ;;
  modify (set_end false).

(** The [while] of [clearEventQueue]: every iteration erases the front
    of the queue, so one iteration per queued event is all it takes. *)
Fixpoint clear_loop (n : nat) : M Simulation unit :=
  match n with
  | O => ret tt
  | S n' =>
      temp <- gets (fun s => getFirst (evs s)) ;;
      match temp with
      | None => ret tt
      | Some temp =>
          liftE (fun _ => drop temp) ;;
          d <- liftE (fun _ => isDisposable temp) ;;
          (if d then liftE (fun _ => destroy temp) else ret tt) ;;
          clear_loop n'
      end
  end.

(** [Simulation::clearEventQueue] *)
Definition clearEventQueue : M Simulation unit :=
  n <- gets (fun s => length (_eventQueue (evs s))) ;;
  clear_loop n ;;
  setTime 0.

(** Modelled from the spec: [Entity::callNewRun] and [Entity::callEndRun]
    (entity.cpp is not part of the sources at hand).  They "iterate all
    live entities in registration order and invoke their hooks.  An
    exception from any hook aborts the run and is propagated after
    calling [clearEventQueue]." *)
Definition callNewRun : M Simulation unit :=
  hooks <- gets (fun s => map newRun (registry s)) ;;
  on_exception (for_each (fun h => liftE (run_handler h)) hooks)
               clearEventQueue.

Definition callEndRun : M Simulation unit :=
  hooks <- gets (fun s => map endRun (registry s)) ;;
  on_exception (for_each (fun h => liftE (run_handler h)) hooks)
               clearEventQueue.

(** [Simulation::initSingleRun] *)
Definition initSingleRun : M Simulation unit :=
  setTime 0 ;;
  callNewRun ;;
  emit (ObsStat StatNewRun).

(** [Simulation::endSingleRun] *)
Definition endSingleRun : M Simulation unit :=
  callEndRun ;;
  emit (ObsStat StatEndRun) ;;
  clearEventQueue.

(** [Simulation::endSim] *)
Definition endSim : M Simulation unit := emit (ObsStat StatEndSim).

(** The main cycle of [run]: [while (globTime < endTick) globTime =
    sim_step();] *)
Fixpoint main_cycle (fuel : nat) (endTick : Tick) (s : Simulation)
  : Partial unit :=
  match fuel with
  | O => None
  | S fuel' =>
      if globTime s <? endTick then
        match sim_step s with
        | (inl x, s1) => Some (inl x, s1)
        | (inr t, s1) => main_cycle fuel' endTick (set_globTime t s1)
        end
      else Some (inr tt, s)
  end.

(** One replica: the body of the [while (actRuns < numRuns)] loop. *)
Definition replica (fuel : nat) (endTick : Tick) (s : Simulation)
  : Partial unit :=
  match (emit (ObsRun (actRuns s)) ;; initSingleRun) s with
  | (inl x, s1) => Some (inl x, s1)
  | (inr _, s1) =>
      let finish :=
        endSingleRun ;; modify (fun s => set_actRuns (actRuns s + 1) s) in
      match main_cycle fuel endTick s1 with
      | None => None
      | Some (inl NoMoreEventsInQueue, s2) =>
          Some ((emit (ObsNoMoreEvents (globTime s2)) ;; finish) s2)
      | Some (inl x, s2) => Some (inl x, s2)
      | Some (inr _, s2) => Some (finish s2)
      end
  end.

(** The replica loop; [budget] bounds its iterations and [numRuns]
    iterations is all it ever takes. *)
Fixpoint replicas (budget fuel : nat) (endTick : Tick) (s : Simulation)
  : Partial unit :=
  if actRuns s <? numRuns s then
    match budget with
    | O => None
    | S budget' =>
        match replica fuel endTick s with
        | None => None
        | Some (inl x, s1) => Some (inl x, s1)
        | Some (inr _, s1) => replicas budget' fuel endTick s1
        end
    end
  else Some (inr tt, s).

(** The decoding of [nRuns] at the head of [run]: the two flags, and
    the local [nRuns] as it stands afterwards. *)
Definition run_mode (nRuns : Z) : M Simulation (bool * bool * Z) :=
  if nRuns <? -1 then
    emit (ObsCout "Initialize stats") ;;
    modify (set_numRuns 1) ;;
    ret (true, false, - nRuns)
  else if nRuns =? -1 then
    emit (ObsCout "Will not initialize stats") ;;
    modify (set_numRuns 1) ;;
    ret (false, false, nRuns)
  else if nRuns =? 0 then
    emit (ObsCout "Last Sim in the batch") ;;
    modify (set_numRuns 1) ;;
    ret (false, true, nRuns)
  else if nRuns =? 1 then
    emit (ObsCout "One single run") ;;
    modify (set_numRuns 1) ;;
    ret (true, true, nRuns)
  else
    modify (set_numRuns nRuns) ;;
    ret (true, true, nRuns).

(** What [run] does before its replica loop. *)
Definition run_prologue (nRuns : Z) : M Simulation bool :=
  mode <- run_mode nRuns ;;
  let '(initializeRuns, terminateSim, _) := mode in
  n <- gets numRuns ;;
  (if n =? 2 then
     emit (ObsCout "Warning: Simulation cannot be initialized with 2 runs") ;;
     emit (ObsCout "         Executing 3 runs!") ;;
     modify (set_numRuns 3)
   else ret tt) ;;
  n <- gets numRuns ;;
  (if initializeRuns then initRuns n else ret tt) ;;
  modify (set_actRuns 0) ;;
  ret terminateSim.

(** [Simulation::run] *)
Definition run (fuel : nat) (endTick : Tick) (nRuns : Z) (s : Simulation)
  : Partial unit :=
  match run_prologue nRuns s with
  | (inl x, s1) => Some (inl x, s1)
  | (inr terminateSim, s1) =>
      match replicas (Z.to_nat (numRuns s1)) fuel endTick s1 with
      | None => None
      | Some (inl x, s2) => Some (inl x, s2)
      | Some (inr _, s2) =>
          Some ((modify (set_end true) ;;
                 if terminateSim then endSim else ret tt) s2)
      end
  end.

End MetaSim.

(* ===================================================================== *)
(** ** The real-time library (schedinstr.cpp, rttask.cpp)                 *)
(* ===================================================================== *)

Module RTSim.
Import Rand MetaSim.
Local Open Scope sim_scope.

Definition TaskId := nat.     (* Task* *)
Definition KernelId := nat.   (* AbsKernel* *)

(** *** SchedInstr *)

Record SchedInstr := mkSchedInstr {
  _father : TaskId;
  _endEvt : EventId;
  _threEvt : EventId
}.

(** The calls [onEnd] makes on other objects. *)
Inductive Call :=
| CallOnInstrEnd (t : TaskId)             (* _father->onInstrEnd() *)
| CallDisableThreshold (k : KernelId)     (* k->disableThreshold() *)
| CallDispatch (k : KernelId)             (* k->dispatch() *)
| CallProcess (e : EventId).              (* _threEvt.process() *)

Section SchedInstr.
(** The tasks and kernels ([Task], [RTKernel]: task.cpp and kernel.hpp are
    not part of the sources at hand) are taken as they come: a state of
    their own, and members that act on it and on the simulation. *)
Context {KState : Type}.
Variable onInstrEnd : TaskId -> M (Simulation * KState) unit.
Variable getKernel : TaskId -> KState -> option KernelId.
Variable is_RTKernel : KernelId -> KState -> bool.
Variable disableThreshold : KernelId -> M (Simulation * KState) unit.
Variable dispatch : KernelId -> M (Simulation * KState) unit.

(** The simulation, the tasks and kernels, and the calls made so far. *)
Record World := mkWorld {
  sim : Simulation;
  kst : KState;
  called : list Call
}.

(** A call of a member of another object: it is recorded, then the member
    runs. *)
Definition call (c : Call) (m : M (Simulation * KState) unit) : M World unit :=
  fun w =>
    let '(r, (s', k')) := m (sim w, kst w) in
    (r, mkWorld s' k' (called w ++ [c])).

(** A member of [Event] run on the simulation of the world. *)
Definition on_sim (m : M Simulation unit) : M (Simulation * KState) unit :=
  fun sk => let '(r, s') := m (fst sk) in (r, (s', snd sk)).

(** [dynamic_cast<RTKernel *>(_father->getKernel())]: [None] is [NULL]. *)
Definition father_RTKernel (f : TaskId) (ks : KState) : option KernelId :=
  match getKernel f ks with
  | Some k => if is_RTKernel k ks then Some k else None
  | None => None
  end.

(** [SchedInstr::onEnd] *)
Definition onEnd (i : SchedInstr) : M World unit :=
  call (CallOnInstrEnd (_father i)) (onInstrEnd (_father i)) ;;
  k <- gets (fun w => father_RTKernel (_father i) (kst w)) ;;
  match k with
  | None => throw (BaseExc "Kernel not found!")
  | Some k =>
      call (CallDisableThreshold k) (disableThreshold k) ;;
      call (CallDispatch k) (dispatch k) ;;
      call (CallProcess (_threEvt i))
           (on_sim (liftE (process (_threEvt i) false)))
  end.

(** The calls of a complete [onEnd] on kernel [k], in order. *)
Definition onEnd_calls (i : SchedInstr) (k : KernelId) : list Call :=
  [CallOnInstrEnd (_father i); CallDisableThreshold k; CallDispatch k;
   CallProcess (_threEvt i)].
End SchedInstr.

(** [SchedInstr::schedule]: [_endEvt.post(SIMUL.getTime());], the
    [disp] argument of [post] at its default, [false]. *)
Definition schedule (i : SchedInstr) : M Simulation unit :=
  liftE (fun now => post (_endEvt i) now false now).

(** [SchedInstr::deschedule]: [_endEvt.drop();] *)
Definition deschedule (i : SchedInstr) : M Simulation unit :=
  liftE (fun _ => drop (_endEvt i)).

(** [SchedInstr::endRun]: [_endEvt.drop(); _threEvt.drop();] *)
Definition endRun (i : SchedInstr) : M Simulation unit :=
  liftE (fun _ => drop (_endEvt i)) ;;
  liftE (fun _ => drop (_threEvt i)).

(** *** PeriodicTask *)

Record PeriodicTask := mkPeriodicTask {
  iat : Tick;          (* period *)
  rdl : Tick;
  ph : Tick;
  name : string;
  qs : Z
}.

(** The outcome of code that indexes a vector: a value, or an access
    outside the vector, which [operator[]] does not check for. *)
Inductive result (A : Type) :=
| Ok (a : A)
| OutOfBounds (index : nat).
Arguments Ok {A} a.
Arguments OutOfBounds {A} index.

(** Code that reads a vector of strings, with the indices it has read. *)
Definition Reader (A : Type) : Type :=
  list string -> list nat -> result A * list nat.

Definition pure {A} (a : A) : Reader A := fun _ reads => (Ok a, reads).

Definition and_then {A B} (m : Reader A) (k : A -> Reader B) : Reader B :=
  fun par reads =>
    match m par reads with
    | (Ok a, reads') => k a par reads'
    | (OutOfBounds i, reads') => (OutOfBounds i, reads')
    end.

(** [par[i]] *)
Definition at_ (i : nat) : Reader string :=
  fun par reads =>
    match par !! i with
    | Some x => (Ok x, reads ++ [i])
    | None => (OutOfBounds i, reads ++ [i])
    end.

(** [par.size()] *)
Definition size : Reader nat := fun par reads => (Ok (length par), reads).

Section PeriodicTask.
(** [Tick(const string &)] and [atoi] are taken as they come. *)
Variable Tick_of_string : string -> Tick.
Variable atoi : string -> Z.

(** [PeriodicTask::createInstance] *)
Definition createInstance : Reader PeriodicTask :=
  and_then (at_ 0) (fun p0 => let i := Tick_of_string p0 in
  and_then (at_ 1) (fun p1 => let d := Tick_of_string p1 in
  and_then (at_ 2) (fun p2 => let p := Tick_of_string p2 in
  and_then size (fun sz =>
  and_then (if (2 <? sz)%nat then at_ 3 else pure ""%string) (fun n =>
  and_then (if (4 <? sz)%nat
            then and_then (at_ 4) (fun p4 => pure (atoi p4))
            else pure 100) (fun q =>
  and_then (if (5 <? sz)%nat
            then and_then (at_ 5)
                          (fun p5 => pure (negb (String.eqb p5 "false")))
            else pure true) (fun a =>
  pure (mkPeriodicTask i d p n q)))))))).
End PeriodicTask.

End RTSim.

(* ===================================================================== *)
(** ** Vocabulary of the statements                                       *)
(* ===================================================================== *)

Module SimSpec.
Import Rand MetaSim.

(** The part of an event that only [action] and the client's set-up code
    write: no member an event handler can call touches it. *)
Definition frozen (ev : Event) : Tick * list ProbeId * list ProbeId
                                 * list ProbeId * Z * Handler :=
  (_lastTime ev, _stats ev, _particles ev, _traces ev, _std_priority ev,
   doit ev).

(** Two event systems hold the same objects, with the same frozen part. *)
Definition same_frozen (q q' : EventSys) : Prop :=
  forall x : EventId, frozen <$> heap q' !! x = frozen <$> heap q !! x.

(** All probes attached to an event, in notification order. *)
Definition probes_of (ev : Event) : list ProbeId :=
  _stats ev ++ _particles ev ++ _traces ev.

(** The lexicographic order on (time, priority, order). *)
Definition key_lt (a b : Event) : Prop :=
  _time a < _time b \/
  (_time a = _time b /\
   (_priority a < _priority b \/
    (_priority a = _priority b /\ _order a < _order b))).

(** [a] sits in front of [b] in the list [l]. *)
Definition before (a b : EventId) (l : list EventId) : Prop :=
  exists l1 l2 l3, l = l1 ++ a :: l2 ++ b :: l3.

(** The queue is in comparator order, front first. *)
Definition queue_sorted (q : EventSys) : Prop :=
  StronglySorted (fun a b => Cmp_ptr (heap q) a b = true) (_eventQueue q).

(** Consistency of the event system: the queue is in comparator order,
    it holds exactly the live events whose [_isInQueue] flag is set, and
    no queued event carries an insertion number the counter has not
    reached yet. *)
Record wf (q : EventSys) : Prop := mk_wf {
  wf_sorted : queue_sorted q;
  wf_queued : forall e, e ∈ _eventQueue q ->
                exists ev, heap q !! e = Some ev /\ _isInQueue ev = true /\
                           _order ev <= counter q;
  wf_flag : forall e ev, heap q !! e = Some ev -> _isInQueue ev = true ->
                         e ∈ _eventQueue q
}.

(** The event system once [e], whose object is [ev], has been dropped. *)
Definition dropped (e : EventId) (ev : Event) (q : EventSys) : EventSys :=
  mkEventSys (<[e := set_isInQueue false ev]> (heap q))
             (plist_erase e (_eventQueue q))
             (counter q) (_stdgen q) (drawn q).

(** The event system once [e] has been destroyed. *)
Definition destroyed (e : EventId) (q : EventSys) : EventSys :=
  mkEventSys (delete e (heap q)) (plist_erase e (_eventQueue q))
             (counter q) (_stdgen q) (drawn q).

(** The state in which [sim_step] calls [action] on the front event
    [temp], whose object is [ev]: the event is out of the queue, its
    execution is on the debug stream, the clock is at its time. *)
Definition at_action (temp : EventId) (ev : Event) (s : Simulation)
  : Simulation :=
  set_globTime (_time ev)
    (set_out (out s ++ [ObsExec temp (_time ev)])
       (set_evs (dropped temp ev (evs s)) s)).

(** Client code that reaches the queue through [post] and [drop] only: it
    does not change the priority of an event. *)
Fixpoint orderly (h : Handler) : Prop :=
  match h with
  | Done => True
  | Post _ _ _ k => orderly k
  | Drop _ k => orderly k
  | Process _ _ _ => False
  | SetPriority _ _ _ => False
  | RestorePriority _ _ => False
  | GetTime k => forall t, orderly (k t)
  | GetRandom k => forall v, orderly (k v)
  end.

Definition all_orderly (q : EventSys) : Prop :=
  forall e ev, heap q !! e = Some ev -> orderly (doit ev).

(** The part of the output that is of one kind. *)
Definition stat_calls (l : list Obs) : list StatCall :=
  omap (fun o => match o with ObsStat c => Some c | _ => None end) l.

Definition executed (l : list Obs) : list (EventId * Tick) :=
  omap (fun o => match o with ObsExec e t => Some (e, t) | _ => None end) l.

Definition diagnostics (l : list Obs) : list Tick :=
  omap (fun o => match o with ObsNoMoreEvents t => Some t | _ => None end) l.

(** The generator of [q'] is the generator of [q] after the draws that
    [q'] has recorded on top of those of [q]: nothing else moved it. *)
Definition gen_continues (q q' : EventSys) : Prop :=
  exists n : nat,
    drawn q' = drawn q ++ fst (samples n (_stdgen q)) /\
    _stdgen q' = snd (samples n (_stdgen q)).

Definition gen_cont (s s' : Simulation) : Prop :=
  gen_continues (evs s) (evs s').

(** A computation relates every state it is run in to the state it
    leaves, whether it returns or throws. *)
Definition preserves {S A} (R : S -> S -> Prop) (m : M S A) : Prop :=
  forall s r s', m s = (r, s') -> R s s'.

Definition preservesP {A} (R : Simulation -> Simulation -> Prop)
           (f : Simulation -> Partial A) : Prop :=
  forall s r s', f s = Some (r, s') -> R s s'.

(** Between [s] and [s'] the output grew, by items that all satisfy [P]. *)
Definition emits (P : Obs -> Prop) (s s' : Simulation) : Prop :=
  exists l, out s' = out s ++ l /\ Forall P l.

Definition is_probe (o : Obs) : Prop :=
  match o with ObsProbe _ _ _ _ => True | _ => False end.

(** The driver's own variables and the registry are as they were. *)
Definition same_driver (s s' : Simulation) : Prop :=
  globTime s' = globTime s /\ numRuns s' = numRuns s /\
  actRuns s' = actRuns s /\ end_ s' = end_ s /\ registry s' = registry s.

(** Every exception a computation can raise satisfies [P]. *)
Definition raises_only {S A} (P : Exc -> Prop) (m : M S A) : Prop :=
  forall s x s', m s = (inl x, s') -> P x.

(** Output that is no call into the statistics engine. *)
Definition no_stat (o : Obs) : Prop :=
  match o with ObsStat _ => False | _ => True end.

(** Between [s] and [s'] the run counters stand still and the statistics
    engine is not called. *)
Definition quiet (s s' : Simulation) : Prop :=
  numRuns s' = numRuns s /\ actRuns s' = actRuns s /\ emits no_stat s s'.

(** Between [s] and [s'] the run counters stand still and the statistics
    engine receives exactly the calls [d]. *)
Definition calls (d : list StatCall) (s s' : Simulation) : Prop :=
  numRuns s' = numRuns s /\ actRuns s' = actRuns s /\
  stat_calls (out s') = stat_calls (out s) ++ d.

(** The batch mode [run] decodes from its [nRuns] argument: whether the
    statistics are initialised, whether the simulation is terminated, and
    the number of replicas, which is also what [initRuns] is given. *)
Definition batch_mode (nRuns : Z) : bool * bool * Z :=
  if nRuns <? -1 then (true, false, 1)
  else if nRuns =? -1 then (false, false, 1)
  else if nRuns =? 0 then (false, true, 1)
  else if nRuns =? 1 then (true, true, 1)
  else if nRuns =? 2 then (true, true, 3)
  else (true, true, nRuns).

(** The calls into the statistics engine that a [run] in the given mode
    makes when every replica completes. *)
Definition batch_calls (mode : bool * bool * Z) : list StatCall :=
  let '(initializeRuns, terminateSim, n) := mode in
  (if initializeRuns then [StatInit n] else []) ++
  concat (replicate (Z.to_nat n) [StatNewRun; StatEndRun]) ++
  (if terminateSim then [StatEndSim] else []).

(** Any exception but the one for the empty queue. *)
Definition not_empty_queue (x : Exc) : Prop := x <> NoMoreEventsInQueue.

(** What one step taken by [run_to stop] may put on the output: the
    execution of an event due at [stop] or before, and probe
    notifications. *)
Definition step_output (stop : Tick) (o : Obs) : Prop :=
  match o with
  | ObsExec _ t => t <= stop
  | ObsProbe _ _ _ _ => True
  | _ => False
  end.

(** The state [run_to stop] returns when its loop is left in [s1]. *)
Definition run_to_final (stop : Tick) (s1 : Simulation) : Simulation :=
  set_globTime (Z.max (globTime s1) stop)
    (set_out (out s1 ++ match _eventQueue (evs s1) with
                        | [] => [ObsNoMoreEvents (globTime s1)]
                        | _ :: _ => []
                        end) s1).

(** The iterations of the loop of [run_to]: as long as the front event is
    due at [stop] or before, one [sim_step], whose result becomes the
    clock. *)
Inductive run_to_steps (stop : Tick) : Simulation -> Simulation -> Prop :=
| rts_done s : run_to_steps stop s s
| rts_step s temp ev t s1 s' :
    getFirst (evs s) = Some temp ->
    heap (evs s) !! temp = Some ev ->
    _time ev <= stop ->
    sim_step s = (inr t, s1) ->
    run_to_steps stop (set_globTime t s1) s' ->
    run_to_steps stop s s'.

(** The loop of [run_to] has nothing left to do in [s]: the queue is empty
    or its front event is due after [stop]. *)
Definition run_to_exit (stop : Tick) (s : Simulation) : Prop :=
  _eventQueue (evs s) = [] \/
  exists temp ev, getFirst (evs s) = Some temp /\
                  heap (evs s) !! temp = Some ev /\ stop < _time ev.

(** What [sim_step] does once the front event [temp] is out of the queue
    and the clock is set to its time [t]. *)
Definition step_rest (temp : EventId) (t : Tick) : M Simulation Tick :=
  bind (action temp) (fun _ =>
  bind (liftE (fun _ => isDisposable temp)) (fun d =>
  bind (if d then liftE (fun _ => destroy temp) else ret tt) (fun _ =>
  ret t))).

(** *** Time *)

(** [a] is due no later than [b]. *)
Definition due_before (h : gmap EventId Event) (a b : EventId) : Prop :=
  match h !! a, h !! b with
  | Some x, Some y => _time x <= _time y
  | _, _ => False
  end.

(** The event system is on time at [now]: the queue is in the order in
    which its events are due, it holds exactly the live events whose
    [_isInQueue] flag is set, and none of them is due before [now]. *)
Record timely (now : Tick) (q : EventSys) : Prop := mk_timely {
  timely_sorted : StronglySorted (due_before (heap q)) (_eventQueue q);
  timely_queued : forall e, e ∈ _eventQueue q ->
                    exists ev, heap q !! e = Some ev /\
                               _isInQueue ev = true /\ now <= _time ev;
  timely_flag : forall e ev, heap q !! e = Some ev ->
                             _isInQueue ev = true -> e ∈ _eventQueue q
}.

Definition keeps_timely (now : Tick) (q q' : EventSys) : Prop :=
  timely now q -> timely now q'.

(** The simulation is on time: its clock is not negative and its event
    system is on time at the clock. *)
Definition on_time (s : Simulation) : Prop :=
  0 <= globTime s /\ timely (globTime s) (evs s).

Definition keeps_on_time (s s' : Simulation) : Prop :=
  on_time s -> on_time s'.

(** The clock stands still. *)
Definition same_clock (s s' : Simulation) : Prop := globTime s' = globTime s.

(** The times at which the events on the output were executed. *)
Definition exec_times (l : list Obs) : list Tick := map snd (executed l).

(** Between [s] and [s'] the clock did not go back, and the events
    executed in between were executed in the order of their times, none
    before the clock of [s] and none after the clock of [s']. *)
Definition advances (s s' : Simulation) : Prop :=
  globTime s <= globTime s' /\
  exists l, out s' = out s ++ l /\
            StronglySorted Z.le (exec_times l) /\
            Forall (fun t => globTime s <= t <= globTime s') (exec_times l).

(** From a simulation that is on time, the computation leaves one that
    is, without taking the clock back. *)
Definition moves_on (s s' : Simulation) : Prop :=
  on_time s -> on_time s' /\ advances s s'.

(** The run counters stand still. *)
Definition same_runs (s s' : Simulation) : Prop :=
  numRuns s' = numRuns s /\ actRuns s' = actRuns s.

(** What belongs to [run] is left alone: the statistics engine is not
    called, and the run counters, the [end] flag and the registry are as
    they were. *)
Definition undisturbed (s s' : Simulation) : Prop :=
  stat_calls (out s') = stat_calls (out s) /\
  numRuns s' = numRuns s /\ actRuns s' = actRuns s /\
  end_ s' = end_ s /\ registry s' = registry s.

(** The event objects once the events of [l] have been taken out of the
    queue, and deleted if disposable. *)
Definition cleared (l : list EventId) (h : gmap EventId Event)
  : gmap EventId Event :=
  map_imap (fun e ev =>
              if decide (e ∈ l)
              then if _disposable ev then None
                   else Some (set_isInQueue false ev)
              else Some ev) h.

(** One turn of the loop of [getMaximum] and [getMinimum]. *)
Definition keep_best {double : Type} (better : double -> double -> bool)
           (best x : double) : double :=
  if better x best then x else best.

(** The factory [f] takes exactly [n] parameters: any other number is a
    [ParseExc], and with [n] of them it makes its object. *)
Definition checks_arity {double : Type} (n : nat)
           (f : list string -> @made double) : Prop :=
  forall par : list string,
    (length par <> n -> exists msg cls, f par = ParseExc msg cls) /\
    (length par = n -> exists v, f par = Made v).

(** The replica loop of [run] gets from [s] to [s'], the start of a
    later replica: the replicas in between have returned. *)
Inductive replicas_reach (fuel : nat) (endTick : Tick)
  : Simulation -> Simulation -> Prop :=
| reach_here s : replicas_reach fuel endTick s s
| reach_next s s1 s' :
    actRuns s < numRuns s ->
    replica fuel endTick s = Some (inr tt, s1) ->
    replicas_reach fuel endTick s1 s' ->
    replicas_reach fuel endTick s s'.

End SimSpec.

(* ===================================================================== *)
(** ** Small simulations to run the definitions on                        *)
(* ===================================================================== *)

Module Scenarios.
Import Rand MetaSim SimSpec RTSim.

Definition A : EventId := 1%nat.
Definition B : EventId := 2%nat.
Definition stat : ProbeId := 7%nat.

(** A simulation at time 0 around the event system [q], with the entities
    [reg] registered. *)
Definition sim_of (reg : list Entity) (q : EventSys) : Simulation :=
  mkSim q 0 0 0 false reg [].

(** Nothing at all: no event, no entity. *)
Definition idle : Simulation :=
  sim_of [] (mkEventSys ∅ [] 0 (RandomGen_new 1) []).

(** Two events of default priority whose handlers do nothing; [A] is
    posted at time 10. *)
Definition two_events : EventSys :=
  mkEventSys {[ A := Event_new 8 Done; B := Event_new 8 Done ]}
             [] 0 (RandomGen_new 1) [].

Definition A_posted : EventSys := snd (post A 10 false 0 two_events).
Definition AB_posted : EventSys := snd (post B 10 false 0 A_posted).

(** The same with [B] of immediate priority. *)
Definition urgent_B_posted : EventSys :=
  snd (post B 10 false 0
         (snd (post A 10 false 0
                 (mkEventSys {[ A := Event_new 8 Done; B := Event_new 0 Done ]}
                             [] 0 (RandomGen_new 1) [])))).

(** [A] of default priority and [B] of priority 3, both posted at time
    10, [A] first; the same once the priority of [B], still queued, has
    been set to the default; and two steps from there. *)
Definition B_ahead : EventSys :=
  snd (post B 10 false 0
         (snd (post A 10 false 0
                 (mkEventSys {[ A := Event_new 8 Done; B := Event_new 3 Done ]}
                             [] 0 (RandomGen_new 1) [])))).

Definition B_levelled : EventSys := snd (setPriority B 8 B_ahead).

Definition B_levelled_stepped : Simulation :=
  snd (sim_step (snd (sim_step (sim_of [] B_levelled)))).

(** Two steps from [A] and [B] posted at time 10. *)
Definition AB_stepped : Simulation :=
  snd (sim_step (snd (sim_step (sim_of [] AB_posted)))).

(** An event with a statistics probe whose handler re-posts it at time
    20; it is posted at time 10. *)
Definition reposting : Event :=
  mkEvent 0 false [stat] [] [] 0 0 8 8 false (Post A 20 false Done).

Definition reposting_posted : Simulation :=
  snd (liftE (post A 10 false)
             (sim_of [] (mkEventSys {[ A := reposting ]} [] 0
                                    (RandomGen_new 1) []))).

(** The event as it sits in the queue, and the same simulation at the
    moment [sim_step] calls [action]. *)
Definition reposting_queued : Event :=
  set_isInQueue true (set_time 10 (set_order 1 reposting)).

Definition reposting_fired : Simulation :=
  at_action A reposting_queued reposting_posted.

Definition reposting_done : Simulation := snd (action A reposting_fired).

(** An event that, when it fires, draws a number and re-posts itself
    between one and three ticks later; an entity that posts it at the
    start of each run and drops it at the end. *)
Definition jittery : Event :=
  Event_new 8 (GetRandom (fun v =>
               GetTime (fun now => Post A (now + 1 + v mod 3) false Done))).

Definition source : Entity :=
  mkEntity (Post A 0 false Done) (Drop A Done).

Definition jitter_sim : Simulation :=
  sim_of [source] (mkEventSys {[ A := jittery ]} [] 0 (RandomGen_new 1) []).

(** Three replicas of it, each up to time 10. *)
Definition jitter_done : Simulation :=
  match run 50 10 3 jitter_sim with
  | Some (_, s) => s
  | None => jitter_sim
  end.

(** [A] and [B] posted at time 10, run up to time 100. *)
Definition horizon_done : Simulation :=
  match run_to 5 100 (sim_of [] AB_posted) with
  | Some (_, s) => s
  | None => idle
  end.

(** The first run of a batch of five, on the idle simulation. *)
Definition first_of_batch : Simulation :=
  match run 1 100 (-5) idle with
  | Some (_, s) => s
  | None => idle
  end.

(** An event that re-posts itself every 7 ticks, posted at time 0 by its
    entity at the start of each run; three replicas of length 100. *)
Definition every_7 : Simulation :=
  sim_of [source]
         (mkEventSys
            {[ A := Event_new 8 (GetTime (fun now => Post A (now + 7) false Done)) ]}
            [] 0 (RandomGen_new 1) []).

Definition every_7_done : Simulation :=
  match run 20 100 3 every_7 with
  | Some (_, s) => s
  | None => every_7
  end.

(** A scheduling instruction of task 3, whose kernel, 5, is an [RTKernel];
    tasks and kernels have no state of their own and their members do
    nothing. *)
Definition instr : SchedInstr := mkSchedInstr 3%nat A B.

Definition onEnd_demo : M (@World unit) unit :=
  onEnd (fun _ => ret tt) (fun _ _ => Some 5%nat) (fun _ _ => true)
        (fun _ => ret tt) (fun _ => ret tt) instr.

Definition world : @World unit :=
  mkWorld (set_globTime 5 (sim_of [] two_events)) tt [].

Definition world_done : @World unit := snd (onEnd_demo world).

(** The same simulation once a run has been initialised, and after the
    main cycle of a run of length 100. *)
Definition every_7_started : Simulation := snd (initSingleRun every_7).

Definition every_7_cycled : Simulation :=
  match main_cycle 20 100 every_7_started with
  | Some (_, s) => s
  | None => every_7
  end.

(** An event whose handler posts it in the past, posted at time 0 by its
    entity at the start of the run; one run of length 100. *)
Definition faulty : Simulation :=
  sim_of [source]
         (mkEventSys
            {[ A := Event_new 8 (GetTime (fun now => Post A (now - 1) false Done)) ]}
            [] 0 (RandomGen_new 1) []).

Definition faulty_done : Simulation :=
  match run 5 100 1 faulty with
  | Some (_, s) => s
  | None => faulty
  end.

(** The instruction [instr] scheduled at time 0. *)
Definition scheduled : Simulation :=
  snd (schedule instr (sim_of [] two_events)).

(** A sequence one element longer than a 32-bit counter can index:
    [2^32] zeros, then a one; and the first call of [get] after the
    counter has gone round, call number [2^32 + 1]. *)
Definition long_sequence : list Z := replicate (Z.to_nat UINT_MOD) 0 ++ [1].

Definition call_after_wrap : nat := S (Z.to_nat UINT_MOD).

(** A deterministic variable over the integers. *)
Definition three_values : @DetVar Z := DetVar_new [3; 1; 2].

(** The default generator and a generator of the client's, seeded with 7;
    the same once a number has been drawn from the default one. *)
Definition two_gens : GenStore :=
  mkGenStore (RandomGen_new 1) StdGen {[ 0%nat := RandomGen_new 7 ]}.

Definition two_gens_drawn : GenStore :=
  match sample_at StdGen two_gens with
  | Some (_, st) => st
  | None => two_gens
  end.

End Scenarios.

(* ===================================================================== *)
(** * Properties                                                          *)
(* ===================================================================== *)

(** ** The generator *)

Section RandomGenFacts.
Import Rand.

Lemma sample_value (g : RandomGen) :
  fst (sample g) =
    (if raw_step (_xn g) <? 0 then raw_step (_xn g) + M else raw_step (_xn g)).
Proof. reflexivity. Qed.

Lemma sample_state (g : RandomGen) :
  _xn (snd (sample g)) = fst (sample g) /\ _seed (snd (sample g)) = _seed g.
Proof. split; reflexivity. Qed.

(** Schrage's bound: on a 32-bit state the raw step stays in (-M, M). *)
Lemma raw_step_bounds (x : Z) :
  - 2 ^ 31 <= x < 2 ^ 31 -> - M < raw_step x < M.
Proof.
  intros Hx. unfold raw_step, A, R, M, Q in *.
  Z.to_euclidean_division_equations. lia.
Qed.

(** Truncating and flooring division give congruent raw steps. *)
Lemma raw_step_floor (x : Z) :
  (A * (x mod Q) - R * (x / Q)) mod M = raw_step x mod M.
Proof.
  unfold raw_step, A, R, M, Q.
  destruct (Z_le_gt_dec 0 x) as [Hpos | Hneg].
  - rewrite Z.quot_div_nonneg, Z.rem_mod_nonneg by lia. reflexivity.
  - destruct (Z.eq_dec (Z.rem x 127773) 0) as [Hz | Hnz].
    + assert (x / 127773 = Z.quot x 127773 /\ x mod 127773 = 0) as [-> ->]
        by (Z.to_euclidean_division_equations; lia).
      rewrite Hz. reflexivity.
    + assert (x / 127773 = Z.quot x 127773 - 1 /\
              x mod 127773 = Z.rem x 127773 + 127773) as [-> ->]
        by (Z.to_euclidean_division_equations; lia).
      replace (16807 * (Z.rem x 127773 + 127773) -
               2836 * (Z.quot x 127773 - 1))
        with (16807 * Z.rem x 127773 - 2836 * Z.quot x 127773
              + 1 * 2147483647) by lia.
      apply Z.mod_add. lia.
Qed.

Lemma sample_is_mod_iff (g : RandomGen) :
  fst (sample g) = park_miller_trunc (_xn g) <->
  - M <= raw_step (_xn g) < M.
Proof.
  rewrite sample_value. unfold park_miller_trunc. fold (raw_step (_xn g)).
  set (r := raw_step (_xn g)).
  pose proof (Z.mod_pos_bound r M ltac:(unfold M; lia)) as Hb.
  destruct (Z.ltb_spec r 0) as [Hneg | Hpos]; split; intros H.
  - lia.
  - apply Z.mod_unique with (q := -1); [left | ]; unfold M in *; lia.
  - lia.
  - apply Z.mod_unique with (q := 0); [left | ]; unfold M in *; lia.
Qed.
(** On a 64-bit [long] no step of [sample] overflows: the arithmetic of
    the embedding is the arithmetic of the machine. *)
Lemma sample_no_overflow (g : RandomGen) :
  is_long (_xn g) ->
  is_long (A * Z.rem (_xn g) Q) /\ is_long (R * Z.quot (_xn g) Q) /\
  is_long (raw_step (_xn g)) /\ is_long (raw_step (_xn g) + M) /\
  is_long (fst (sample g)).
Proof.
  intros Hx. rewrite sample_value.
  unfold is_long, LONG_MIN, LONG_MAX, raw_step, A, R, M, Q in *.
  destruct (Z.ltb_spec (16807 * Z.rem (_xn g) 127773
                        - 2836 * Z.quot (_xn g) 127773) 0);
    Z.to_euclidean_division_equations; lia.
Qed.

Lemma sample_in_range (g : RandomGen) :
  - 2 ^ 31 <= _xn g < 2 ^ 31 -> 0 <= fst (sample g) < M.
Proof.
  intros Hx. rewrite sample_value.
  pose proof (raw_step_bounds _ Hx) as Hb.
  destruct (Z.ltb_spec (raw_step (_xn g)) 0); lia.
Qed.

(** C7 (as amended).  On every state that fits 32 bits -- in particular
    on every Park-Miller state [0 <= x < M] -- [sample] returns
    [(A*(x mod Q) - R*(x div Q)) mod M], whether [mod]/[div] are read as
    flooring or truncating, stores it as the new state, keeps the seed,
    and the result is again a state in [0, M).  From seed 1 the first
    five outputs are 16807, 282475249, 1622650073, 984943658,
    1144108930. *)
Theorem sample_park_miller_in_range :
  (forall g : RandomGen,
      - 2 ^ 31 <= _xn g < 2 ^ 31 ->
      fst (sample g) = park_miller (_xn g) /\
      fst (sample g) = park_miller_trunc (_xn g) /\
      snd (sample g) = {| _seed := _seed g; _xn := park_miller (_xn g) |} /\
      0 <= fst (sample g) < M) /\
  fst (samples 5 (RandomGen_new 1)) =
    [16807; 282475249; 1622650073; 984943658; 1144108930].
Proof.
  split; [ | reflexivity ].
  intros g Hx.
  assert (fst (sample g) = park_miller_trunc (_xn g)) as Ht.
  { apply sample_is_mod_iff. pose proof (raw_step_bounds _ Hx). lia. }
  assert (fst (sample g) = park_miller (_xn g)) as Hf.
  { rewrite Ht. unfold park_miller, park_miller_trunc.
    symmetry. apply raw_step_floor. }
  repeat split; try assumption; try (apply sample_in_range; assumption).
  rewrite <- Hf. reflexivity.
Qed.

Lemma sample_park_miller_in_range_witness :
  fst (sample (RandomGen_new 1)) = park_miller 1 /\
  fst (sample (RandomGen_new 16807)) = 282475249.
Proof.
  split.
  - apply (proj1 sample_park_miller_in_range (RandomGen_new 1)).
    simpl. lia.
  - rewrite (proj1 (proj1 sample_park_miller_in_range (RandomGen_new 16807)
                      ltac:(simpl; lia))).
    reflexivity.
Defined.

(** C7 as stated fails outside that range: [RandNum] is a [long], the
    constructor stores any seed unreduced, and on the state 10^12 the
    single conditional [+ M] does not bring the raw step back into
    [0, M): [sample] returns a negative number, which no [mod M] does. *)
Lemma sample_large_state_not_park_miller :
  is_long 1000000000000 /\
  fst (sample (RandomGen_new 1000000000000)) = -18770240566 /\
  park_miller 1000000000000 = 557112257 /\
  fst (sample (RandomGen_new 1000000000000)) <> park_miller 1000000000000 /\
  fst (sample (RandomGen_new 1000000000000))
    <> park_miller_trunc 1000000000000.
Proof.
  unfold is_long. repeat split; try (vm_compute; congruence).
Qed.
End RandomGenFacts.

(** ** Deterministic variables *)

Section DetVarFacts.
Import Rand.
Context {double : Type}.
Implicit Types (a : list double) (v : @DetVar double).

Lemma at_index_in_range a (i : Z) :
  0 <= i < Z.of_nat (length a) ->
  exists x, a !! Z.to_nat i = Some x /\ at_index a i = Value x.
Proof.
  intros Hi. unfold at_index.
  destruct (Z.leb_spec 0 i); [ | lia ].
  destruct (Z.ltb_spec i (Z.of_nat (length a))); [ | lia ]. simpl.
  destruct (a !! Z.to_nat i) as [x | ] eqn:Hx; [ eauto | ].
  apply lookup_ge_None in Hx. lia.
Qed.

(** One call: it reads the element at the effective index and leaves the
    effective index advanced by one, cyclically. *)
Lemma get_step v (m : Z) :
  1 <= size v <= UINT_MOD ->
  0 <= _count v ->
  eff v = m mod size v ->
  (exists x, _array v !! Z.to_nat (m mod size v) = Some x /\
             fst (get v) = Value x) /\
  _array (snd (get v)) = _array v /\
  0 <= _count (snd (get v)) /\
  eff (snd (get v)) = (m + 1) mod size v.
Proof.
  intros Hn Hc He.
  pose proof (Z.mod_pos_bound m (size v) ltac:(lia)) as Hm.
  assert (0 <= eff v < size v) as Hev by lia.
  split; [ | split; [ reflexivity | ] ].
  - unfold get. cbn [fst]. fold (eff v). rewrite He.
    apply at_index_in_range. unfold size in *. lia.
  - unfold get. cbn [snd]. fold (eff v).
    assert (size {| _array := _array v; _count := (eff v + 1) mod UINT_MOD |}
            = size v) as Hsz by reflexivity.
    unfold eff at 2. rewrite Hsz. cbn [_count].
    pose proof (Z.mod_pos_bound (eff v + 1) UINT_MOD
                  ltac:(unfold UINT_MOD; lia)) as Hw.
    split; [ lia | ].
    rewrite <- (Zplus_mod_idemp_l m 1 (size v)), <- He.
    destruct (Z.eq_dec (eff v + 1) (size v)) as [Hlast | Hmid].
    + rewrite Hlast, Z_mod_same_full.
      destruct (Z.eq_dec (size v) UINT_MOD) as [Hfull | Hsmall].
      * rewrite Hfull, Z_mod_same_full.
        destruct (Z.leb_spec UINT_MOD 0); reflexivity.
      * rewrite Z.mod_small by lia.
        destruct (Z.leb_spec (size v) (size v)); [ reflexivity | lia ].
    + rewrite (Z.mod_small (eff v + 1) UINT_MOD) by lia.
      rewrite (Z.mod_small (eff v + 1) (size v)) by lia.
      destruct (Z.leb_spec (size v) (eff v + 1)); [ lia | reflexivity ].
Qed.

Lemma kth_get_from v (m : Z) (k : nat) :
  1 <= size v <= UINT_MOD ->
  0 <= _count v ->
  eff v = m mod size v ->
  exists x,
    _array v !! Z.to_nat ((m + Z.of_nat k) mod size v) = Some x /\
    kth_get (S k) v = Value x.
Proof.
  revert v m. induction k as [ | k IH]; intros v m Hn Hc He.
  - destruct (get_step v m Hn Hc He) as [(x & Hx & Hg) _].
    exists x. rewrite Z.add_0_r. split; [ exact Hx | exact Hg ].
  - destruct (get_step v m Hn Hc He) as (_ & Harr & Hc' & He').
    assert (size (snd (get v)) = size v) as Hsz
      by (unfold size; rewrite Harr; reflexivity).
    destruct (IH (snd (get v)) (m + 1)) as (x & Hx & Hg).
    + rewrite Hsz. exact Hn.
    + exact Hc'.
    + rewrite Hsz. exact He'.
    + exists x. rewrite Hsz, Harr in Hx.
      replace (m + Z.of_nat (S k)) with (m + 1 + Z.of_nat k) by lia.
      split; [ exact Hx | ].
      change (kth_get (S (S k)) v) with (kth_get (S k) (snd (get v))).
      exact Hg.
Qed.

Lemma get_empty (c : Z) :
  0 <= c ->
  fst (get {| _array := @nil double; _count := c |}) = OutOfBounds 0.
Proof.
  intros Hc. unfold get, size. cbn [fst _array _count length].
  change (Z.of_nat 0) with 0.
  destruct (Z.leb_spec 0 c); [ reflexivity | lia ].
Qed.

Lemma kth_get_empty (k : nat) (c : Z) :
  0 <= c ->
  kth_get (S k) {| _array := @nil double; _count := c |} = OutOfBounds 0.
Proof.
  revert c. induction k as [ | k IH]; intros c Hc.
  - apply get_empty. exact Hc.
  - change (kth_get (S (S k)) ?v) with (kth_get (S k) (snd (get v))).
    unfold get at 1. cbn [snd _array].
    apply IH. apply Z.mod_pos_bound. unfold UINT_MOD. lia.
Qed.

(** Over a sequence longer than [2^32] the wrap test never fires: the
    counter itself wraps, and [get] goes back to element 0 after element
    [2^32 - 1]. *)
Lemma kth_get_long v (k : nat) :
  UINT_MOD < size v ->
  0 <= _count v < UINT_MOD ->
  exists x,
    _array v !! Z.to_nat ((_count v + Z.of_nat k) mod UINT_MOD) = Some x /\
    kth_get (S k) v = Value x.
Proof.
  revert v. induction k as [ | k IH]; intros v Hn Hc.
  - rewrite Z.add_0_r, Z.mod_small by exact Hc.
    cbn [kth_get]. unfold get. cbn [fst].
    destruct (Z.leb_spec (size v) (_count v)); [ lia | ].
    apply at_index_in_range. unfold size in *. lia.
  - change (kth_get (S (S k)) v) with (kth_get (S k) (snd (get v))).
    assert (snd (get v)
            = {| _array := _array v;
                 _count := (_count v + 1) mod UINT_MOD |}) as Hnext.
    { unfold get. cbn [snd].
      destruct (Z.leb_spec (size v) (_count v)); [ lia | reflexivity ]. }
    destruct (IH (snd (get v))) as (x & Hx & Hg).
    + rewrite Hnext. exact Hn.
    + rewrite Hnext. cbn [_count]. apply Z.mod_pos_bound. lia.
    + exists x. split; [ | exact Hg ].
      rewrite Hnext in Hx. cbn [_array _count] in Hx.
      rewrite Zplus_mod_idemp_l in Hx.
      replace (_count v + Z.of_nat (S k)) with (_count v + 1 + Z.of_nat k)
        by lia.
      exact Hx.
Qed.

(** C10.  A [DetVar] built over a sequence of length [n >= 1] (that the
    32-bit counter can index) replays it cyclically: the [k]-th call of
    [get] returns element [(k-1) mod n] and is never out of bounds.  On
    the empty sequence the wrap test only resets the counter, and every
    call reads [_array[0]] out of bounds. *)
Theorem DetVar_get_cyclic_replay :
  (forall a (k : nat),
      (1 <= length a)%nat -> Z.of_nat (length a) <= UINT_MOD -> (1 <= k)%nat ->
      exists x, a !! ((k - 1) mod length a)%nat = Some x /\
                kth_get k (DetVar_new a) = Value x) /\
  (forall k : nat,
      (1 <= k)%nat -> kth_get k (DetVar_new (@nil double)) = OutOfBounds 0).
Proof.
  split.
  - intros a k Hn Hmax Hk.
    destruct k as [ | k]; [ lia | ].
    destruct (kth_get_from (DetVar_new a) 0 k) as (x & Hx & Hg).
    + unfold size. cbn. lia.
    + cbn. lia.
    + unfold eff, size. cbn.
      destruct (Z.leb_spec (Z.of_nat (length a)) 0); [ lia | ].
      rewrite Z.mod_0_l; lia.
    + exists x. split; [ | exact Hg ].
      unfold size in Hx. cbn [_array DetVar_new] in Hx.
      rewrite Z.add_0_l, <- Nat2Z.inj_mod, Nat2Z.id in Hx.
      replace (S k - 1)%nat with k by lia. exact Hx.
  - intros k Hk. destruct k as [ | k]; [ lia | ].
    apply kth_get_empty. lia.
Qed.

End DetVarFacts.

Lemma DetVar_get_cyclic_replay_witness :
  Rand.kth_get 5 (Rand.DetVar_new [10; 20; 30]) = Rand.Value 20.
Proof.
  destruct (proj1 (@DetVar_get_cyclic_replay Z) [10; 20; 30] 5%nat)
    as (w & Hw & Hg).
  - simpl. lia.
  - simpl. unfold Rand.UINT_MOD. lia.
  - lia.
  - rewrite Hg. simpl in Hw. congruence.
Defined.

Section DetVarCounterWrap.
Import Rand Scenarios.

Lemma long_replay_restarts (N : nat) :
  Z.of_nat N = UINT_MOD ->
  length (replicate N 0 ++ [1]) = S N /\
  (replicate N 0 ++ [1]) !! ((S N - 1) mod S N)%nat = Some 1 /\
  kth_get (S N) (DetVar_new (replicate N 0 ++ [1])) = Value 0.
Proof.
  intros HN.
  assert (length (replicate N 0 ++ [1]) = S N) as Hlen.
  { rewrite length_app, length_replicate. cbn [length]. lia. }
  split; [ exact Hlen | ]. split.
  - replace (S N - 1)%nat with N by lia.
    rewrite Nat.mod_small by lia.
    rewrite lookup_app_r by (rewrite length_replicate; lia).
    rewrite length_replicate, Nat.sub_diag. reflexivity.
  - destruct (kth_get_long (DetVar_new (replicate N 0 ++ [1])) N)
      as (x & Hx & Hg).
    + unfold size. cbn [_array DetVar_new]. rewrite Hlen. lia.
    + cbn [_count DetVar_new]. unfold UINT_MOD. lia.
    + rewrite Hg. f_equal.
      cbn [_array _count DetVar_new] in Hx.
      rewrite Z.add_0_l, HN, Z_mod_same_full in Hx.
      change (Z.to_nat 0) with 0%nat in Hx.
      destruct N as [ | N']; [ cbn in HN; unfold UINT_MOD in HN; lia | ].
      cbn in Hx. congruence.
Qed.

(** C10 as stated fails on a sequence longer than [2^32]: [_count] is an
    [unsigned int], the wrap test compares it with a size it never
    reaches, and the counter wraps on its own.  On [2^32] zeros followed
    by a one, call number [2^32 + 1] should return element
    [2^32 mod (2^32 + 1)], the one; [get] returns element 0. *)
Lemma DetVar_get_long_sequence_restarts :
  (1 <= length long_sequence)%nat /\
  Z.of_nat (length long_sequence) = UINT_MOD + 1 /\
  long_sequence !! ((call_after_wrap - 1) mod length long_sequence)%nat
  = Some 1 /\
  kth_get call_after_wrap (DetVar_new long_sequence) = Value 0.
Proof.
  assert (Z.of_nat (Z.to_nat UINT_MOD) = UINT_MOD) as HN
    by (apply Z2Nat.id; unfold UINT_MOD; lia).
  destruct (long_replay_restarts (Z.to_nat UINT_MOD) HN)
    as (Hlen & Hclaim & Hget).
  unfold long_sequence, call_after_wrap.
  rewrite Hlen. split; [ lia | ]. split; [ lia | ].
  split; [ exact Hclaim | exact Hget ].
Qed.
End DetVarCounterWrap.

(** ** The event engine *)

Section EngineFacts.
Import Rand MetaSim SimSpec.
Local Open Scope sim_scope.

Implicit Types (q : EventSys) (s : Simulation) (e : EventId) (ev : Event).

Lemma same_frozen_refl q : same_frozen q q.
Proof. intros x. reflexivity. Qed.

Lemma same_frozen_trans q1 q2 q3 :
  same_frozen q1 q2 -> same_frozen q2 q3 -> same_frozen q1 q3.
Proof. intros H12 H23 x. rewrite H23. apply H12. Qed.

Lemma same_frozen_store q e ev ev' :
  heap q !! e = Some ev -> frozen ev' = frozen ev ->
  same_frozen q (set_heap (<[e := ev']> (heap q)) q).
Proof.
  intros He Hf x. cbn [heap set_heap].
  destruct (decide (e = x)) as [<- | Hne].
  - rewrite lookup_insert_eq, He. cbn. congruence.
  - rewrite lookup_insert_ne by assumption. reflexivity.
Qed.

Lemma same_frozen_live q q' e ev :
  same_frozen q q' -> heap q !! e = Some ev ->
  exists ev', heap q' !! e = Some ev' /\ frozen ev' = frozen ev.
Proof.
  intros H He. specialize (H e). rewrite He in H.
  destruct (heap q' !! e) as [ev' | ]; [ | discriminate ].
  exists ev'. split; [ reflexivity | ]. cbn in H. congruence.
Qed.

(** Each member of [Event] a handler can call leaves the frozen part. *)
Lemma post_frozen e t disp now q r q' :
  post e t disp now q = (r, q') -> same_frozen q q'.
Proof.
  unfold post, bind, deref, throw, gets, modify, store.
  destruct (heap q !! e) as [ev | ] eqn:He.
  - destruct (t <? now); [ intros [= <- <-]; apply same_frozen_refl | ].
    destruct (_isInQueue ev); [ intros [= <- <-]; apply same_frozen_refl | ].
    intros [= <- <-]. intros x. cbn [heap set_heap set_eventQueue set_counter].
    destruct (decide (e = x)) as [<- | Hne].
    + rewrite lookup_insert_eq, He. reflexivity.
    + rewrite lookup_insert_ne by assumption. reflexivity.
  - intros [= <- <-]; apply same_frozen_refl.
Qed.

Lemma drop_frozen e q r q' : drop e q = (r, q') -> same_frozen q q'.
Proof.
  unfold drop, bind, deref, modify, store.
  destruct (heap q !! e) as [ev | ] eqn:He.
  - intros [= <- <-]. intros x. cbn [heap set_heap set_eventQueue].
    destruct (decide (e = x)) as [<- | Hne].
    + rewrite lookup_insert_eq, He. reflexivity.
    + rewrite lookup_insert_ne by assumption. reflexivity.
  - intros [= <- <-]; apply same_frozen_refl.
Qed.

Lemma setPriority_frozen e p q r q' :
  setPriority e p q = (r, q') -> same_frozen q q'.
Proof.
  unfold setPriority, bind, deref, modify, store.
  destruct (heap q !! e) as [ev | ] eqn:He.
  - intros [= <- <-]. eapply same_frozen_store; eauto.
  - intros [= <- <-]; apply same_frozen_refl.
Qed.

Lemma restorePriority_frozen e q r q' :
  restorePriority e q = (r, q') -> same_frozen q q'.
Proof.
  unfold restorePriority, bind, deref, modify, store.
  destruct (heap q !! e) as [ev | ] eqn:He.
  - intros [= <- <-]. eapply same_frozen_store; eauto.
  - intros [= <- <-]; apply same_frozen_refl.
Qed.

Lemma process_frozen e disp now q r q' :
  process e disp now q = (r, q') -> same_frozen q q'.
Proof.
  unfold process, bind.
  destruct (setPriority e _ q) as [[x | []] q1] eqn:H1.
  - intros [= <- <-]. eapply setPriority_frozen; eauto.
  - destruct (post e now disp now q1) as [[x | []] q2] eqn:H2.
    + intros [= <- <-].
      eapply same_frozen_trans;
        [ eapply setPriority_frozen | eapply post_frozen ]; eauto.
    + intros H3.
      eapply same_frozen_trans; [ eapply setPriority_frozen; eauto | ].
      eapply same_frozen_trans;
        [ eapply post_frozen | eapply restorePriority_frozen ]; eauto.
Qed.

Lemma draw_frozen q r q' : draw q = (r, q') -> same_frozen q q'.
Proof.
  unfold draw. destruct (sample (_stdgen q)) as [v g].
  intros [= <- <-]. intros x. reflexivity.
Qed.

Lemma run_handler_frozen (h : Handler) now q r q' :
  run_handler h now q = (r, q') -> same_frozen q q'.
Proof.
  revert q r q'.
  induction h as [ | e t disp k IH | e k IH | e disp k IH | e p k IH
                 | e k IH | k IH | k IH ]; intros q r q'; cbn [run_handler].
  - intros [= <- <-]. apply same_frozen_refl.
  - unfold bind. destruct (post e t disp now q) as [[x | []] q1] eqn:H1.
    + intros [= <- <-]. eapply post_frozen; eauto.
    + intros H2. eapply same_frozen_trans;
        [ eapply post_frozen | eapply IH ]; eauto.
  - unfold bind. destruct (drop e q) as [[x | []] q1] eqn:H1.
    + intros [= <- <-]. eapply drop_frozen; eauto.
    + intros H2. eapply same_frozen_trans;
        [ eapply drop_frozen | eapply IH ]; eauto.
  - unfold bind. destruct (process e disp now q) as [[x | []] q1] eqn:H1.
    + intros [= <- <-]. eapply process_frozen; eauto.
    + intros H2. eapply same_frozen_trans;
        [ eapply process_frozen | eapply IH ]; eauto.
  - unfold bind. destruct (setPriority e p q) as [[x | []] q1] eqn:H1.
    + intros [= <- <-]. eapply setPriority_frozen; eauto.
    + intros H2. eapply same_frozen_trans;
        [ eapply setPriority_frozen | eapply IH ]; eauto.
  - unfold bind. destruct (restorePriority e q) as [[x | []] q1] eqn:H1.
    + intros [= <- <-]. eapply restorePriority_frozen; eauto.
    + intros H2. eapply same_frozen_trans;
        [ eapply restorePriority_frozen | eapply IH ]; eauto.
  - apply IH.
  - unfold bind. destruct (draw q) as [[x | v] q1] eqn:H1.
    + intros [= <- <-]. eapply draw_frozen; eauto.
    + intros H2. eapply same_frozen_trans;
        [ eapply draw_frozen | eapply IH ]; eauto.
Qed.

(** *** [action] and the probes *)

Lemma probe_emits e ev (p : ProbeId) s :
  heap (evs s) !! e = Some ev ->
  probe e p s =
    (inr tt, set_out (out s ++ [ObsProbe p e (_time ev) (_lastTime ev)]) s).
Proof.
  intros He. unfold probe, bind, liftE, deref, emit, modify.
  rewrite He. destruct s; reflexivity.
Qed.

Lemma for_each_probe e ev (l : list ProbeId) s :
  heap (evs s) !! e = Some ev ->
  for_each (probe e) l s =
    (inr tt,
     set_out (out s ++ map (fun p => ObsProbe p e (_time ev) (_lastTime ev)) l)
             s).
Proof.
  revert s. induction l as [ | p l IH]; intros s He.
  - cbn. rewrite app_nil_r. destruct s; reflexivity.
  - cbn [for_each map]. unfold bind. rewrite (probe_emits e ev p s He).
    rewrite IH by exact He. cbn [out set_out].
    rewrite <- app_assoc. destruct s; reflexivity.
Qed.

(** What [action] does, step by step, when the handler returns. *)
Lemma action_ok e ev s s' :
  heap (evs s) !! e = Some ev ->
  action e s = (inr tt, s') ->
  exists q2 ev',
    run_handler (doit ev) (globTime s)
      (set_heap (<[e := set_isInQueue false (set_lastTime (_time ev) ev)]>
                   (heap (evs s))) (evs s)) = (inr tt, q2) /\
    heap q2 !! e = Some ev' /\
    frozen ev' = frozen (set_lastTime (_time ev) ev) /\
    s' = set_out (out s ++ map (fun p => ObsProbe p e (_time ev') (_time ev))
                               (probes_of ev))
                 (set_evs q2 s).
Proof.
  intros He. unfold action, bind at 1, liftE at 1, deref. rewrite He.
  unfold bind at 1, liftE at 1, store, modify.
  unfold bind at 1, liftE at 1. cbn [globTime evs set_evs].
  set (ev1 := set_isInQueue false (set_lastTime (_time ev) ev)).
  set (q1 := set_heap (<[e := ev1]> (heap (evs s))) (evs s)).
  destruct (run_handler (doit ev) (globTime s) q1) as [[x | []] q2] eqn:Hh;
    [ discriminate | ].
  assert (heap q1 !! e = Some ev1) as He1
    by (unfold q1; cbn; apply lookup_insert_eq).
  destruct (same_frozen_live _ _ _ _ (run_handler_frozen _ _ _ _ _ Hh) He1)
    as (ev' & He' & Hfr).
  unfold bind at 1, liftE at 1. cbn [globTime evs set_evs]. rewrite He'.
  assert (_stats ev' = _stats ev /\ _particles ev' = _particles ev /\
          _traces ev' = _traces ev /\ _lastTime ev' = _time ev)
    as (Hs & Hp & Ht & Hl).
  { unfold frozen in Hfr. cbn in Hfr. injection Hfr as -> -> -> -> _ _.
    repeat split. }
  unfold bind.
  rewrite (for_each_probe e ev') by (cbn; exact He').
  rewrite (for_each_probe e ev') by (cbn; exact He').
  rewrite (for_each_probe e ev') by (cbn; exact He').
  intros [= <-]. exists q2, ev'. repeat split; try assumption.
  cbn [out set_out set_evs evs globTime numRuns actRuns end_ registry].
  unfold probes_of. rewrite Hs, Hp, Ht, Hl, !map_app, <- !app_assoc.
  reflexivity.
Qed.

(** A handler that only re-posts its own event, to a time that is not in
    the past, returns normally. *)
Lemma post_ok e ev t disp now q :
  heap q !! e = Some ev -> now <= t -> _isInQueue ev = false ->
  post e t disp now q =
    (inr tt,
     let ev' := set_isInQueue true
                  (set_disposable disp
                     (set_time t (set_order (counter q + 1) ev))) in
     let h' := <[e := ev']> (heap q) in
     mkEventSys h' (plist_insert (Cmp_ptr h') e (_eventQueue q))
                (counter q + 1) (_stdgen q) (drawn q)).
Proof.
  intros He Ht Hq. unfold post, bind, deref, throw, gets, modify, store.
  rewrite He. destruct (Z.ltb_spec t now); [ lia | ].
  rewrite Hq. reflexivity.
Qed.
End EngineFacts.

(** ** The order of the event queue *)

Section QueueOrder.
Import Rand MetaSim SimSpec.
Local Open Scope sim_scope.

Implicit Types (q : EventSys) (e a b : EventId) (ev : Event)
         (h : gmap EventId Event) (l : list EventId).

Lemma Cmp_key_lt (x y : Event) : Cmp x y = true <-> key_lt x y.
Proof.
  unfold Cmp, key_lt.
  destruct (Z.ltb_spec (_time x) (_time y));
    destruct (Z.eqb_spec (_time x) (_time y));
    destruct (Z.ltb_spec (_priority x) (_priority y));
    destruct (Z.eqb_spec (_priority x) (_priority y));
    destruct (Z.ltb_spec (_order x) (_order y));
    split; intros Hx; try discriminate Hx; try reflexivity; lia.
Qed.

Lemma Cmp_irrefl (x : Event) : Cmp x x = false.
Proof.
  destruct (Cmp x x) eqn:H; [ | reflexivity ].
  apply Cmp_key_lt in H. unfold key_lt in H. lia.
Qed.

Lemma Cmp_trans (x y z : Event) :
  Cmp x y = true -> Cmp y z = true -> Cmp x z = true.
Proof. rewrite !Cmp_key_lt. unfold key_lt. lia. Qed.

Lemma Cmp_asym (x y : Event) : Cmp x y = true -> Cmp y x = false.
Proof.
  intros H. destruct (Cmp y x) eqn:H'; [ | reflexivity ].
  pose proof (Cmp_trans _ _ _ H H') as Hxx. rewrite Cmp_irrefl in Hxx.
  discriminate.
Qed.

Lemma Cmp_total (x y : Event) :
  _order x <> _order y -> Cmp x y = true \/ Cmp y x = true.
Proof. rewrite !Cmp_key_lt. unfold key_lt. lia. Qed.

Lemma Cmp_ptr_trans h a b c :
  Cmp_ptr h a b = true -> Cmp_ptr h b c = true -> Cmp_ptr h a c = true.
Proof.
  unfold Cmp_ptr.
  destruct (h !! a), (h !! b), (h !! c); try discriminate.
  apply Cmp_trans.
Qed.

Lemma Cmp_ptr_irrefl h a : Cmp_ptr h a a = false.
Proof. unfold Cmp_ptr. destruct (h !! a); [ apply Cmp_irrefl | reflexivity ]. Qed.

(** *** Sorted insertion and erasure *)

Lemma elem_of_plist_insert (R : EventId -> EventId -> bool) e l x :
  x ∈ plist_insert R e l <-> x = e \/ x ∈ l.
Proof.
  induction l as [ | y l IH]; cbn [plist_insert].
  - set_solver.
  - destruct (R e y).
    + rewrite !elem_of_cons. tauto.
    + rewrite !elem_of_cons, IH. tauto.
Qed.

Section Plist.
Variable R : EventId -> EventId -> bool.
Hypothesis R_trans :
  forall a b c, R a b = true -> R b c = true -> R a c = true.

Lemma plist_insert_sorted e l :
  (forall x, x ∈ l -> R e x = false -> R x e = true) ->
  StronglySorted (fun a b => R a b = true) l ->
  StronglySorted (fun a b => R a b = true) (plist_insert R e l).
Proof.
  intros Htot Hs. induction Hs as [ | y l Hs IH Hall]; cbn [plist_insert].
  - repeat constructor.
  - destruct (R e y) eqn:Hey.
    + constructor; [ constructor; assumption | ].
      constructor; [ exact Hey | ].
      rewrite Forall_forall in Hall |- *. intros z Hz.
      eapply R_trans; [ exact Hey | apply Hall; exact Hz ].
    + constructor.
      * apply IH. intros x Hx. apply Htot. right. exact Hx.
      * rewrite Forall_forall in Hall |- *. intros z Hz.
        apply elem_of_plist_insert in Hz as [-> | Hz].
        -- apply Htot; [ left | exact Hey ].
        -- apply Hall. exact Hz.
Qed.

End Plist.

Lemma StronglySorted_impl_in (R R' : EventId -> EventId -> Prop) l :
  (forall a b, a ∈ l -> b ∈ l -> R a b -> R' a b) ->
  StronglySorted R l -> StronglySorted R' l.
Proof.
  intros Himp Hs. induction Hs as [ | y l Hs IH Hall].
  - constructor.
  - constructor.
    + apply IH. intros a b Ha Hb. apply Himp; right; assumption.
    + rewrite Forall_forall in Hall |- *. intros z Hz.
      apply Himp; [ left | right; exact Hz | apply Hall; exact Hz ].
Qed.

Lemma StronglySorted_erase (R : EventId -> EventId -> Prop) e l :
  StronglySorted R l -> StronglySorted R (plist_erase e l).
Proof.
  intros Hs. unfold plist_erase.
  induction Hs as [ | y l Hs IH Hall]; [ constructor | ].
  rewrite filter_cons. destruct (decide (y <> e)); [ | exact IH ].
  constructor; [ exact IH | ].
  rewrite Forall_forall in Hall |- *. intros z Hz.
  apply list_elem_of_filter in Hz as [_ Hz]. apply Hall. exact Hz.
Qed.

Lemma elem_of_plist_erase e l x : x ∈ plist_erase e l <-> x <> e /\ x ∈ l.
Proof. unfold plist_erase. rewrite list_elem_of_filter. tauto. Qed.

(** In a sorted list, comparing less means sitting in front. *)
Lemma sorted_before (R : EventId -> EventId -> bool) l a b :
  (forall x, R x x = false) ->
  (forall x y, R x y = true -> R y x = false) ->
  StronglySorted (fun x y => R x y = true) l ->
  a ∈ l -> b ∈ l -> R a b = true -> before a b l.
Proof.
  intros Hirr Hasym Hs. induction Hs as [ | y l Hs IH Hall]; intros Ha Hb Hab.
  - inversion Ha.
  - rewrite Forall_forall in Hall.
    apply elem_of_cons in Ha as [-> | Ha];
      apply elem_of_cons in Hb as [-> | Hb].
    + rewrite Hirr in Hab. discriminate.
    + apply list_elem_of_split in Hb as (l2 & l3 & ->).
      exists [], l2, l3. reflexivity.
    + specialize (Hall _ Ha). apply Hasym in Hall. congruence.
    + destruct (IH Ha Hb Hab) as (l1 & l2 & l3 & ->).
      exists (y :: l1), l2, l3. reflexivity.
Qed.

Lemma sorted_NoDup (R : EventId -> EventId -> bool) l :
  (forall x, R x x = false) ->
  StronglySorted (fun x y => R x y = true) l -> NoDup l.
Proof.
  intros Hirr Hs. induction Hs as [ | y l Hs IH Hall]; constructor.
  - intros Hy. rewrite Forall_forall in Hall. specialize (Hall _ Hy).
    rewrite Hirr in Hall. discriminate.
  - exact IH.
Qed.

(** *** [post] and [drop], inverted *)

Lemma post_inv e t disp now q q' :
  post e t disp now q = (inr tt, q') ->
  exists ev,
    heap q !! e = Some ev /\ now <= t /\ _isInQueue ev = false /\
    q' = (let ev' := set_isInQueue true
                       (set_disposable disp
                          (set_time t (set_order (counter q + 1) ev))) in
          let h' := <[e := ev']> (heap q) in
          mkEventSys h' (plist_insert (Cmp_ptr h') e (_eventQueue q))
                     (counter q + 1) (_stdgen q) (drawn q)).
Proof.
  unfold post, bind, deref, throw, gets, modify, store.
  destruct (heap q !! e) as [ev | ] eqn:He; [ | discriminate ].
  destruct (Z.ltb_spec t now); [ discriminate | ].
  destruct (_isInQueue ev) eqn:Hq; [ discriminate | ].
  intros [= <-]. exists ev. repeat split; assumption.
Qed.

Lemma drop_inv e q r q' :
  drop e q = (r, q') ->
  (heap q !! e = None /\ r = inl (BadPointer e) /\ q' = q) \/
  (exists ev,
      heap q !! e = Some ev /\ r = inr tt /\
      q' = mkEventSys (<[e := set_isInQueue false ev]> (heap q))
                      (plist_erase e (_eventQueue q))
                      (counter q) (_stdgen q) (drawn q)).
Proof.
  unfold drop, bind, deref, modify, store.
  destruct (heap q !! e) as [ev | ] eqn:He.
  - intros [= <- <-]. right. exists ev. repeat split.
  - intros [= <- <-]. left. repeat split.
Qed.

Lemma wf_not_queued q e ev :
  wf q -> heap q !! e = Some ev -> _isInQueue ev = false ->
  e ∉ _eventQueue q.
Proof.
  intros Hwf He Hq Hin.
  destruct (wf_queued q Hwf e Hin) as (ev' & He' & Hq' & _). congruence.
Qed.

Lemma post_wf e t disp now q q' :
  wf q -> post e t disp now q = (inr tt, q') -> wf q'.
Proof.
  intros Hwf Hp. apply post_inv in Hp as (ev & He & Ht & Hq & ->).
  cbv zeta.
  set (ev' := set_isInQueue true (set_disposable disp
                (set_time t (set_order (counter q + 1) ev)))).
  set (h' := <[e := ev']> (heap q)).
  pose proof (wf_not_queued q e ev Hwf He Hq) as Hnin.
  assert (forall x, x ∈ _eventQueue q -> h' !! x = heap q !! x) as Hsame.
  { intros x Hx. unfold h'. apply lookup_insert_ne. intros ->. tauto. }
  assert (h' !! e = Some ev') as He' by apply lookup_insert_eq.
  constructor; cbn [heap _eventQueue counter].
  - unfold queue_sorted. cbn [heap _eventQueue].
    apply plist_insert_sorted.
    + apply Cmp_ptr_trans.
    + intros x Hx. unfold Cmp_ptr. rewrite He', (Hsame x Hx).
      destruct (wf_queued q Hwf x Hx) as (evx & -> & _ & Hox).
      intros Hc. destruct (Cmp_total ev' evx) as [H | H];
        [ cbn; lia | congruence | exact H ].
    + eapply StronglySorted_impl_in; [ | exact (wf_sorted q Hwf) ].
      intros a b Ha Hb. cbn beta. unfold Cmp_ptr.
      rewrite (Hsame a Ha), (Hsame b Hb). tauto.
  - intros x Hx. apply elem_of_plist_insert in Hx as [-> | Hx].
    + exists ev'. repeat split; [ exact He' | cbn; lia ].
    + destruct (wf_queued q Hwf x Hx) as (evx & Hl & Hf & Ho).
      exists evx. rewrite (Hsame x Hx). repeat split; try assumption. lia.
  - intros x evx Hx Hf. apply elem_of_plist_insert.
    destruct (decide (x = e)) as [-> | Hne]; [ left; reflexivity | right ].
    unfold h' in Hx. rewrite lookup_insert_ne in Hx by congruence.
    eapply wf_flag; eauto.
Qed.

Lemma drop_wf e q q' : wf q -> drop e q = (inr tt, q') -> wf q'.
Proof.
  intros Hwf Hd.
  apply drop_inv in Hd as [(_ & [=] & _) | (ev & He & _ & ->)].
  set (h' := <[e := set_isInQueue false ev]> (heap q)).
  assert (forall a b, Cmp_ptr h' a b = Cmp_ptr (heap q) a b) as Hcmp.
  { intros a b. unfold Cmp_ptr, h'.
    destruct (decide (a = e)) as [-> | Ha];
      destruct (decide (b = e)) as [-> | Hb];
      rewrite ?lookup_insert_eq, ?lookup_insert_ne, ?He by congruence;
      reflexivity. }
  constructor; cbn [heap _eventQueue counter].
  - unfold queue_sorted. cbn [heap _eventQueue].
    apply StronglySorted_erase.
    eapply StronglySorted_impl_in; [ | exact (wf_sorted q Hwf) ].
    intros a b _ _. cbn beta. fold h'. rewrite Hcmp. tauto.
  - intros x Hx. apply elem_of_plist_erase in Hx as [Hne Hx].
    destruct (wf_queued q Hwf x Hx) as (evx & Hl & Hf & Ho).
    exists evx. unfold h'. rewrite lookup_insert_ne by congruence. tauto.
  - intros x evx Hx Hf. apply elem_of_plist_erase.
    destruct (decide (x = e)) as [-> | Hne].
    + unfold h' in Hx. rewrite lookup_insert_eq in Hx.
      injection Hx as <-. discriminate.
    + unfold h' in Hx. rewrite lookup_insert_ne in Hx by congruence.
      split; [ exact Hne | eapply wf_flag; eauto ].
Qed.

Lemma wf_empty (g : RandomGen) (h : gmap EventId Event) :
  (forall e ev, h !! e = Some ev -> _isInQueue ev = false) ->
  wf (mkEventSys h [] 0 g []).
Proof.
  intros Hh. constructor; cbn.
  - constructor.
  - intros e He. inversion He.
  - intros e ev He Hf. rewrite (Hh e ev He) in Hf. discriminate.
Qed.

(** In a consistent system, the one that compares less is in front, and
    the one behind is not the front of the queue. *)
Lemma wf_before q a b eva evb :
  wf q -> a ∈ _eventQueue q -> b ∈ _eventQueue q ->
  heap q !! a = Some eva -> heap q !! b = Some evb ->
  Cmp eva evb = true ->
  before a b (_eventQueue q) /\ getFirst q <> Some b.
Proof.
  intros Hwf Ha Hb Hla Hlb Hc.
  assert (Cmp_ptr (heap q) a b = true) as Hab
    by (unfold Cmp_ptr; rewrite Hla, Hlb; exact Hc).
  assert (forall x y, Cmp_ptr (heap q) x y = true ->
                      Cmp_ptr (heap q) y x = false) as Hasym.
  { intros x y. unfold Cmp_ptr.
    destruct (heap q !! x), (heap q !! y); try discriminate.
    apply Cmp_asym. }
  pose proof (sorted_before _ _ a b (Cmp_ptr_irrefl (heap q)) Hasym
                (wf_sorted q Hwf) Ha Hb Hab) as Hbef.
  split; [ exact Hbef | ].
  destruct Hbef as (l1 & l2 & l3 & Hl).
  pose proof (sorted_NoDup _ _ (Cmp_ptr_irrefl (heap q)) (wf_sorted q Hwf))
    as Hnd.
  unfold getFirst. rewrite Hl in *. destruct l1 as [ | x l1]; cbn.
  - intros [= ->]. rewrite Cmp_ptr_irrefl in Hab. discriminate.
  - intros [= ->]. cbn in Hnd. apply NoDup_cons in Hnd as [Hnin _].
    apply Hnin. set_solver.
Qed.
End QueueOrder.

(** ** One simulation step *)

Section SimStep.
Import Rand MetaSim SimSpec.
Local Open Scope sim_scope.

Implicit Types (q : EventSys) (s : Simulation) (e temp : EventId)
         (ev : Event).

Lemma drop_ok e ev q :
  heap q !! e = Some ev -> drop e q = (inr tt, dropped e ev q).
Proof.
  intros He. unfold drop, bind, deref, modify, store. rewrite He.
  reflexivity.
Qed.

Lemma destroy_ok e ev q :
  heap q !! e = Some ev -> destroy e q = (inr tt, destroyed e q).
Proof.
  intros He. unfold destroy, bind. rewrite (drop_ok e ev q He).
  unfold modify, dropped, destroyed, set_heap. cbn.
  rewrite delete_insert_eq. reflexivity.
Qed.

Lemma set_evs_id s : set_evs (evs s) s = s.
Proof. destruct s; reflexivity. Qed.

Lemma liftE_drop e ev s :
  heap (evs s) !! e = Some ev ->
  liftE (fun _ => drop e) s = (inr tt, set_evs (dropped e ev (evs s)) s).
Proof. intros He. unfold liftE. rewrite (drop_ok e ev _ He). reflexivity. Qed.

Lemma liftE_destroy e ev s :
  heap (evs s) !! e = Some ev ->
  liftE (fun _ => destroy e) s = (inr tt, set_evs (destroyed e (evs s)) s).
Proof.
  intros He. unfold liftE. rewrite (destroy_ok e ev _ He). reflexivity.
Qed.

Lemma liftE_getTime e ev s :
  heap (evs s) !! e = Some ev ->
  liftE (fun _ => getTime e) s = (inr (_time ev), s).
Proof.
  intros He. unfold liftE, getTime, bind, deref, ret. rewrite He.
  rewrite set_evs_id. reflexivity.
Qed.

Lemma liftE_isDisposable e ev s :
  heap (evs s) !! e = Some ev ->
  liftE (fun _ => isDisposable e) s = (inr (_disposable ev), s).
Proof.
  intros He. unfold liftE, isDisposable, bind, deref, ret. rewrite He.
  rewrite set_evs_id. reflexivity.
Qed.

Lemma liftE_bad_pointer {A} (f : EventId -> M EventSys A) e s :
  (forall q, heap q !! e = None -> f e q = (inl (BadPointer e), q)) ->
  heap (evs s) !! e = None ->
  liftE (fun _ => f e) s = (inl (BadPointer e), s).
Proof.
  intros Hf He. unfold liftE. rewrite (Hf _ He), set_evs_id. reflexivity.
Qed.

Lemma drop_bad_pointer e q :
  heap q !! e = None -> drop e q = (inl (BadPointer e), q).
Proof. intros He. unfold drop, bind, deref. rewrite He. reflexivity. Qed.

Lemma plist_erase_absent e (l : list EventId) :
  e ∉ l -> plist_erase e l = l.
Proof.
  unfold plist_erase. induction l as [ | x l IH]; intros Hnin.
  - reflexivity.
  - rewrite filter_cons. apply not_elem_of_cons in Hnin as [Hne Hnin].
    destruct (decide (x <> e)) as [ | Hn];
      [ | exfalso; apply Hn; intros ->; apply Hne; reflexivity ].
    rewrite IH by exact Hnin. reflexivity.
Qed.

Lemma plist_erase_front e (l : list EventId) :
  plist_erase e (e :: l) = plist_erase e l.
Proof.
  unfold plist_erase. rewrite filter_cons.
  destruct (decide (e <> e)); [ congruence | reflexivity ].
Qed.

(** [sim_step] up to its call of [action]. *)
Lemma sim_step_front temp rest ev s :
  _eventQueue (evs s) = temp :: rest ->
  heap (evs s) !! temp = Some ev ->
  sim_step s =
    (action temp ;;
     d <- liftE (fun _ => isDisposable temp) ;;
     (if d then liftE (fun _ => destroy temp) else ret tt) ;;
     ret (_time ev)) (at_action temp ev s).
Proof.
  intros Hq He. unfold sim_step.
  unfold bind at 1, gets, getFirst. rewrite Hq. cbn [head].
  unfold bind at 1. rewrite (liftE_drop temp ev s He).
  unfold bind at 1.
  rewrite (liftE_getTime temp (set_isInQueue false ev))
    by (cbn; apply lookup_insert_eq).
  unfold bind at 1, emit, modify. unfold bind at 1, setTime, modify.
  reflexivity.
Qed.

Lemma action_globTime e ev s s' :
  heap (evs s) !! e = Some ev -> action e s = (inr tt, s') ->
  globTime s' = globTime s.
Proof.
  intros He Ha.
  destruct (action_ok e ev s s' He Ha) as (q2 & ev' & _ & _ & _ & ->).
  reflexivity.
Qed.

(** C1.  Whatever the handler of an event does through the interface of
    [Event] -- re-posting the event itself to a later time included --
    every probe notified by [action] afterwards reads, through
    [getLastTime()], the time the event fired at: [action] freezes
    [_lastTime] before the handler runs and no [post] overwrites it.
    When the handler is exactly a re-post of the event to [t'], [action]
    returns normally, [getTime()] then reads [t'], and the probes still
    read the firing time.  In a simulation step that returns [T], the
    time the front event fires at, the output of the step is the
    execution of the event followed by its probes, each reading [T]. *)
Theorem action_probes_read_firing_time :
  (forall s s' e ev,
      heap (evs s) !! e = Some ev ->
      action e s = (inr tt, s') ->
      exists ev',
        heap (evs s') !! e = Some ev' /\
        _lastTime ev' = _time ev /\
        out s' = out s ++ map (fun p => ObsProbe p e (_time ev') (_time ev))
                              (probes_of ev)) /\
  (forall s e ev t' disp,
      heap (evs s) !! e = Some ev ->
      doit ev = Post e t' disp Done ->
      globTime s <= t' ->
      exists s' ev',
        action e s = (inr tt, s') /\
        heap (evs s') !! e = Some ev' /\
        _time ev' = t' /\
        _lastTime ev' = _time ev /\
        out s' = out s ++ map (fun p => ObsProbe p e t' (_time ev))
                              (probes_of ev)) /\
  (forall s temp rest ev T s',
      _eventQueue (evs s) = temp :: rest ->
      heap (evs s) !! temp = Some ev ->
      sim_step s = (inr T, s') ->
      T = _time ev /\
      exists t',
        out s' = out s ++ ObsExec temp T
                          :: map (fun p => ObsProbe p temp t' T)
                                 (probes_of ev)).
Proof.
  split; [ | split ].
  - intros s s' e ev He Ha.
    destruct (action_ok e ev s s' He Ha) as (q2 & ev' & _ & He' & Hfr & ->).
    exists ev'. cbn [evs out set_out set_evs]. repeat split; try assumption.
    unfold frozen in Hfr. cbn in Hfr. congruence.
  - intros s e ev t' disp He Hd Ht.
    set (ev1 := set_isInQueue false (set_lastTime (_time ev) ev)).
    set (q1 := set_heap (<[e := ev1]> (heap (evs s))) (evs s)).
    assert (heap q1 !! e = Some ev1) as He1
      by (unfold q1; cbn; apply lookup_insert_eq).
    pose proof (post_ok e ev1 t' disp (globTime s) q1 He1 Ht eq_refl) as Hp.
    cbv zeta in Hp.
    set (ev2 := set_isInQueue true
                  (set_disposable disp
                     (set_time t' (set_order (counter q1 + 1) ev1)))) in *.
    set (q2 := mkEventSys _ _ _ _ _) in Hp.
    assert (heap q2 !! e = Some ev2) as He2
      by (unfold q2; cbn; apply lookup_insert_eq).
    exists (set_out (out s ++ map (fun p => ObsProbe p e t' (_time ev))
                                  (probes_of ev)) (set_evs q2 s)), ev2.
    repeat split; try (cbn; assumption || reflexivity).
    unfold action, bind at 1, liftE at 1, deref. rewrite He.
    unfold bind at 1, liftE at 1, store, modify.
    unfold bind at 1, liftE at 1. cbn [globTime evs set_evs].
    fold ev1. fold q1. rewrite Hd. cbn [run_handler].
    unfold bind at 1. rewrite Hp. unfold ret at 1.
    unfold bind at 1, liftE at 1. cbn [globTime evs set_evs]. rewrite He2.
    unfold bind.
    rewrite !(for_each_probe e ev2) by (cbn; exact He2).
    cbn [out set_out set_evs evs globTime numRuns actRuns end_ registry].
    unfold probes_of. rewrite !map_app, <- !app_assoc. reflexivity.
  - intros s temp rest ev T s' Hq He.
    rewrite (sim_step_front temp rest ev s Hq He). unfold bind at 1.
    destruct (action temp (at_action temp ev s)) as [[x | []] s2] eqn:Ha;
      [ discriminate | ].
    assert (heap (evs (at_action temp ev s)) !! temp
            = Some (set_isInQueue false ev)) as He1
      by (cbn; apply lookup_insert_eq).
    destruct (action_ok temp _ _ s2 He1 Ha)
      as (q2 & ev2 & _ & He2 & _ & Hs2).
    assert (heap (evs s2) !! temp = Some ev2) as He2'
      by (rewrite Hs2; exact He2).
    unfold bind at 1. rewrite (liftE_isDisposable temp ev2 s2 He2').
    unfold bind at 1.
    assert (out s2 = out s ++ ObsExec temp (_time ev)
                           :: map (fun p => ObsProbe p temp (_time ev2)
                                                     (_time ev))
                                  (probes_of ev)) as Hout.
    { rewrite Hs2. cbn [out set_out set_evs at_action set_globTime].
      rewrite <- app_assoc. reflexivity. }
    destruct (_disposable ev2).
    + rewrite (liftE_destroy temp ev2 s2 He2'). intros [= <- <-].
      split; [ reflexivity | ]. exists (_time ev2). exact Hout.
    + intros [= <- <-].
      split; [ reflexivity | ]. exists (_time ev2). exact Hout.
Qed.
End SimStep.

(** ** What a computation leaves alone *)

Section Preservation.
Import Rand MetaSim SimSpec.
Local Open Scope sim_scope.

Section Combinators.
Context {S : Type} (R : S -> S -> Prop).
Hypothesis R_refl : forall s, R s s.
Hypothesis R_trans : forall s1 s2 s3, R s1 s2 -> R s2 s3 -> R s1 s3.

Lemma preserves_ret {A} (a : A) : preserves R (ret a).
Proof. intros s r s' [= <- <-]. apply R_refl. Qed.

Lemma preserves_throw {A} (x : Exc) : preserves R (@throw S A x).
Proof. intros s r s' [= <- <-]. apply R_refl. Qed.

Lemma preserves_gets {A} (f : S -> A) : preserves R (gets f).
Proof. intros s r s' [= <- <-]. apply R_refl. Qed.

Lemma preserves_modify (f : S -> S) :
  (forall s, R s (f s)) -> preserves R (modify f).
Proof. intros Hf s r s' [= <- <-]. apply Hf. Qed.

Lemma preserves_bind {A B} (m : M S A) (k : A -> M S B) :
  preserves R m -> (forall a, preserves R (k a)) -> preserves R (bind m k).
Proof.
  intros Hm Hk s r s'. unfold bind.
  destruct (m s) as [[x | a] s1] eqn:H1.
  - intros [= <- <-]. eapply Hm; eauto.
  - intros H2. eapply R_trans; [ eapply Hm | eapply Hk ]; eauto.
Qed.

Lemma preserves_for_each {A} (f : A -> M S unit) (l : list A) :
  (forall x, preserves R (f x)) -> preserves R (for_each f l).
Proof.
  intros Hf. induction l as [ | x l IH]; cbn [for_each].
  - apply preserves_ret.
  - apply preserves_bind; [ apply Hf | intros _; exact IH ].
Qed.

Lemma preserves_on_exception {A} (m : M S A) (h : M S unit) :
  preserves R m -> preserves R h -> preserves R (on_exception m h).
Proof.
  intros Hm Hh s r s'. unfold on_exception.
  destruct (m s) as [[x | a] s1] eqn:H1.
  - destruct (h s1) as [[y | []] s2] eqn:H2; intros [= <- <-];
      (eapply R_trans; [ eapply Hm | eapply Hh ]; eauto).
  - intros [= <- <-]. eapply Hm; eauto.
Qed.
End Combinators.

(** A member of [Event] is lifted to the simulation. *)
Lemma preserves_liftE {A} (Rq : EventSys -> EventSys -> Prop)
      (R : Simulation -> Simulation -> Prop) (m : Tick -> M EventSys A) :
  (forall s q', Rq (evs s) q' -> R s (set_evs q' s)) ->
  (forall now, preserves Rq (m now)) ->
  preserves R (liftE m).
Proof.
  intros Hlift Hm s r s'. unfold liftE.
  destruct (m (globTime s) (evs s)) as [r' q'] eqn:H1.
  intros [= <- <-]. apply Hlift. eapply Hm; eauto.
Qed.

(** *** Output *)

Lemma emits_refl P s : emits P s s.
Proof. exists []. rewrite app_nil_r. split; [ reflexivity | constructor ]. Qed.

Lemma emits_trans P s1 s2 s3 : emits P s1 s2 -> emits P s2 s3 -> emits P s1 s3.
Proof.
  intros (l1 & H1 & F1) (l2 & H2 & F2). exists (l1 ++ l2).
  rewrite H2, H1, app_assoc. split; [ reflexivity | ].
  apply Forall_app. split; assumption.
Qed.

Lemma emits_weaken (P P' : Obs -> Prop) s s' :
  (forall o, P o -> P' o) -> emits P s s' -> emits P' s s'.
Proof.
  intros Himp (l & H & F). exists l. split; [ exact H | ].
  eapply Forall_impl; eauto.
Qed.

Lemma emits_set_evs P s q : emits P s (set_evs q s).
Proof. exists []. cbn. rewrite app_nil_r. split; [ reflexivity | constructor ]. Qed.

Lemma emits_set_globTime P s t : emits P s (set_globTime t s).
Proof. exists []. cbn. rewrite app_nil_r. split; [ reflexivity | constructor ]. Qed.

Lemma preserves_emit P (o : Obs) : P o -> preserves (emits P) (emit o).
Proof.
  intros Ho s r s' [= <- <-]. exists [o]. split; [ reflexivity | ].
  repeat constructor. exact Ho.
Qed.

Lemma preserves_liftE_emits {A} P (m : Tick -> M EventSys A) :
  preserves (emits P) (liftE m).
Proof.
  apply (preserves_liftE (fun _ _ => True)).
  - intros s q' _. apply emits_set_evs.
  - intros now s r s' _. exact I.
Qed.

Lemma preserves_probe e p : preserves (emits is_probe) (probe e p).
Proof.
  unfold probe. apply preserves_bind;
    [ apply emits_trans | apply preserves_liftE_emits | ].
  intros ev. apply preserves_emit. exact I.
Qed.

Lemma preserves_action_emits e : preserves (emits is_probe) (action e).
Proof.
  unfold action.
  repeat (apply preserves_bind;
          [ apply emits_trans | try apply preserves_liftE_emits | intros ? ]);
    try (apply preserves_for_each;
         [ apply emits_refl | apply emits_trans | intros ?;
           apply preserves_probe ]).
Qed.
End Preservation.

(** ** The order of the queue along a simulation *)

Section QueueInvariant.
Import Rand MetaSim SimSpec.
Local Open Scope sim_scope.

Implicit Types (q : EventSys) (s : Simulation) (e a b : EventId) (ev : Event).

Lemma post_fail e t disp now q x q' :
  post e t disp now q = (inl x, q') -> q' = q.
Proof.
  unfold post, bind, deref, throw, gets, modify, store.
  destruct (heap q !! e) as [ev | ]; [ | intros [= _ <-]; reflexivity ].
  destruct (t <? now); [ intros [= _ <-]; reflexivity | ].
  destruct (_isInQueue ev); [ intros [= _ <-]; reflexivity | discriminate ].
Qed.

Lemma post_keeps_wf e t disp now q r q' :
  wf q -> post e t disp now q = (r, q') -> wf q'.
Proof.
  intros Hwf. destruct r as [x | []]; intros Hp.
  - apply post_fail in Hp as ->. exact Hwf.
  - eapply post_wf; eauto.
Qed.

Lemma drop_keeps_wf e q r q' : wf q -> drop e q = (r, q') -> wf q'.
Proof.
  intros Hwf Hd. pose proof Hd as Hd'.
  apply drop_inv in Hd' as [(_ & _ & ->) | (ev & _ & -> & _)].
  - exact Hwf.
  - eapply drop_wf; eauto.
Qed.

Lemma draw_keeps_wf q r q' : wf q -> draw q = (r, q') -> wf q'.
Proof.
  intros [Hs Hq Hf]. unfold draw. destruct (sample (_stdgen q)) as [v g].
  intros [= <- <-]. constructor; assumption.
Qed.

Lemma run_handler_keeps_wf (h : Handler) now q r q' :
  orderly h -> wf q -> run_handler h now q = (r, q') -> wf q'.
Proof.
  revert q r q'.
  induction h as [ | e t disp k IH | e k IH | e disp k IH | e p k IH
                 | e k IH | k IH | k IH ]; intros q r q' Ho Hwf;
    cbn [run_handler orderly] in *; try contradiction.
  - intros [= <- <-]. exact Hwf.
  - unfold bind. destruct (post e t disp now q) as [[x | []] q1] eqn:H1.
    + intros [= <- <-]. eapply post_keeps_wf; eauto.
    + apply IH; [ exact Ho | eapply post_keeps_wf; eauto ].
  - unfold bind. destruct (drop e q) as [[x | []] q1] eqn:H1.
    + intros [= <- <-]. eapply drop_keeps_wf; eauto.
    + apply IH; [ exact Ho | eapply drop_keeps_wf; eauto ].
  - apply IH; [ apply Ho | exact Hwf ].
  - unfold bind. destruct (draw q) as [[x | v] q1] eqn:H1.
    + intros [= <- <-]. eapply draw_keeps_wf; eauto.
    + apply IH; [ apply Ho | eapply draw_keeps_wf; eauto ].
Qed.

Lemma all_orderly_frozen q q' :
  same_frozen q q' -> all_orderly q -> all_orderly q'.
Proof.
  intros Hfr Ho e ev' He'. specialize (Hfr e). rewrite He' in Hfr.
  destruct (heap q !! e) as [ev | ] eqn:He; [ | discriminate ].
  cbn in Hfr. injection Hfr as _ _ _ _ _ ->. eapply Ho; eauto.
Qed.

(** Writing to an event that is not queued keeps the order, as long as
    the event stays flagged as not queued. *)
Lemma store_keeps_wf e ev' q :
  wf q -> e ∉ _eventQueue q -> _isInQueue ev' = false ->
  wf (set_heap (<[e := ev']> (heap q)) q).
Proof.
  intros Hwf Hnin Hflag.
  assert (forall x, x ∈ _eventQueue q ->
                    <[e := ev']> (heap q) !! x = heap q !! x) as Hsame.
  { intros x Hx. apply lookup_insert_ne. intros ->. tauto. }
  constructor; cbn [heap _eventQueue counter set_heap].
  - unfold queue_sorted. cbn [heap _eventQueue set_heap].
    eapply StronglySorted_impl_in; [ | exact (wf_sorted q Hwf) ].
    intros a b Ha Hb. cbn beta. unfold Cmp_ptr.
    rewrite (Hsame a Ha), (Hsame b Hb). tauto.
  - intros x Hx. rewrite (Hsame x Hx). apply (wf_queued q Hwf x Hx).
  - intros x evx Hx Hf. destruct (decide (x = e)) as [-> | Hne].
    + rewrite lookup_insert_eq in Hx. injection Hx as <-. congruence.
    + rewrite lookup_insert_ne in Hx by congruence. eapply wf_flag; eauto.
Qed.

Lemma destroyed_keeps_wf e ev q : wf q -> heap q !! e = Some ev -> wf (destroyed e q).
Proof.
  intros Hwf He.
  pose proof (drop_wf e q _ Hwf (drop_ok e ev q He)) as Hwf1.
  assert (e ∉ _eventQueue (dropped e ev q)) as Hnin.
  { cbn. intros Hin. apply elem_of_plist_erase in Hin. tauto. }
  assert (forall x, x ∈ plist_erase e (_eventQueue q) ->
                    delete e (heap q) !! x = heap (dropped e ev q) !! x)
    as Hsame.
  { intros x Hx. cbn [heap dropped].
    assert (x <> e) as Hne by (intros ->; apply Hnin; exact Hx).
    rewrite lookup_delete_ne, lookup_insert_ne by congruence. reflexivity. }
  constructor; cbn [heap _eventQueue counter destroyed].
  - unfold queue_sorted. cbn [heap _eventQueue destroyed].
    eapply StronglySorted_impl_in; [ | exact (wf_sorted _ Hwf1) ].
    intros a b Ha Hb. cbn beta. unfold Cmp_ptr. cbn [_eventQueue dropped] in *.
    rewrite (Hsame a Ha), (Hsame b Hb). tauto.
  - intros x Hx. rewrite (Hsame x Hx). apply (wf_queued _ Hwf1 x Hx).
  - intros x evx Hx Hf. destruct (decide (x = e)) as [-> | Hne].
    + rewrite lookup_delete_eq in Hx. discriminate.
    + rewrite lookup_delete_ne in Hx by congruence.
      apply (wf_flag _ Hwf1 x evx); [ | exact Hf ].
      cbn [heap dropped]. rewrite lookup_insert_ne by congruence. exact Hx.
Qed.

Lemma all_orderly_destroyed e q : all_orderly q -> all_orderly (destroyed e q).
Proof.
  intros Ho x ev Hx. cbn [heap destroyed] in Hx.
  destruct (decide (x = e)) as [-> | Hne].
  - rewrite lookup_delete_eq in Hx. discriminate.
  - rewrite lookup_delete_ne in Hx by congruence. eapply Ho; eauto.
Qed.

Lemma all_orderly_store e ev ev' q :
  all_orderly q -> heap q !! e = Some ev -> doit ev' = doit ev ->
  all_orderly (set_heap (<[e := ev']> (heap q)) q).
Proof.
  intros Ho He Hd x evx Hx. cbn [heap set_heap] in Hx.
  destruct (decide (x = e)) as [-> | Hne].
  - rewrite lookup_insert_eq in Hx. injection Hx as <-. rewrite Hd.
    eapply Ho; eauto.
  - rewrite lookup_insert_ne in Hx by congruence. eapply Ho; eauto.
Qed.

(** [action] on an event that is not queued keeps the event system
    consistent, when the handlers are orderly. *)
Lemma action_keeps_wf e s r s' :
  wf (evs s) -> all_orderly (evs s) -> e ∉ _eventQueue (evs s) ->
  action e s = (r, s') ->
  wf (evs s') /\ all_orderly (evs s').
Proof.
  intros Hwf Ho Hnin. unfold action, bind at 1, liftE at 1, deref.
  destruct (heap (evs s) !! e) as [ev | ] eqn:He;
    [ | rewrite set_evs_id; intros [= <- <-]; tauto ].
  unfold bind at 1, liftE at 1, store, modify.
  unfold bind at 1, liftE at 1. cbn [globTime evs set_evs].
  set (ev1 := set_isInQueue false (set_lastTime (_time ev) ev)).
  set (q1 := set_heap (<[e := ev1]> (heap (evs s))) (evs s)).
  assert (wf q1) as Hwf1
    by (apply store_keeps_wf; [ | | reflexivity ]; assumption).
  assert (all_orderly q1) as Ho1
    by (apply (all_orderly_store e ev ev1); [ exact Ho | exact He | reflexivity ]).
  assert (heap q1 !! e = Some ev1) as He1
    by (unfold q1; cbn; apply lookup_insert_eq).
  destruct (run_handler (doit ev) (globTime s) q1) as [r2 q2] eqn:Hh.
  assert (wf q2) as Hwf2
    by (eapply run_handler_keeps_wf; [ eapply Ho | | ]; eauto).
  pose proof (run_handler_frozen _ _ _ _ _ Hh) as Hfr.
  assert (all_orderly q2) as Ho2
    by (eapply all_orderly_frozen; eauto).
  destruct r2 as [x | []]; [ intros [= <- <-]; cbn; tauto | ].
  destruct (same_frozen_live _ _ _ _ Hfr He1) as (ev2 & He2 & _).
  unfold bind at 1, liftE at 1. cbn [globTime evs set_evs]. rewrite He2.
  unfold bind.
  rewrite !(for_each_probe e ev2) by (cbn; exact He2).
  intros [= <- <-]. cbn. tauto.
Qed.

(** One simulation step keeps the event system consistent, when the
    handlers are orderly. *)
Lemma sim_step_keeps_wf s r s' :
  wf (evs s) -> all_orderly (evs s) ->
  sim_step s = (r, s') ->
  wf (evs s') /\ all_orderly (evs s').
Proof.
  intros Hwf Ho.
  destruct (_eventQueue (evs s)) as [ | temp rest] eqn:Hq.
  - unfold sim_step, bind, gets, getFirst, throw. rewrite Hq.
    intros [= <- <-]. tauto.
  - destruct (heap (evs s) !! temp) as [ev | ] eqn:He.
    2:{ unfold sim_step. unfold bind at 1, gets, getFirst. rewrite Hq.
        cbn [head]. unfold bind at 1.
        rewrite (liftE_bad_pointer drop temp s (drop_bad_pointer temp) He).
        intros [= <- <-]. tauto. }
    rewrite (sim_step_front temp rest ev s Hq He).
    assert (wf (evs (at_action temp ev s))) as Hwf1
      by (cbn; exact (drop_wf temp _ _ Hwf (drop_ok temp ev _ He))).
    assert (all_orderly (evs (at_action temp ev s))) as Ho1.
    { cbn. eapply all_orderly_frozen; [ | exact Ho ].
      eapply drop_frozen. apply (drop_ok temp ev _ He). }
    assert (temp ∉ _eventQueue (evs (at_action temp ev s))) as Hnin1.
    { cbn. intros Hin. apply elem_of_plist_erase in Hin. tauto. }
    unfold bind at 1.
    destruct (action temp (at_action temp ev s)) as [r1 s1] eqn:Ha.
    destruct (action_keeps_wf _ _ _ _ Hwf1 Ho1 Hnin1 Ha) as [Hwf2 Ho2].
    destruct r1 as [x | []]; [ intros [= <- <-]; tauto | ].
    unfold bind at 1.
    destruct (heap (evs s1) !! temp) as [ev2 | ] eqn:He2.
    + rewrite (liftE_isDisposable temp ev2 s1 He2). unfold bind at 1.
      destruct (_disposable ev2).
      * rewrite (liftE_destroy temp ev2 s1 He2). intros [= <- <-].
        cbn [evs set_evs]. split.
        -- eapply destroyed_keeps_wf; eauto.
        -- apply all_orderly_destroyed. exact Ho2.
      * intros [= <- <-]. tauto.
    + unfold liftE, isDisposable, bind, deref. rewrite He2, set_evs_id.
      intros [= <- <-]. tauto.
Qed.

(** A priority written on an event that is not queued leaves the queue
    in order: the comparator never sees that event. *)
Lemma setPriority_keeps_wf e p q r q' :
  wf q -> e ∉ _eventQueue q -> setPriority e p q = (r, q') -> wf q'.
Proof.
  intros Hwf Hnin. unfold setPriority, bind, deref, store, modify.
  destruct (heap q !! e) as [ev | ] eqn:He; intros [= <- <-];
    [ | exact Hwf ].
  apply store_keeps_wf; [ exact Hwf | exact Hnin | ].
  cbn [_isInQueue set_priority].
  destruct (_isInQueue ev) eqn:Hfl; [ | reflexivity ].
  exfalso. apply Hnin. eapply wf_flag; eauto.
Qed.

Lemma restorePriority_keeps_wf e q r q' :
  wf q -> e ∉ _eventQueue q -> restorePriority e q = (r, q') -> wf q'.
Proof.
  intros Hwf Hnin. unfold restorePriority, bind, deref, store, modify.
  destruct (heap q !! e) as [ev | ] eqn:He; intros [= <- <-];
    [ | exact Hwf ].
  apply store_keeps_wf; [ exact Hwf | exact Hnin | ].
  cbn [_isInQueue set_priority].
  destruct (_isInQueue ev) eqn:Hfl; [ | reflexivity ].
  exfalso. apply Hnin. eapply wf_flag; eauto.
Qed.

End QueueInvariant.

(** ** Running up to a horizon *)

Section RunTo.
Import Rand MetaSim SimSpec.
Local Open Scope sim_scope.

Implicit Types (q : EventSys) (s : Simulation) (e temp : EventId)
         (ev : Event) (stop : Tick).

(** *** Which exceptions the engine raises *)

Section RaisesOnly.
Context {S : Type} (P : Exc -> Prop).

Lemma raises_only_ret {A} (a : A) : raises_only P (@ret S A a).
Proof. intros s x s' [=]. Qed.

Lemma raises_only_gets {A} (f : S -> A) : raises_only P (gets f).
Proof. intros s x s' [=]. Qed.

Lemma raises_only_modify (f : S -> S) : raises_only P (modify f).
Proof. intros s x s' [=]. Qed.

Lemma raises_only_throw {A} (x : Exc) : P x -> raises_only P (@throw S A x).
Proof. intros Hx s y s' [= <- _]. exact Hx. Qed.

Lemma raises_only_bind {A B} (m : M S A) (k : A -> M S B) :
  raises_only P m -> (forall a, raises_only P (k a)) ->
  raises_only P (bind m k).
Proof.
  intros Hm Hk s x s'. unfold bind.
  destruct (m s) as [[y | a] s1] eqn:H1.
  - intros [= <- <-]. eapply Hm; eauto.
  - intros H2. eapply Hk; eauto.
Qed.

Lemma raises_only_for_each {A} (f : A -> M S unit) (l : list A) :
  (forall a, raises_only P (f a)) -> raises_only P (for_each f l).
Proof.
  intros Hf. induction l as [ | a l IH]; cbn [for_each].
  - apply raises_only_ret.
  - apply raises_only_bind; [ apply Hf | intros _; exact IH ].
Qed.
End RaisesOnly.

Lemma raises_only_liftE {A} P (m : Tick -> M EventSys A) :
  (forall now, raises_only P (m now)) -> raises_only P (liftE m).
Proof.
  intros Hm s x s'. unfold liftE.
  destruct (m (globTime s) (evs s)) as [r q'] eqn:H1.
  intros [= -> <-]. eapply Hm; eauto.
Qed.

(** The members of [Event] never raise [NoMoreEventsInQueue]. *)
Lemma raises_only_deref e : raises_only not_empty_queue (deref e).
Proof.
  intros q x q'. unfold deref. destruct (heap q !! e); [ discriminate | ].
  intros [= <- _]. discriminate.
Qed.

Ltac raises_only_tac :=
  repeat first
    [ apply raises_only_deref
    | apply raises_only_ret
    | apply raises_only_gets
    | apply raises_only_modify
    | apply raises_only_throw; discriminate
    | apply raises_only_bind; [ | intros ? ]
    | match goal with |- raises_only _ (if ?c then _ else _) => destruct c end
    ].

Lemma raises_only_post e t disp now :
  raises_only not_empty_queue (post e t disp now).
Proof. unfold post, store. raises_only_tac. Qed.

Lemma raises_only_drop e : raises_only not_empty_queue (drop e).
Proof. unfold drop, store. raises_only_tac. Qed.

Lemma raises_only_setPriority e p :
  raises_only not_empty_queue (setPriority e p).
Proof. unfold setPriority, store. raises_only_tac. Qed.

Lemma raises_only_restorePriority e :
  raises_only not_empty_queue (restorePriority e).
Proof. unfold restorePriority, store. raises_only_tac. Qed.

Lemma raises_only_process e disp now :
  raises_only not_empty_queue (process e disp now).
Proof.
  unfold process.
  apply raises_only_bind; [ apply raises_only_setPriority | intros _ ].
  apply raises_only_bind; [ apply raises_only_post | intros _ ].
  apply raises_only_restorePriority.
Qed.

Lemma raises_only_draw : raises_only not_empty_queue draw.
Proof.
  intros q x q'. unfold draw. destruct (sample (_stdgen q)). discriminate.
Qed.

Lemma raises_only_run_handler (h : Handler) now :
  raises_only not_empty_queue (run_handler h now).
Proof.
  induction h as [ | e t disp k IH | e k IH | e disp k IH | e p k IH
                 | e k IH | k IH | k IH ]; cbn [run_handler].
  - apply raises_only_ret.
  - apply raises_only_bind; [ apply raises_only_post | intros _; exact IH ].
  - apply raises_only_bind; [ apply raises_only_drop | intros _; exact IH ].
  - apply raises_only_bind; [ apply raises_only_process | intros _; exact IH ].
  - apply raises_only_bind;
      [ apply raises_only_setPriority | intros _; exact IH ].
  - apply raises_only_bind;
      [ apply raises_only_restorePriority | intros _; exact IH ].
  - apply IH.
  - apply raises_only_bind; [ apply raises_only_draw | intros v; apply IH ].
Qed.

Lemma raises_only_probe e p : raises_only not_empty_queue (probe e p).
Proof.
  unfold probe, emit.
  apply raises_only_bind;
    [ apply raises_only_liftE; intros _; apply raises_only_deref | intros ev ].
  apply raises_only_modify.
Qed.

Lemma raises_only_action e : raises_only not_empty_queue (action e).
Proof.
  unfold action.
  apply raises_only_bind;
    [ apply raises_only_liftE; intros _; apply raises_only_deref | intros ev ].
  apply raises_only_bind;
    [ apply raises_only_liftE; intros _; apply raises_only_modify | intros _ ].
  apply raises_only_bind;
    [ apply raises_only_liftE; intros now; apply raises_only_run_handler
    | intros _ ].
  apply raises_only_bind;
    [ apply raises_only_liftE; intros _; apply raises_only_deref | intros ev' ].
  repeat (apply raises_only_bind;
          [ apply raises_only_for_each; intros p; apply raises_only_probe
          | intros _ ]).
  apply raises_only_for_each; intros p; apply raises_only_probe.
Qed.

Lemma raises_only_destroy e : raises_only not_empty_queue (destroy e).
Proof.
  unfold destroy.
  apply raises_only_bind; [ apply raises_only_drop | intros _ ].
  apply raises_only_modify.
Qed.

Lemma raises_only_isDisposable e : raises_only not_empty_queue (isDisposable e).
Proof. unfold isDisposable. raises_only_tac. Qed.

Lemma raises_only_getTime e : raises_only not_empty_queue (getTime e).
Proof. unfold getTime. raises_only_tac. Qed.

(** [sim_step] raises [NoMoreEventsInQueue] on the empty queue only. *)
Lemma raises_only_step_body temp :
  raises_only not_empty_queue
    (liftE (fun _ => drop temp) ;;
     mytime <- liftE (fun _ => getTime temp) ;;
     emit (ObsExec temp mytime) ;;
     setTime mytime ;;
     action temp ;;
     d <- liftE (fun _ => isDisposable temp) ;;
     (if d then liftE (fun _ => destroy temp) else ret tt) ;;
     ret mytime).
Proof.
  apply raises_only_bind;
    [ apply raises_only_liftE; intros _; apply raises_only_drop | intros _ ].
  apply raises_only_bind;
    [ apply raises_only_liftE; intros _; apply raises_only_getTime
    | intros mytime ].
  apply raises_only_bind; [ apply raises_only_modify | intros _ ].
  apply raises_only_bind; [ apply raises_only_modify | intros _ ].
  apply raises_only_bind; [ apply raises_only_action | intros _ ].
  apply raises_only_bind;
    [ apply raises_only_liftE; intros _; apply raises_only_isDisposable
    | intros d ].
  apply raises_only_bind; [ | intros _; apply raises_only_ret ].
  destruct d; [ | apply raises_only_ret ].
  apply raises_only_liftE; intros _; apply raises_only_destroy.
Qed.

Lemma sim_step_not_empty s s' :
  sim_step s = (inl NoMoreEventsInQueue, s') -> _eventQueue (evs s) = [].
Proof.
  destruct (_eventQueue (evs s)) as [ | temp rest] eqn:Hq; [ reflexivity | ].
  unfold sim_step. unfold bind at 1, gets, getFirst. rewrite Hq. cbn [head].
  intros H. apply raises_only_step_body in H. exfalso. apply H. reflexivity.
Qed.

(** *** [getNextEventTime] *)

Lemma getNextEventTime_empty s :
  _eventQueue (evs s) = [] ->
  getNextEventTime s = (inl NoMoreEventsInQueue, s).
Proof.
  intros Hq. unfold getNextEventTime, bind, gets, getFirst, throw.
  rewrite Hq. reflexivity.
Qed.

Lemma getNextEventTime_front temp ev s :
  getFirst (evs s) = Some temp -> heap (evs s) !! temp = Some ev ->
  getNextEventTime s = (inr (_time ev), s).
Proof.
  intros Hf He. unfold getNextEventTime, bind, gets. rewrite Hf.
  apply liftE_getTime. exact He.
Qed.

Lemma getNextEventTime_inv s r s' :
  getNextEventTime s = (r, s') ->
  s' = s /\
  ((r = inl NoMoreEventsInQueue /\ _eventQueue (evs s) = []) \/
   (exists temp, getFirst (evs s) = Some temp /\
                 heap (evs s) !! temp = None /\ r = inl (BadPointer temp)) \/
   (exists temp ev, getFirst (evs s) = Some temp /\
                    heap (evs s) !! temp = Some ev /\ r = inr (_time ev))).
Proof.
  unfold getNextEventTime, bind, gets, throw, getFirst.
  destruct (_eventQueue (evs s)) as [ | temp rest] eqn:Hq; cbn [head].
  - intros [= <- <-]. split; [ reflexivity | ]. left. split; reflexivity.
  - destruct (heap (evs s) !! temp) as [ev | ] eqn:He.
    + rewrite (liftE_getTime temp ev s He). intros [= <- <-].
      split; [ reflexivity | ]. right. right. exists temp, ev. repeat split.
      exact He.
    + unfold liftE, getTime, bind, deref. rewrite He, set_evs_id.
      intros [= <- <-]. split; [ reflexivity | ]. right. left.
      exists temp. repeat split. exact He.
Qed.

(** *** What one step puts on the output *)

Lemma sim_step_emits stop temp ev s r s' :
  getFirst (evs s) = Some temp -> heap (evs s) !! temp = Some ev ->
  _time ev <= stop ->
  sim_step s = (r, s') -> emits (step_output stop) s s'.
Proof.
  intros Hf He Ht. unfold getFirst in Hf.
  destruct (_eventQueue (evs s)) as [ | temp' rest] eqn:Hq; [ discriminate | ].
  injection Hf as ->. rewrite (sim_step_front temp rest ev s Hq He).
  intros H. apply emits_trans with (s2 := at_action temp ev s).
  - exists [ObsExec temp (_time ev)]. split; [ reflexivity | ].
    repeat constructor. exact Ht.
  - revert H. generalize (at_action temp ev s). intros s0 H. revert s0 r s' H.
    change (preserves (emits (step_output stop))
              (action temp ;;
               d <- liftE (fun _ => isDisposable temp) ;;
               (if d then liftE (fun _ => destroy temp) else ret tt) ;;
               ret (_time ev))).
    apply preserves_bind; [ apply emits_trans | | intros _ ].
    { intros s0 r s' H. eapply emits_weaken; [ | eapply preserves_action_emits;
                                                  exact H ].
      intros [ ] Ho; try contradiction. exact I. }
    apply preserves_bind;
      [ apply emits_trans | apply preserves_liftE_emits | intros d ].
    apply preserves_bind; [ apply emits_trans | | intros _ ].
    + destruct d; [ apply preserves_liftE_emits | ].
      apply preserves_ret. apply emits_refl.
    + apply preserves_ret. apply emits_refl.
Qed.

Lemma run_to_steps_emits stop s s' :
  run_to_steps stop s s' -> emits (step_output stop) s s'.
Proof.
  induction 1 as [ s | s temp ev t s1 s' Hf He Ht Hstep _ IH ].
  - apply emits_refl.
  - eapply emits_trans; [ eapply sim_step_emits; eauto | ].
    eapply emits_trans; [ apply emits_set_globTime | exact IH ].
Qed.

Lemma run_to_steps_trans stop s1 s2 s3 :
  run_to_steps stop s1 s2 -> run_to_steps stop s2 s3 ->
  run_to_steps stop s1 s3.
Proof.
  induction 1 as [ s | s temp ev t s1 s' Hf He Ht Hstep _ IH ]; intros H23.
  - exact H23.
  - eapply rts_step; eauto.
Qed.

(** *** The loop *)

(** However the loop is left, it has taken steps of the kind above, and it
    is left for one of three reasons: the front event is due after [stop];
    the queue is empty; [getNextEventTime] or the last [sim_step] raised
    an exception other than [NoMoreEventsInQueue]. *)
Lemma run_to_loop_sound fuel stop s r s1 :
  run_to_loop fuel stop s = Some (r, s1) ->
  exists s0,
    run_to_steps stop s s0 /\
    emits (step_output stop) s0 s1 /\
    ((r = inr tt /\ s1 = s0 /\
      exists temp ev, getFirst (evs s0) = Some temp /\
                      heap (evs s0) !! temp = Some ev /\ stop < _time ev) \/
     (r = inl NoMoreEventsInQueue /\ s1 = s0 /\ _eventQueue (evs s0) = []) \/
     (exists x, r = inl x /\ x <> NoMoreEventsInQueue)).
Proof.
  revert s. induction fuel as [ | fuel IH]; intros s; cbn [run_to_loop];
    [ discriminate | ].
  destruct (getNextEventTime s) as [rt st] eqn:Hn.
  apply getNextEventTime_inv in Hn
    as [-> [(-> & Hq) | [(temp & Hf & He & ->) | (temp & ev & Hf & He & ->)]]].
  - intros [= <- <-]. exists s.
    split; [ constructor | ]. split; [ apply emits_refl | ].
    right. left. repeat split. exact Hq.
  - intros [= <- <-]. exists s.
    split; [ constructor | ]. split; [ apply emits_refl | ].
    right. right. eexists. split; [ reflexivity | discriminate ].
  - destruct (Z.leb_spec (_time ev) stop) as [Hle | Hgt].
    + destruct (sim_step s) as [[x | t] s2] eqn:Hstep.
      * intros [= <- <-]. exists s. split; [ constructor | ].
        split; [ eapply sim_step_emits; eauto | ].
        right. right. exists x. split; [ reflexivity | ].
        intros ->. apply sim_step_not_empty in Hstep.
        unfold getFirst in Hf. rewrite Hstep in Hf. discriminate.
      * intros Hrec. destruct (IH _ Hrec) as (s0 & Hsteps & Hem & Hcase).
        exists s0. split; [ eapply rts_step; eauto | ].
        split; assumption.
    + intros [= <- <-]. exists s.
      split; [ constructor | ]. split; [ apply emits_refl | ].
      left. repeat split. exists temp, ev. repeat split; assumption.
Qed.

(** Conversely, steps that end where the loop has nothing left to do are
    the steps the loop takes, given fuel for them. *)
Lemma run_to_loop_complete stop s s1 :
  run_to_steps stop s s1 -> run_to_exit stop s1 ->
  exists fuel,
    run_to_loop fuel stop s =
      Some (match _eventQueue (evs s1) with
            | [] => inl NoMoreEventsInQueue
            | _ :: _ => inr tt
            end, s1).
Proof.
  induction 1 as [ s | s temp ev t s1 s' Hf He Ht Hstep _ IH ]; intros Hex.
  - exists 1%nat. cbn [run_to_loop].
    destruct Hex as [Hq | (temp & ev & Hf & He & Hgt)].
    + rewrite (getNextEventTime_empty s Hq), Hq. reflexivity.
    + rewrite (getNextEventTime_front temp ev s Hf He).
      destruct (Z.leb_spec (_time ev) stop); [ lia | ].
      unfold getFirst in Hf.
      destruct (_eventQueue (evs s)); [ discriminate | reflexivity ].
  - destruct (IH Hex) as (fuel & Hrun). exists (S fuel). cbn [run_to_loop].
    rewrite (getNextEventTime_front temp ev s Hf He).
    destruct (Z.leb_spec (_time ev) stop); [ | lia ].
    rewrite Hstep. exact Hrun.
Qed.

Lemma run_to_loop_more_fuel fuel stop s res :
  run_to_loop fuel stop s = Some res ->
  run_to_loop (S fuel) stop s = Some res.
Proof.
  revert s. induction fuel as [ | fuel IH]; intros s; [ discriminate | ].
  cbn [run_to_loop].
  destruct (getNextEventTime s) as [[x | t] s1]; [ tauto | ].
  destruct (t <=? stop); [ | tauto ].
  destruct (sim_step s1) as [[x | t'] s2]; [ tauto | ].
  apply IH.
Qed.

Lemma clamp_to_final stop s :
  clamp_to stop s = (inr (Z.max (globTime s) stop),
                     set_globTime (Z.max (globTime s) stop) s).
Proof.
  unfold clamp_to, bind, gets, setTime, modify, ret.
  destruct (Z.ltb_spec (globTime s) stop) as [Hlt | Hge].
  - cbn. rewrite Z.max_r by lia. reflexivity.
  - rewrite Z.max_l by lia. destruct s; reflexivity.
Qed.

Lemma emits_executed stop s s' :
  emits (step_output stop) s s' ->
  exists l, executed (out s') = executed (out s) ++ l /\
            Forall (fun et => snd et <= stop) l.
Proof.
  intros (l0 & Ho & Hall). exists (executed l0). unfold executed.
  rewrite Ho, omap_app. split; [ reflexivity | ].
  clear Ho. induction Hall as [ | o l0 Hok _ IH]; [ constructor | ].
  destruct o; cbn; try contradiction; try exact IH.
  constructor; [ exact Hok | exact IH ].
Qed.

Lemma run_to_final_exit stop s1 :
  run_to_exit stop s1 ->
  (match _eventQueue (evs s1) with
   | [] => (emit (ObsNoMoreEvents (globTime s1)) ;; clamp_to stop) s1
   | _ :: _ => clamp_to stop s1
   end) = (inr (Z.max (globTime s1) stop), run_to_final stop s1).
Proof.
  intros _. unfold run_to_final.
  destruct (_eventQueue (evs s1)) as [ | x l].
  - unfold bind, emit, modify. rewrite clamp_to_final. reflexivity.
  - rewrite clamp_to_final, app_nil_r.
    destruct s1; reflexivity.
Qed.

(** C4.  [run_to stop] takes simulation steps exactly while the front
    event is due at [stop] or before:
    - when it returns [t], it has taken such steps up to a state where the
      queue is empty or the front event is due after [stop]; in the first
      case, and only then, the diagnostic is on the output; the clock is
      [t], the larger of [stop] and the clock the loop left;
    - whatever the outcome, no event due after [stop] has been executed,
      and [NoMoreEventsInQueue] is not propagated;
    - conversely, whenever such steps lead to such a state, [run_to]
      returns that result, given the fuel for the steps. *)
Theorem run_to_spec :
  (forall fuel stop s t s',
      run_to fuel stop s = Some (inr t, s') ->
      exists s1,
        run_to_steps stop s s1 /\ run_to_exit stop s1 /\
        t = Z.max (globTime s1) stop /\ stop <= t /\
        s' = run_to_final stop s1 /\ globTime s' = t) /\
  (forall fuel stop s r s',
      run_to fuel stop s = Some (r, s') ->
      r <> inl NoMoreEventsInQueue /\
      exists l, executed (out s') = executed (out s) ++ l /\
                Forall (fun et => snd et <= stop) l) /\
  (forall stop s s1,
      run_to_steps stop s s1 -> run_to_exit stop s1 ->
      exists fuel,
        run_to fuel stop s =
          Some (inr (Z.max (globTime s1) stop), run_to_final stop s1)).
Proof.
  split; [ | split ].
  - intros fuel stop s t s'. unfold run_to.
    destruct (run_to_loop fuel stop s) as [[r1 s1] | ] eqn:Hloop;
      [ | discriminate ].
    destruct (run_to_loop_sound _ _ _ _ _ Hloop)
      as (s0 & Hsteps & _ & [(-> & -> & Hfront) | [(-> & -> & Hq) | Hexc]]).
    + intros [= H]. exists s0.
      assert (run_to_exit stop s0) as Hex by (right; exact Hfront).
      pose proof (run_to_final_exit stop s0 Hex) as Hfin.
      destruct Hfront as (temp & ev & Hf & _). unfold getFirst in Hf.
      destruct (_eventQueue (evs s0)) eqn:Hq; [ discriminate | ].
      rewrite Hfin in H. injection H as <- <-.
      repeat split; try assumption; try lia.
    + intros [= H]. exists s0.
      assert (run_to_exit stop s0) as Hex by (left; exact Hq).
      pose proof (run_to_final_exit stop s0 Hex) as Hfin.
      rewrite Hq in Hfin. rewrite Hfin in H. injection H as <- <-.
      repeat split; try assumption; try lia.
    + destruct Hexc as (x & -> & Hx). destruct x; try discriminate.
      congruence.
  - intros fuel stop s r s'. unfold run_to.
    destruct (run_to_loop fuel stop s) as [[r1 s1] | ] eqn:Hloop;
      [ | discriminate ].
    destruct (run_to_loop_sound _ _ _ _ _ Hloop)
      as (s0 & Hsteps & Hem & Hcase).
    assert (emits (step_output stop) s s1) as Hem1
      by (eapply emits_trans; [ apply run_to_steps_emits | ]; eassumption).
    destruct (emits_executed _ _ _ Hem1) as (l & Hl & Hall).
    destruct Hcase as [(-> & -> & _) | [(-> & -> & _) | (x & -> & Hx)]].
    + rewrite clamp_to_final. intros [= <- <-].
      split; [ discriminate | ]. exists l. split; assumption.
    + unfold bind, emit, modify. rewrite clamp_to_final. intros [= <- <-].
      split; [ discriminate | ]. exists l. cbn [out set_globTime set_out].
      unfold executed in *. rewrite omap_app, Hl. cbn. rewrite app_nil_r.
      split; [ reflexivity | exact Hall ].
    + destruct x; try congruence; intros [= <- <-];
        (split; [ discriminate | ]); exists l; split; assumption.
  - intros stop s s1 Hsteps Hex.
    destruct (run_to_loop_complete stop s s1 Hsteps Hex) as (fuel & Hloop).
    exists fuel. unfold run_to. rewrite Hloop.
    pose proof (run_to_final_exit stop s1 Hex) as Hfin.
    destruct (_eventQueue (evs s1)); rewrite Hfin; reflexivity.
Qed.
End RunTo.

(** ** The generator across runs *)

Section GeneratorPersists.
Import Rand MetaSim SimSpec.
Local Open Scope sim_scope.

Implicit Types (q : EventSys) (s : Simulation) (e : EventId) (g : RandomGen).

Lemma samples_app (n m : nat) g :
  samples (n + m) g =
    (fst (samples n g) ++ fst (samples m (snd (samples n g))),
     snd (samples m (snd (samples n g)))).
Proof.
  revert g. induction n as [ | n IH]; intros g.
  - cbn. destruct (samples m g); reflexivity.
  - cbn [Nat.add samples]. destruct (sample g) as [v g1].
    rewrite IH. destruct (samples n g1) as [vs g2]. cbn [fst snd].
    destruct (samples m g2) as [ws g3]. reflexivity.
Qed.

Lemma samples_seed (n : nat) g : _seed (snd (samples n g)) = _seed g.
Proof.
  revert g. induction n as [ | n IH]; intros g; [ reflexivity | ].
  cbn [samples]. destruct (sample g) as [v g1] eqn:Hs.
  specialize (IH g1). destruct (samples n g1) as [vs g2]. cbn [snd] in *.
  rewrite IH. unfold sample in Hs. injection Hs as _ <-. reflexivity.
Qed.

Lemma gen_continues_refl q : gen_continues q q.
Proof. exists 0%nat. cbn. rewrite app_nil_r. split; reflexivity. Qed.

Lemma gen_continues_trans q1 q2 q3 :
  gen_continues q1 q2 -> gen_continues q2 q3 -> gen_continues q1 q3.
Proof.
  intros (n & Hd1 & Hg1) (m & Hd2 & Hg2). exists (n + m)%nat.
  rewrite samples_app. cbn [fst snd].
  rewrite Hd2, Hg2, Hd1, Hg1, app_assoc. split; reflexivity.
Qed.

Lemma gen_continues_same q q' :
  _stdgen q' = _stdgen q -> drawn q' = drawn q -> gen_continues q q'.
Proof.
  intros Hg Hd. exists 0%nat. cbn. rewrite app_nil_r. split; assumption.
Qed.

(** A step-by-step proof that a computation keeps a reflexive and
    transitive relation: through the combinators down to the leaves. *)
Ltac keeps refl trans leaf :=
  repeat
    lazymatch goal with
    | |- preserves _ (ret _) => apply preserves_ret; exact refl
    | |- preserves _ (gets _) => apply preserves_gets; exact refl
    | |- preserves _ (throw _) => apply preserves_throw; exact refl
    | |- preserves _ (for_each _ _) =>
        apply preserves_for_each; [ exact refl | exact trans | intros ? ]
    | |- preserves _ (on_exception _ _) =>
        apply preserves_on_exception; [ exact trans | | ]
    | |- preserves _ (bind _ _) =>
        apply preserves_bind; [ exact trans | | intros ? ]
    | |- preserves _ (if ?c then _ else _) => destruct c
    | |- preserves _ (match ?x with Some _ => _ | None => _ end) => destruct x
    | |- preserves _ (let '(_, _) := ?x in _) => destruct x as [[? ?] ?]
    | |- preserves _ _ => progress leaf
    end.

Lemma preserves_deref (R : EventSys -> EventSys -> Prop) e :
  (forall q, R q q) -> preserves R (deref e).
Proof.
  intros Hrefl q r q'. unfold deref.
  destruct (heap q !! e); intros [= <- <-]; apply Hrefl.
Qed.

Ltac gen_leaf :=
  first
    [ apply preserves_deref; exact gen_continues_refl
    | apply preserves_modify; intros ?; apply gen_continues_same; reflexivity ].

Lemma gen_post e t disp now : preserves gen_continues (post e t disp now).
Proof.
  unfold post, store. keeps gen_continues_refl gen_continues_trans gen_leaf.
Qed.

Lemma gen_drop e : preserves gen_continues (drop e).
Proof.
  unfold drop, store. keeps gen_continues_refl gen_continues_trans gen_leaf.
Qed.

Lemma gen_setPriority e p : preserves gen_continues (setPriority e p).
Proof.
  unfold setPriority, store.
  keeps gen_continues_refl gen_continues_trans gen_leaf.
Qed.

Lemma gen_restorePriority e : preserves gen_continues (restorePriority e).
Proof.
  unfold restorePriority, store.
  keeps gen_continues_refl gen_continues_trans gen_leaf.
Qed.

Lemma gen_getTime e : preserves gen_continues (getTime e).
Proof.
  unfold getTime. keeps gen_continues_refl gen_continues_trans gen_leaf.
Qed.

Lemma gen_isDisposable e : preserves gen_continues (isDisposable e).
Proof.
  unfold isDisposable. keeps gen_continues_refl gen_continues_trans gen_leaf.
Qed.

Lemma gen_draw : preserves gen_continues draw.
Proof.
  intros q r q'. unfold draw. destruct (sample (_stdgen q)) as [v g] eqn:Hs.
  intros [= <- <-]. exists 1%nat. cbn [samples]. rewrite Hs. cbn.
  split; reflexivity.
Qed.

Ltac gen_leaf2 :=
  first
    [ gen_leaf | apply gen_post | apply gen_drop | apply gen_setPriority
    | apply gen_restorePriority | apply gen_getTime | apply gen_isDisposable
    | apply gen_draw ].

Lemma gen_process e disp now : preserves gen_continues (process e disp now).
Proof.
  unfold process. keeps gen_continues_refl gen_continues_trans gen_leaf2.
Qed.

Lemma gen_destroy e : preserves gen_continues (destroy e).
Proof.
  unfold destroy. keeps gen_continues_refl gen_continues_trans gen_leaf2.
Qed.

Lemma gen_run_handler (h : Handler) now :
  preserves gen_continues (run_handler h now).
Proof.
  induction h as [ | e t disp k IH | e k IH | e disp k IH | e p k IH
                 | e k IH | k IH | k IH ]; cbn [run_handler];
    keeps gen_continues_refl gen_continues_trans
          ltac:(first [ gen_leaf2 | apply gen_process | apply IH ]).
Qed.

(** *** The driver *)

Lemma gen_cont_refl s : gen_cont s s.
Proof. apply gen_continues_refl. Qed.

Lemma gen_cont_trans s1 s2 s3 : gen_cont s1 s2 -> gen_cont s2 s3 -> gen_cont s1 s3.
Proof. apply gen_continues_trans. Qed.

Lemma gen_cont_same s s' : evs s' = evs s -> gen_cont s s'.
Proof. intros H. unfold gen_cont. rewrite H. apply gen_continues_refl. Qed.

Lemma gen_liftE {A} (m : Tick -> M EventSys A) :
  (forall now, preserves gen_continues (m now)) -> preserves gen_cont (liftE m).
Proof.
  apply preserves_liftE. intros s q' H. exact H.
Qed.

Ltac sim_leaf :=
  first
    [ apply preserves_modify; intros ?; apply gen_cont_same; reflexivity
    | apply gen_liftE; intros ?;
      first [ apply gen_drop | apply gen_getTime | apply gen_isDisposable
            | apply gen_destroy | apply gen_run_handler
            | apply preserves_deref; exact gen_continues_refl
            | apply preserves_modify; intros ?; apply gen_continues_same;
              reflexivity ] ].

Lemma gen_probe e p : preserves gen_cont (probe e p).
Proof. unfold probe, emit. keeps gen_cont_refl gen_cont_trans sim_leaf. Qed.

Lemma gen_action e : preserves gen_cont (action e).
Proof.
  unfold action, store.
  keeps gen_cont_refl gen_cont_trans ltac:(first [ sim_leaf | apply gen_probe ]).
Qed.

Lemma gen_sim_step : preserves gen_cont sim_step.
Proof.
  unfold sim_step, emit, setTime.
  keeps gen_cont_refl gen_cont_trans ltac:(first [ sim_leaf | apply gen_action ]).
Qed.

Lemma gen_clear_loop (n : nat) : preserves gen_cont (clear_loop n).
Proof.
  induction n as [ | n IH]; cbn [clear_loop];
    keeps gen_cont_refl gen_cont_trans ltac:(first [ sim_leaf | apply IH ]).
Qed.

Lemma gen_clearEventQueue : preserves gen_cont clearEventQueue.
Proof.
  unfold clearEventQueue, setTime.
  keeps gen_cont_refl gen_cont_trans
        ltac:(first [ sim_leaf | apply gen_clear_loop ]).
Qed.

Lemma gen_callNewRun : preserves gen_cont callNewRun.
Proof.
  unfold callNewRun.
  keeps gen_cont_refl gen_cont_trans
        ltac:(first [ sim_leaf | apply gen_clearEventQueue ]).
Qed.

Lemma gen_callEndRun : preserves gen_cont callEndRun.
Proof.
  unfold callEndRun.
  keeps gen_cont_refl gen_cont_trans
        ltac:(first [ sim_leaf | apply gen_clearEventQueue ]).
Qed.

Lemma gen_initSingleRun : preserves gen_cont initSingleRun.
Proof.
  unfold initSingleRun, setTime, emit.
  keeps gen_cont_refl gen_cont_trans
        ltac:(first [ sim_leaf | apply gen_callNewRun ]).
Qed.

Lemma gen_endSingleRun : preserves gen_cont endSingleRun.
Proof.
  unfold endSingleRun, emit.
  keeps gen_cont_refl gen_cont_trans
        ltac:(first [ sim_leaf | apply gen_callEndRun
                    | apply gen_clearEventQueue ]).
Qed.

Lemma gen_initRuns n : preserves gen_cont (initRuns n).
Proof.
  unfold initRuns, setTime, emit. keeps gen_cont_refl gen_cont_trans sim_leaf.
Qed.

Lemma gen_run_prologue nRuns : preserves gen_cont (run_prologue nRuns).
Proof.
  unfold run_prologue, run_mode, emit.
  keeps gen_cont_refl gen_cont_trans
        ltac:(first [ sim_leaf | apply gen_initRuns ]).
Qed.

Lemma gen_main_cycle fuel endTick : preservesP gen_cont (main_cycle fuel endTick).
Proof.
  induction fuel as [ | fuel IH]; intros s r s'; cbn [main_cycle];
    [ discriminate | ].
  destruct (globTime s <? endTick).
  - destruct (sim_step s) as [[x | t] s1] eqn:Hstep.
    + intros [= <- <-]. eapply gen_sim_step; eauto.
    + intros Hrec. eapply gen_cont_trans; [ eapply gen_sim_step; eauto | ].
      eapply gen_cont_trans; [ | eapply IH; eauto ].
      apply gen_cont_same. reflexivity.
  - intros [= <- <-]. apply gen_cont_refl.
Qed.

Lemma gen_replica_init n : preserves gen_cont (emit (ObsRun n) ;; initSingleRun).
Proof.
  unfold emit.
  keeps gen_cont_refl gen_cont_trans
        ltac:(first [ sim_leaf | apply gen_initSingleRun ]).
Qed.

Lemma gen_replica_finish :
  preserves gen_cont
    (endSingleRun ;; modify (fun s => set_actRuns (actRuns s + 1) s)).
Proof.
  keeps gen_cont_refl gen_cont_trans
        ltac:(first [ sim_leaf | apply gen_endSingleRun ]).
Qed.

Lemma gen_replica fuel endTick : preservesP gen_cont (replica fuel endTick).
Proof.
  intros s r s'. unfold replica.
  destruct ((emit (ObsRun (actRuns s)) ;; initSingleRun) s)
    as [[x | []] s1] eqn:Hinit.
  - intros [= <- <-]. eapply gen_replica_init; exact Hinit.
  - pose proof (gen_replica_init _ _ _ _ Hinit) as H01.
    destruct (main_cycle fuel endTick s1) as [[r2 s2] | ] eqn:Hmain;
      [ | discriminate ].
    pose proof (gen_main_cycle _ _ _ _ _ Hmain) as H12.
    destruct r2 as [x | []].
    + destruct x as [ | msg | msg | e0];
        try (intros [= <- <-]; eapply gen_cont_trans; eassumption).
      intros [= H].
      eapply gen_cont_trans; [ exact H01 | ].
      eapply gen_cont_trans; [ exact H12 | ].
      revert H. unfold bind at 1, emit, modify. intros H.
      eapply gen_cont_trans; [ | eapply gen_replica_finish; exact H ].
      apply gen_cont_same. reflexivity.
    + intros [= H]. eapply gen_cont_trans; [ exact H01 | ].
      eapply gen_cont_trans; [ exact H12 | ].
      eapply gen_replica_finish; exact H.
Qed.

Lemma gen_replicas budget fuel endTick :
  preservesP gen_cont (replicas budget fuel endTick).
Proof.
  induction budget as [ | budget IH]; intros s r s'; cbn [replicas];
    destruct (actRuns s <? numRuns s);
    try discriminate; try (intros [= <- <-]; apply gen_cont_refl).
  destruct (replica fuel endTick s) as [[[x | []] s1] | ] eqn:Hrep;
    [ | | discriminate ].
  - intros [= <- <-]. eapply gen_replica; eauto.
  - intros Hrec. eapply gen_cont_trans; [ eapply gen_replica; eauto | ].
    eapply IH; eauto.
Qed.

Lemma gen_run_epilogue (term : bool) :
  preserves gen_cont (modify (set_end true) ;; if term then endSim else ret tt).
Proof. unfold endSim, emit. keeps gen_cont_refl gen_cont_trans sim_leaf. Qed.

Lemma gen_run fuel endTick nRuns : preservesP gen_cont (run fuel endTick nRuns).
Proof.
  intros s r s'. unfold run.
  destruct (run_prologue nRuns s) as [[x | term] s1] eqn:Hpro.
  - intros [= <- <-]. eapply gen_run_prologue; eauto.
  - pose proof (gen_run_prologue _ _ _ _ Hpro) as H01.
    destruct (replicas _ fuel endTick s1) as [[[x | []] s2] | ] eqn:Hrep;
      [ | | discriminate ].
    + intros [= <- <-]. eapply gen_cont_trans; [ exact H01 | ].
      eapply gen_replicas; eauto.
    + intros [= H]. eapply gen_cont_trans; [ exact H01 | ].
      eapply gen_cont_trans; [ eapply gen_replicas; eauto | ].
      eapply gen_run_epilogue; exact H.
Qed.

(** C6.  Nothing in the driver resets or reseeds the default generator.
    [initRuns] leaves the whole event system, generator included, as it
    is.  Over one replica, and over a whole [run], the generator moves
    only by the draws client code makes: its final state is the initial
    one advanced by exactly the samples handed out, and its seed is the
    same.  The replica loop hands the state a replica ends in to the next
    replica as it is.  And a generator [init]-ed with a seed is the
    generator constructed with that seed, so both give the same samples. *)
Theorem generator_persists_across_replicas :
  (forall (n : Z) s,
      fst (initRuns n s) = inr tt /\ evs (snd (initRuns n s)) = evs s) /\
  (forall fuel endTick s r s1,
      replica fuel endTick s = Some (r, s1) -> gen_cont s s1) /\
  (forall budget fuel endTick s s1,
      actRuns s < numRuns s ->
      replica fuel endTick s = Some (inr tt, s1) ->
      replicas (S budget) fuel endTick s = replicas budget fuel endTick s1) /\
  (forall fuel endTick nRuns s r s',
      run fuel endTick nRuns s = Some (r, s') ->
      gen_cont s s' /\
      _seed (_stdgen (evs s')) = _seed (_stdgen (evs s))) /\
  (forall (seed : RandNum) (g : RandomGen) (n : nat),
      init seed g = RandomGen_new seed /\
      samples n (init seed g) = samples n (RandomGen_new seed)).
Proof.
  split; [ | split; [ | split; [ | split ] ] ].
  - intros n s. split; reflexivity.
  - intros fuel endTick s r s1 H. eapply gen_replica; exact H.
  - intros budget fuel endTick s s1 Hlt Hrep. cbn [replicas].
    destruct (Z.ltb_spec (actRuns s) (numRuns s)); [ | lia ].
    rewrite Hrep. reflexivity.
  - intros fuel endTick nRuns s r s' H.
    pose proof (gen_run _ _ _ _ _ _ H) as Hg. split; [ exact Hg | ].
    destruct Hg as (n & _ & ->). apply samples_seed.
  - intros seed g n. split; reflexivity.
Qed.
End GeneratorPersists.

(** ** The batch modes of [run] *)

Section RunModes.
Import Rand MetaSim SimSpec.
Local Open Scope sim_scope.

Implicit Types (q : EventSys) (s : Simulation) (e : EventId).

Lemma quiet_refl s : quiet s s.
Proof. repeat split. apply emits_refl. Qed.

Lemma quiet_trans s1 s2 s3 : quiet s1 s2 -> quiet s2 s3 -> quiet s1 s3.
Proof.
  intros (Hn1 & Ha1 & He1) (Hn2 & Ha2 & He2).
  repeat split; try congruence. eapply emits_trans; eassumption.
Qed.

Lemma quiet_stat_calls s s' :
  quiet s s' -> stat_calls (out s') = stat_calls (out s).
Proof.
  intros (_ & _ & l & -> & Hall). unfold stat_calls. rewrite omap_app.
  replace (omap _ l) with (@nil StatCall); [ apply app_nil_r | ].
  induction Hall as [ | o l Ho _ IH]; [ reflexivity | ].
  destruct o; cbn; try contradiction; exact IH.
Qed.

Lemma quiet_liftE {A} (m : Tick -> M EventSys A) : preserves quiet (liftE m).
Proof.
  apply (preserves_liftE (fun _ _ => True)).
  - intros s q' _. repeat split. apply emits_set_evs.
  - intros now s r s' _. exact I.
Qed.

Lemma quiet_emit (o : Obs) : no_stat o -> preserves quiet (emit o).
Proof.
  intros Ho s r s' H. repeat split; try (injection H as _ <-; reflexivity).
  eapply preserves_emit; eauto.
Qed.

Lemma quiet_setTime t : preserves quiet (setTime t).
Proof.
  intros s r s' [= <- <-]. repeat split. apply emits_set_globTime.
Qed.

Ltac quiet_leaf :=
  first [ apply quiet_liftE | apply quiet_emit; exact I | apply quiet_setTime ].

Ltac keeps_quiet leaf :=
  repeat
    lazymatch goal with
    | |- preserves _ (ret _) => apply preserves_ret; exact quiet_refl
    | |- preserves _ (gets _) => apply preserves_gets; exact quiet_refl
    | |- preserves _ (throw _) => apply preserves_throw; exact quiet_refl
    | |- preserves _ (for_each _ _) =>
        apply preserves_for_each;
        [ exact quiet_refl | exact quiet_trans | intros ? ]
    | |- preserves _ (on_exception _ _) =>
        apply preserves_on_exception; [ exact quiet_trans | | ]
    | |- preserves _ (bind _ _) =>
        apply preserves_bind; [ exact quiet_trans | | intros ? ]
    | |- preserves _ (if ?c then _ else _) => destruct c
    | |- preserves _ (match ?x with Some _ => _ | None => _ end) => destruct x
    | |- preserves _ _ => progress leaf
    end.

Lemma quiet_probe e p : preserves quiet (probe e p).
Proof. unfold probe. keeps_quiet quiet_leaf. Qed.

Lemma quiet_action e : preserves quiet (action e).
Proof.
  unfold action. keeps_quiet ltac:(first [ quiet_leaf | apply quiet_probe ]).
Qed.

Lemma quiet_sim_step : preserves quiet sim_step.
Proof.
  unfold sim_step. keeps_quiet ltac:(first [ quiet_leaf | apply quiet_action ]).
Qed.

Lemma quiet_clear_loop (n : nat) : preserves quiet (clear_loop n).
Proof.
  induction n as [ | n IH]; cbn [clear_loop];
    keeps_quiet ltac:(first [ quiet_leaf | apply IH ]).
Qed.

Lemma quiet_clearEventQueue : preserves quiet clearEventQueue.
Proof.
  unfold clearEventQueue.
  keeps_quiet ltac:(first [ quiet_leaf | apply quiet_clear_loop ]).
Qed.

Lemma quiet_callNewRun : preserves quiet callNewRun.
Proof.
  unfold callNewRun.
  keeps_quiet ltac:(first [ quiet_leaf | apply quiet_clearEventQueue ]).
Qed.

Lemma quiet_callEndRun : preserves quiet callEndRun.
Proof.
  unfold callEndRun.
  keeps_quiet ltac:(first [ quiet_leaf | apply quiet_clearEventQueue ]).
Qed.

Lemma quiet_main_cycle fuel endTick : preservesP quiet (main_cycle fuel endTick).
Proof.
  induction fuel as [ | fuel IH]; intros s r s'; cbn [main_cycle];
    [ discriminate | ].
  destruct (globTime s <? endTick).
  - destruct (sim_step s) as [[x | t] s1] eqn:Hstep.
    + intros [= <- <-]. eapply quiet_sim_step; eauto.
    + intros Hrec. eapply quiet_trans; [ eapply quiet_sim_step; eauto | ].
      eapply quiet_trans; [ | eapply IH; eauto ].
      repeat split. apply emits_set_globTime.
  - intros [= <- <-]. apply quiet_refl.
Qed.

(** The loop of [clearEventQueue] is given enough iterations: when it
    returns, the queue is empty. *)
Lemma plist_erase_length e (l : list EventId) :
  (length (plist_erase e l) <= length l)%nat.
Proof. unfold plist_erase. apply length_filter. Qed.

Lemma clear_loop_empties (n : nat) s s' :
  (length (_eventQueue (evs s)) <= n)%nat ->
  clear_loop n s = (inr tt, s') -> _eventQueue (evs s') = [].
Proof.
  revert s. induction n as [ | n IH]; intros s Hlen; cbn [clear_loop].
  - intros [= <-]. destruct (_eventQueue (evs s)); [ reflexivity | ].
    cbn in Hlen. lia.
  - unfold bind at 1, gets, getFirst.
    destruct (_eventQueue (evs s)) as [ | temp rest] eqn:Hq; cbn [head].
    + intros [= <-]. exact Hq.
    + destruct (heap (evs s) !! temp) as [ev | ] eqn:He.
      2:{ unfold bind at 1.
          rewrite (liftE_bad_pointer drop temp s (drop_bad_pointer temp) He).
          discriminate. }
      unfold bind at 1. rewrite (liftE_drop temp ev s He).
      set (s1 := set_evs (dropped temp ev (evs s)) s).
      assert (heap (evs s1) !! temp = Some (set_isInQueue false ev)) as He1
        by (cbn; apply lookup_insert_eq).
      assert (length (_eventQueue (evs s1)) <= n)%nat as Hlen1.
      { cbn. rewrite Hq, plist_erase_front.
        pose proof (plist_erase_length temp rest). cbn in Hlen. lia. }
      unfold bind at 1. rewrite (liftE_isDisposable temp _ s1 He1).
      unfold bind at 1. destruct (_disposable (set_isInQueue false ev)).
      * rewrite (liftE_destroy temp _ s1 He1). apply IH.
        cbn [evs set_evs destroyed _eventQueue].
        pose proof (plist_erase_length temp (_eventQueue (evs s1))). lia.
      * apply IH. exact Hlen1.
Qed.

Lemma clearEventQueue_empties s s' :
  clearEventQueue s = (inr tt, s') ->
  _eventQueue (evs s') = [] /\ globTime s' = 0.
Proof.
  unfold clearEventQueue. unfold bind at 1, gets. unfold bind.
  destruct (clear_loop _ s) as [[x | []] s1] eqn:Hloop; [ discriminate | ].
  intros [= <-]. split; [ | reflexivity ].
  cbn [evs set_globTime]. eapply clear_loop_empties; [ | exact Hloop ]. lia.
Qed.

Lemma quiet_calls s s' : quiet s s' -> calls [] s s'.
Proof.
  intros H. pose proof (quiet_stat_calls _ _ H) as Hs.
  destruct H as (Hn & Ha & _). repeat split; try assumption.
  rewrite app_nil_r. exact Hs.
Qed.

Lemma calls_trans d1 d2 s1 s2 s3 :
  calls d1 s1 s2 -> calls d2 s2 s3 -> calls (d1 ++ d2) s1 s3.
Proof.
  intros (Hn1 & Ha1 & Hs1) (Hn2 & Ha2 & Hs2).
  repeat split; try congruence. rewrite Hs2, Hs1, app_assoc. reflexivity.
Qed.

Lemma calls_emit_stat c s :
  emit (ObsStat c) s = (inr tt, set_out (out s ++ [ObsStat c]) s) /\
  calls [c] s (set_out (out s ++ [ObsStat c]) s).
Proof.
  split; [ reflexivity | ]. repeat split. cbn [out set_out].
  unfold stat_calls. rewrite omap_app. reflexivity.
Qed.

Lemma initSingleRun_calls s s' :
  initSingleRun s = (inr tt, s') -> calls [StatNewRun] s s'.
Proof.
  unfold initSingleRun. unfold bind at 1.
  destruct (setTime 0 s) as [[x | []] s0] eqn:H0; [ discriminate | ].
  unfold bind at 1.
  destruct (callNewRun s0) as [[x | []] s1] eqn:H1; [ discriminate | ].
  intros H2. destruct (calls_emit_stat StatNewRun s1) as [Hem Hc].
  rewrite Hem in H2. injection H2 as <-.
  change [StatNewRun] with ([] ++ [] ++ [StatNewRun]).
  eapply calls_trans; [ apply quiet_calls; eapply quiet_setTime; eauto | ].
  eapply calls_trans; [ apply quiet_calls; eapply quiet_callNewRun; eauto | ].
  exact Hc.
Qed.

Lemma endSingleRun_calls s s' :
  endSingleRun s = (inr tt, s') -> calls [StatEndRun] s s'.
Proof.
  unfold endSingleRun. unfold bind at 1.
  destruct (callEndRun s) as [[x | []] s0] eqn:H0; [ discriminate | ].
  unfold bind at 1.
  destruct (calls_emit_stat StatEndRun s0) as [Hem Hc]. rewrite Hem.
  intros H2.
  change [StatEndRun] with ([] ++ [StatEndRun] ++ []).
  eapply calls_trans; [ apply quiet_calls; eapply quiet_callEndRun; eauto | ].
  eapply calls_trans; [ exact Hc | ].
  apply quiet_calls. eapply quiet_clearEventQueue; eauto.
Qed.

(** A replica that completes calls [newRun] and [endRun] of the
    statistics engine once each and advances the run counter. *)
Lemma replica_calls fuel endTick s s' :
  replica fuel endTick s = Some (inr tt, s') ->
  numRuns s' = numRuns s /\ actRuns s' = actRuns s + 1 /\
  stat_calls (out s') = stat_calls (out s) ++ [StatNewRun; StatEndRun].
Proof.
  unfold replica. unfold bind at 1, emit at 1, modify.
  set (s0 := set_out (out s ++ [ObsRun (actRuns s)]) s).
  assert (calls [] s s0) as H00.
  { apply quiet_calls. repeat split. exists [ObsRun (actRuns s)].
    split; [ reflexivity | ]. repeat constructor. }
  destruct (initSingleRun s0) as [[x | []] s1] eqn:Hinit; [ discriminate | ].
  pose proof (initSingleRun_calls _ _ Hinit) as H01.
  destruct (main_cycle fuel endTick s1) as [[r2 s2] | ] eqn:Hmain;
    [ | discriminate ].
  pose proof (quiet_calls _ _ (quiet_main_cycle _ _ _ _ _ Hmain)) as H12.
  assert (forall s3 s4,
             calls [] s2 s3 ->
             (endSingleRun ;; modify (fun s => set_actRuns (actRuns s + 1) s)) s3
             = (inr tt, s4) ->
             numRuns s4 = numRuns s /\ actRuns s4 = actRuns s + 1 /\
             stat_calls (out s4) =
               stat_calls (out s) ++ [StatNewRun; StatEndRun]) as Hfin.
  { intros s3 s4 H23. unfold bind.
    destruct (endSingleRun s3) as [[x | []] s5] eqn:Hend; [ discriminate | ].
    intros [= <-]. pose proof (endSingleRun_calls _ _ Hend) as H35.
    pose proof (calls_trans _ _ _ _ _ H00
                  (calls_trans _ _ _ _ _ H01
                     (calls_trans _ _ _ _ _ H12
                        (calls_trans _ _ _ _ _ H23 H35)))) as (Hn & Ha & Hs).
    cbn [numRuns actRuns out set_actRuns]. repeat split; try assumption.
    rewrite Ha. reflexivity. }
  destruct r2 as [x | []].
  - destruct x; try discriminate. intros [= H]. revert H.
    unfold bind at 1, emit at 1, modify. apply Hfin.
    apply quiet_calls. repeat split. exists [ObsNoMoreEvents (globTime s2)].
    split; [ reflexivity | ]. repeat constructor.
  - intros [= H]. revert H. apply Hfin. apply quiet_calls, quiet_refl.
Qed.

Lemma replicas_calls budget fuel endTick s s' :
  actRuns s <= numRuns s ->
  replicas budget fuel endTick s = Some (inr tt, s') ->
  numRuns s' = numRuns s /\ actRuns s' = numRuns s /\
  stat_calls (out s') =
    stat_calls (out s) ++
    concat (replicate (Z.to_nat (numRuns s - actRuns s))
                      [StatNewRun; StatEndRun]).
Proof.
  revert s. induction budget as [ | budget IH]; intros s Hle; cbn [replicas];
    destruct (Z.ltb_spec (actRuns s) (numRuns s)) as [Hlt | Hge];
    try discriminate.
  - intros [= <-]. replace (numRuns s - actRuns s) with 0 by lia.
    cbn. rewrite app_nil_r. repeat split. lia.
  - destruct (replica fuel endTick s) as [[[x | []] s1] | ] eqn:Hrep;
      try discriminate.
    destruct (replica_calls _ _ _ _ Hrep) as (Hn & Ha & Hs).
    intros Hrec. assert (actRuns s1 <= numRuns s1) as Hle1 by lia.
    destruct (IH s1 Hle1 Hrec) as (Hn' & Ha' & Hs').
    repeat split; try congruence.
    rewrite Hs', Hs, Hn, Ha.
    replace (Z.to_nat (numRuns s - actRuns s))
      with (S (Z.to_nat (numRuns s - (actRuns s + 1)))) by lia.
    cbn [replicate concat]. rewrite <- app_assoc. reflexivity.
  - intros [= <-]. replace (numRuns s - actRuns s) with 0 by lia.
    cbn. rewrite app_nil_r. repeat split. lia.
Qed.

(** The head of [run], mode by mode. *)
Lemma run_prologue_mode nRuns s :
  exists s1,
    run_prologue nRuns s = (inr (snd (fst (batch_mode nRuns))), s1) /\
    numRuns s1 = snd (batch_mode nRuns) /\
    actRuns s1 = 0 /\
    1 <= numRuns s1 /\
    stat_calls (out s1) =
      stat_calls (out s) ++
      (if fst (fst (batch_mode nRuns))
       then [StatInit (snd (batch_mode nRuns))] else []).
Proof.
  unfold run_prologue, run_mode, batch_mode.
  destruct (Z.ltb_spec nRuns (-1));
    [ | destruct (Z.eqb_spec nRuns (-1));
        [ | destruct (Z.eqb_spec nRuns 0);
            [ | destruct (Z.eqb_spec nRuns 1);
                [ | destruct (Z.eqb_spec nRuns 2) ] ] ] ];
    unfold bind, emit, modify, gets, ret, initRuns, setTime;
    cbn [numRuns set_numRuns set_out out fst snd];
    try change (1 =? 2) with false; cbn iota;
    try (destruct (Z.eqb_spec nRuns 2); [ lia | ]);
    try (subst nRuns; change (2 =? 2) with true; cbn iota);
    eexists; (split; [ reflexivity | ]);
    cbn [numRuns actRuns out set_numRuns set_out set_actRuns set_end
         set_globTime];
    unfold stat_calls; rewrite ?omap_app; cbn; rewrite ?app_nil_r;
    repeat split; try reflexivity; try lia.
Qed.

(** A [run] whose replicas all complete makes the calls of its batch mode
    and leaves the run counter at the number of replicas. *)
Lemma run_batch_calls fuel endTick nRuns s s' :
  run fuel endTick nRuns s = Some (inr tt, s') ->
  stat_calls (out s') = stat_calls (out s) ++ batch_calls (batch_mode nRuns) /\
  numRuns s' = snd (batch_mode nRuns) /\
  actRuns s' = snd (batch_mode nRuns) /\
  end_ s' = true.
Proof.
  unfold run.
  destruct (run_prologue_mode nRuns s) as (s1 & -> & Hn & Ha & Hpos & Hs).
  destruct (batch_mode nRuns) as [[initializeRuns terminateSim] n].
  cbn [fst snd] in *.
  destruct (replicas (Z.to_nat (numRuns s1)) fuel endTick s1)
    as [[[x | []] s2] | ] eqn:Hrep; try discriminate.
  assert (actRuns s1 <= numRuns s1) as Hle by lia.
  destruct (replicas_calls _ _ _ _ _ Hle Hrep) as (Hn2 & Ha2 & Hs2).
  rewrite Ha, Z.sub_0_r, Hn in Hs2. rewrite Hn in *.
  unfold bind, modify, endSim, emit, ret. unfold batch_calls.
  destruct terminateSim; intros [= <-];
    cbn [out numRuns actRuns end_ set_end set_out];
    unfold stat_calls in *; rewrite ?omap_app, Hs2, Hs; cbn;
    rewrite ?app_nil_r, <- ?app_assoc; repeat split; congruence.
Qed.

(** The first run of a batch: [nRuns < -1].  The local [nRuns] is negated,
    but [initRuns] is given [numRuns], which is 1. *)
Lemma run_first_of_batch nRuns s :
  nRuns < -1 ->
  fst (run_mode nRuns s) = inr (true, false, - nRuns) /\
  batch_mode nRuns = (true, false, 1) /\
  exists s1,
    run_prologue nRuns s = (inr false, s1) /\
    numRuns s1 = 1 /\
    stat_calls (out s1) = stat_calls (out s) ++ [StatInit 1].
Proof.
  intros Hlt.
  assert (batch_mode nRuns = (true, false, 1)) as Hm.
  { unfold batch_mode. destruct (Z.ltb_spec nRuns (-1)); [ reflexivity | lia ]. }
  split; [ | split; [ exact Hm | ] ].
  - unfold run_mode. destruct (Z.ltb_spec nRuns (-1)); [ reflexivity | lia ].
  - destruct (run_prologue_mode nRuns s) as (s1 & Hp & Hn & _ & _ & Hs).
    rewrite Hm in *. cbn [fst snd] in *. exists s1. repeat split; assumption.
Qed.
End RunModes.

(** ** The scheduling instruction *)

Section SchedInstrFacts.
Import Rand MetaSim SimSpec RTSim.
Local Open Scope sim_scope.

Context {KState : Type}.
Variable onInstrEnd : TaskId -> M (Simulation * KState) unit.
Variable getKernel : TaskId -> KState -> option KernelId.
Variable is_RTKernel : KernelId -> KState -> bool.
Variable disableThreshold : KernelId -> M (Simulation * KState) unit.
Variable dispatch : KernelId -> M (Simulation * KState) unit.

Local Notation "'onEnd'" :=
  (RTSim.onEnd onInstrEnd getKernel is_RTKernel disableThreshold dispatch).
Local Notation "'father_RTKernel'" :=
  (RTSim.father_RTKernel getKernel is_RTKernel).

Implicit Types (i : SchedInstr) (w : @World KState) (s : Simulation)
         (ks : KState) (q : EventSys).

Lemma call_run (c : Call) (m : M (Simulation * KState) unit) s ks l r s' k' :
  m (s, ks) = (r, (s', k')) ->
  call c m (mkWorld s ks l) = (r, mkWorld s' k' (l ++ [c])).
Proof. intros H. unfold call. cbn [sim kst called]. rewrite H. reflexivity. Qed.

(** [process] posts the event at the current time and leaves it with its
    standard priority. *)
Lemma process_inv e disp now q q' :
  process e disp now q = (inr tt, q') ->
  exists ev',
    heap q' !! e = Some ev' /\ _time ev' = now /\ _isInQueue ev' = true /\
    _priority ev' = _std_priority ev' /\ e ∈ _eventQueue q'.
Proof.
  unfold process. unfold bind at 1. unfold setPriority, bind at 1, deref.
  destruct (heap q !! e) as [ev | ] eqn:He; [ | discriminate ].
  unfold store, modify. unfold bind at 1.
  destruct (post e now disp now _) as [[x | []] q2] eqn:Hp; [ discriminate | ].
  apply post_inv in Hp as (ev1 & He1 & _ & _ & ->). cbv zeta.
  unfold restorePriority, bind, deref. cbn [heap].
  rewrite lookup_insert_eq. intros [= <-]. cbn [heap set_heap _eventQueue].
  eexists. split; [ apply lookup_insert_eq | ]. cbn.
  repeat split. apply elem_of_plist_insert. left. reflexivity.
Qed.

End SchedInstrFacts.

(** ** The periodic-task factory *)

Section PeriodicTaskFacts.
Import Rand MetaSim RTSim.

Variable Tick_of_string : string -> Tick.
Variable atoi : string -> Z.

Local Notation "'createInstance'" :=
  (RTSim.createInstance Tick_of_string atoi).

(** C9.  [createInstance] reads [par[0]], [par[1]], [par[2]] without any
    test, and [par[3]] exactly when [par.size() > 2].  The read of
    [par[3]] is within bounds only for four parameters or more: called
    with exactly three, the factory reads the three in bounds and then
    [par[3]] out of bounds. *)
Theorem createInstance_reads (par : list string) :
  let r := fst (createInstance par []) in
  let reads := snd (createInstance par []) in
  ((length par < 3)%nat ->
   r = OutOfBounds (length par) /\ reads = seq 0 (S (length par))) /\
  (length par = 3%nat -> r = OutOfBounds 3 /\ reads = [0; 1; 2; 3]%nat) /\
  ((4 <= length par)%nat ->
   (exists task, r = Ok task /\ par !! 3%nat = Some (name task)) /\
   reads = [0; 1; 2; 3]%nat ++
           (if (4 <? length par)%nat then [4%nat] else []) ++
           (if (5 <? length par)%nat then [5%nat] else [])) /\
  (3%nat ∈ reads <-> (2 < length par)%nat) /\
  (is_Some (par !! 3%nat) <-> (4 <= length par)%nat).
Proof.
  destruct par as [ | p0 [ | p1 [ | p2 [ | p3 [ | p4 [ | p5 rest ] ] ] ] ] ];
    cbn -[seq]; (split; [ | split; [ | split; [ | split ] ] ]);
    try (intros H; exfalso; cbn in H; lia);
    try (intros _; split; reflexivity);
    try (intros _; split; [ eexists; split; reflexivity | reflexivity ]);
    try (split; intros H; cbn in *;
         first [ lia
               | exfalso; lia
               | destruct H as [? H]; discriminate H
               | eexists; reflexivity
               | set_solver ]).
Qed.
End PeriodicTaskFacts.

(** ** The statements at work on small simulations *)

Section Witnesses.
Import Rand MetaSim SimSpec RTSim Scenarios.

Lemma wf_two_events : wf two_events.
Proof.
  apply wf_empty. intros e ev He.
  apply lookup_insert_Some in He as [[_ <-] | [_ He]]; [ reflexivity | ].
  apply lookup_singleton_Some in He as [_ <-]. reflexivity.
Qed.

Lemma wf_A_posted : wf A_posted.
Proof.
  apply (post_wf A 10 false 0 two_events); [ exact wf_two_events | ].
  vm_compute. reflexivity.
Qed.

Lemma wf_AB_posted : wf AB_posted.
Proof.
  apply (post_wf B 10 false 0 A_posted); [ exact wf_A_posted | ].
  vm_compute. reflexivity.
Qed.

Lemma action_probes_read_firing_time_witness :
  exists s' ev',
    action A reposting_fired = (inr tt, s') /\
    heap (evs s') !! A = Some ev' /\
    _time ev' = 20 /\ _lastTime ev' = 10 /\
    out s' = out reposting_fired ++ [ObsProbe stat A 20 10].
Proof.
  apply (proj1 (proj2 action_probes_read_firing_time) reposting_fired A
               (set_isInQueue false reposting_queued) 20 false).
  - vm_compute. reflexivity.
  - reflexivity.
  - vm_compute. discriminate.
Defined.




Lemma run_to_spec_witness :
  exists s1,
    run_to_steps 100 (sim_of [] AB_posted) s1 /\ run_to_exit 100 s1 /\
    100 = Z.max (globTime s1) 100 /\ 100 <= 100 /\
    horizon_done = run_to_final 100 s1 /\ globTime horizon_done = 100.
Proof.
  apply (proj1 run_to_spec 5%nat 100 (sim_of [] AB_posted) 100 horizon_done).
  vm_compute. reflexivity.
Defined.

Lemma generator_persists_across_replicas_witness :
  gen_cont jitter_sim jitter_done /\
  _seed (_stdgen (evs jitter_done)) = _seed (_stdgen (evs jitter_sim)).
Proof.
  apply (proj1 (proj2 (proj2 (proj2 generator_persists_across_replicas)))
               50%nat 10 3 jitter_sim (inr tt) jitter_done).
  vm_compute. reflexivity.
Defined.


Lemma createInstance_reads_witness :
  fst (createInstance (fun _ => 0) (fun _ => 0) ["10"; "10"; "0"]%string [])
    = OutOfBounds 3 /\
  snd (createInstance (fun _ => 0) (fun _ => 0) ["10"; "10"; "0"]%string [])
    = [0; 1; 2; 3]%nat.
Proof.
  apply (proj1 (proj2 (createInstance_reads (fun _ => 0) (fun _ => 0)
                         ["10"; "10"; "0"]%string))).
  reflexivity.
Defined.

(** C5 (what the code does on the first run of a batch).  [run(100, -5)]
    on a simulation with no event runs one replica, does not terminate
    the simulation, and initialises the statistics for 1 run, not for the
    5 that [nRuns] was negated to. *)
Theorem run_first_of_batch_inits_for_one_run :
  run 1 100 (-5) idle = Some (inr tt, first_of_batch) /\
  stat_calls (out first_of_batch) = [StatInit 1; StatNewRun; StatEndRun] /\
  fst (run_mode (-5) idle) = inr (true, false, 5) /\
  numRuns first_of_batch = 1 /\ actRuns first_of_batch = 1.
Proof. vm_compute. repeat split. Qed.

(** *** The scenarios of the specification *)

(** S1: [A] then [B], posted in this order for time 10 with the default
    priority, fire in this order; then the queue is empty and the clock
    reads 10. *)
Example scenario_fifo :
  _eventQueue AB_posted = [A; B] /\
  executed (out AB_stepped) = [(A, 10); (B, 10)] /\
  _eventQueue (evs AB_stepped) = [] /\
  globTime AB_stepped = 10.
Proof. vm_compute. repeat split. Qed.

(** S2: with [B] of priority 0, [B] is in front of [A]. *)
Example scenario_priority : _eventQueue urgent_B_posted = [B; A].
Proof. vm_compute. reflexivity. Qed.

(** S3: the handler of [A], fired at 10, re-posts [A] at 20; the probe
    reads the last time 10 while the time already is 20. *)
Example scenario_repost :
  fst (sim_step reposting_posted) = inr 10 /\
  out (snd (sim_step reposting_posted))
    = [ObsExec A 10; ObsProbe stat A 20 10] /\
  _eventQueue (evs (snd (sim_step reposting_posted))) = [A].
Proof. vm_compute. repeat split. Qed.

(** S6: three replicas of length 100 of an event that re-posts itself
    every 7 ticks.  The main cycle tests the clock, not the time of the
    next event: a replica executes the event at 0, 7, ..., 98 and, the
    clock then reading 98, once more at 105. *)
Example scenario_replicas :
  run 20 100 3 every_7 = Some (inr tt, every_7_done) /\
  map snd (executed (out every_7_done))
    = let one := map (fun k => 7 * Z.of_nat k) (seq 0 16) in
      one ++ one ++ one.
Proof. vm_compute. repeat split. Qed.
End Witnesses.

(* ===================================================================== *)
(** * Further properties                                                  *)
(* ===================================================================== *)

(** ** The generator as a multiplication modulo [M] *)

Section RandomGenStream.
Import Rand.

Implicit Types (g : RandomGen) (n : nat).

(** Schrage's decomposition: the raw step is [A * x] up to a multiple of
    [M]. *)
Lemma raw_step_congr (x : Z) : raw_step x mod M = (A * x) mod M.
Proof.
  unfold raw_step, A, R, M, Q.
  replace (16807 * x)
    with (16807 * Z.rem x 127773 - 2836 * Z.quot x 127773
          + Z.quot x 127773 * 2147483647)
    by (Z.to_euclidean_division_equations; lia).
  rewrite Z.mod_add by lia. reflexivity.
Qed.

Lemma sample_mul g :
  0 <= _xn g < M -> fst (sample g) = (A * _xn g) mod M.
Proof.
  intros Hx. rewrite <- raw_step_congr.
  change (raw_step (_xn g) mod M) with (park_miller_trunc (_xn g)).
  apply sample_is_mod_iff.
  pose proof (raw_step_bounds (_xn g)) as Hb. unfold M in *. lia.
Qed.

(** [A] is invertible modulo [M]: its inverse is 1407677000. *)
Lemma mul_A_undone (x : Z) :
  0 <= x < M -> (1407677000 * ((A * x) mod M)) mod M = x.
Proof.
  intros Hx. rewrite Z.mul_mod_idemp_r by (unfold M; lia).
  rewrite Z.mul_assoc, <- Z.mul_mod_idemp_l by (unfold M; lia).
  change ((1407677000 * A) mod M) with 1.
  rewrite Z.mul_1_l. apply Z.mod_small. exact Hx.
Qed.

Lemma sample_positive g : 0 < _xn g < M -> 0 < fst (sample g) < M.
Proof.
  intros Hx. rewrite sample_mul by lia.
  pose proof (Z.mod_pos_bound (A * _xn g) M ltac:(unfold M; lia)) as Hb.
  destruct (Z.eq_dec ((A * _xn g) mod M) 0) as [Hz | Hnz]; [ | lia ].
  pose proof (mul_A_undone (_xn g) ltac:(lia)) as Hu.
  rewrite Hz in Hu. change ((1407677000 * 0) mod M) with 0 in Hu. lia.
Qed.

Lemma sample_injective g g' :
  0 <= _xn g < M -> 0 <= _xn g' < M ->
  fst (sample g) = fst (sample g') -> _xn g = _xn g'.
Proof.
  intros Hx Hy. rewrite !sample_mul by assumption. intros Heq.
  rewrite <- (mul_A_undone (_xn g) Hx), <- (mul_A_undone (_xn g') Hy), Heq.
  reflexivity.
Qed.

Lemma samples_S n g :
  samples (S n) g =
    (fst (sample g) :: fst (samples n (snd (sample g))),
     snd (samples n (snd (sample g)))).
Proof.
  cbn [samples]. destruct (sample g) as [v g1]. cbn [fst snd].
  destruct (samples n g1) as [vs g2]. reflexivity.
Qed.

(** [sample] reads nothing but [_xn]. *)
Lemma sample_reads_xn g g' :
  _xn g = _xn g' ->
  fst (sample g) = fst (sample g') /\
  _xn (snd (sample g)) = _xn (snd (sample g')).
Proof. intros H. unfold sample. cbn. rewrite H. split; reflexivity. Qed.

Lemma samples_read_xn n g g' :
  _xn g = _xn g' ->
  fst (samples n g) = fst (samples n g') /\
  _xn (snd (samples n g)) = _xn (snd (samples n g')).
Proof.
  revert g g'. induction n as [ | n IH]; intros g g' H.
  - split; [ reflexivity | exact H ].
  - rewrite !samples_S. cbn [fst snd].
    destruct (sample_reads_xn g g' H) as [Hv Hx].
    destruct (IH _ _ Hx) as [Hvs Hxs]. rewrite Hv, Hvs. split; congruence.
Qed.

(** X1.  Seeded in [1, M-1], the generator stays there: every sample is
    in [1, M-1], none is 0 and none is [M], and so is the state it leaves.
    Seeded with 0, or with [M], it is stuck: every sample it returns is
    0. *)
Theorem samples_stay_in_range :
  (forall n g,
      0 < _xn g < M ->
      Forall (fun v => 0 < v < M) (fst (samples n g)) /\
      0 < getCurrSeed (snd (samples n g)) < M) /\
  (forall n g,
      _xn g = 0 \/ _xn g = M ->
      Forall (fun v => v = 0) (fst (samples n g))).
Proof.
  unfold getCurrSeed. split.
  - induction n as [ | n IH]; intros g Hx.
    + split; [ constructor | exact Hx ].
    + rewrite samples_S. cbn [fst snd].
      pose proof (sample_positive g Hx) as Hv.
      destruct (IH (snd (sample g))) as [Hall Hlast]; [ exact Hv | ].
      split; [ constructor; assumption | exact Hlast ].
  - induction n as [ | n IH]; intros g Hx; [ constructor | ].
    rewrite samples_S. cbn [fst].
    assert (fst (sample g) = 0) as Hz
      by (unfold sample; cbn; destruct Hx as [-> | ->]; reflexivity).
    constructor; [ exact Hz | ].
    apply IH. left. exact Hz.
Qed.

(** X2.  [sample] merges no two states: two generators seeded differently
    in [1, M-1] are in different states after any number of draws, and the
    values they return at the same position differ. *)
Theorem distinct_seeds_never_meet n g g' :
  0 < _xn g < M -> 0 < _xn g' < M -> _xn g <> _xn g' ->
  getCurrSeed (snd (samples n g)) <> getCurrSeed (snd (samples n g')) /\
  fst (sample (snd (samples n g))) <> fst (sample (snd (samples n g'))).
Proof.
  unfold getCurrSeed. revert g g'.
  assert (forall g g', 0 < _xn g < M -> 0 < _xn g' < M -> _xn g <> _xn g' ->
                       fst (sample g) <> fst (sample g')) as Hstep.
  { intros g g' Hx Hy Hne Heq. apply Hne.
    apply sample_injective; [ lia | lia | exact Heq ]. }
  induction n as [ | n IH]; intros g g' Hx Hy Hne.
  - split; [ exact Hne | apply Hstep; assumption ].
  - rewrite !samples_S. cbn [snd].
    apply IH; try (apply sample_positive; assumption).
    apply (Hstep g g'); assumption.
Qed.

(** X3.  [getCurrSeed] is a checkpoint: a generator constructed from, or
    initialised with, the current seed of another returns the values the
    other one goes on to return, however the other was seeded. *)
Theorem getCurrSeed_resumes n g g' :
  fst (samples n (RandomGen_new (getCurrSeed g))) = fst (samples n g) /\
  fst (samples n (init (getCurrSeed g) g')) = fst (samples n g).
Proof.
  split; apply samples_read_xn; reflexivity.
Qed.
End RandomGenStream.

(** ** Extreme values of a deterministic variable *)

Section DetVarExtremaFacts.
Import Rand SimSpec.
Context {double : Type}.
Variable zero : double.
Variable gt lt : double -> double -> bool.

(** What the comparisons of [double] satisfy, [NaN] included. *)
Hypothesis gt_irrefl : forall x, gt x x = false.
Hypothesis gt_trans :
  forall x y z, gt x y = true -> gt y z = true -> gt x z = true.
Hypothesis lt_irrefl : forall x, lt x x = false.
Hypothesis lt_trans :
  forall x y z, lt x y = true -> lt y z = true -> lt x z = true.

Implicit Types (a : list double) (v : @DetVar double).

Lemma scan_fold (better : double -> double -> bool) a :
  Z.of_nat (length a) < UINT_MOD ->
  forall (fuel k : nat) (best : double),
    (k <= length a)%nat -> (length a - k < fuel)%nat ->
    scan better fuel a (Z.of_nat k) best =
      Some (Value (fold_left (keep_best better) (drop k a) best)).
Proof.
  intros Hlen. induction fuel as [ | fuel IH]; intros k best Hk Hfuel;
    [ lia | ].
  cbn [scan]. destruct (Z.ltb_spec (Z.of_nat k) (Z.of_nat (length a)))
    as [Hlt | Hge].
  - destruct (at_index_in_range a (Z.of_nat k) ltac:(lia))
      as (x & Hx & ->).
    rewrite Nat2Z.id in Hx.
    rewrite Z.mod_small by (unfold UINT_MOD in *; lia).
    replace (Z.of_nat k + 1) with (Z.of_nat (S k)) by lia.
    rewrite IH by lia.
    rewrite (drop_S a x k Hx). reflexivity.
  - rewrite drop_ge by lia. reflexivity.
Qed.

Lemma fold_best (better : double -> double -> bool) :
  (forall x, better x x = false) ->
  (forall x y z, better x y = true -> better y z = true ->
                 better x z = true) ->
  forall (l : list double) (best : double),
    let m := fold_left (keep_best better) l best in
    (m = best \/ m ∈ l) /\
    (forall y, better y best = false -> better y m = false) /\
    (forall x, x ∈ l -> better x m = false).
Proof.
  intros Hirr Htr. induction l as [ | x l IH]; intros best; cbn zeta.
  - cbn. split; [ left; reflexivity | ]. split; [ tauto | ].
    intros x Hx. inversion Hx.
  - cbn [fold_left].
    destruct (IH (keep_best better best x)) as (Hm & Hup & Hall).
    set (m := fold_left (keep_best better) l (keep_best better best x)) in *.
    assert (forall y, better y best = false ->
                      better y (keep_best better best x) = false) as Hb.
    { intros y Hy. unfold keep_best. destruct (better x best) eqn:Hxb;
        [ | exact Hy ].
      destruct (better y x) eqn:Hyx; [ | reflexivity ].
      rewrite (Htr _ _ _ Hyx Hxb) in Hy. discriminate. }
    split; [ | split ].
    + destruct Hm as [-> | Hm]; [ | right; right; exact Hm ].
      unfold keep_best. destruct (better x best);
        [ right; left | left ]; reflexivity.
    + intros y Hy. apply Hup, Hb, Hy.
    + intros y Hy. apply elem_of_cons in Hy as [-> | Hy];
        [ | apply Hall; exact Hy ].
      apply Hup. unfold keep_best. destruct (better x best) eqn:Hxb;
        [ apply Hirr | exact Hxb ].
Qed.

(** The scan of a non-empty array from its first element. *)
Lemma scan_extremum (better : double -> double -> bool) x0 rest :
  (forall x, better x x = false) ->
  (forall x y z, better x y = true -> better y z = true ->
                 better x z = true) ->
  Z.of_nat (length (x0 :: rest)) < UINT_MOD ->
  exists m,
    scan better (length (x0 :: rest)) (x0 :: rest) 1 x0 = Some (Value m) /\
    m ∈ x0 :: rest /\
    forall x, x ∈ x0 :: rest -> better x m = false.
Proof.
  intros Hirr Htr Hlen.
  change 1 with (Z.of_nat 1).
  rewrite (scan_fold better (x0 :: rest) Hlen) by (cbn; lia).
  change (drop 1 (x0 :: rest)) with rest.
  destruct (fold_best better Hirr Htr rest x0) as (Hm & Hup & Hall).
  eexists. split; [ reflexivity | ]. split.
  - destruct Hm as [-> | Hm]; [ left | right; exact Hm ].
  - intros x Hx. apply elem_of_cons in Hx as [-> | Hx].
    + apply Hup, Hirr.
    + apply Hall, Hx.
Qed.

Lemma get_value_in_array v x :
  fst (get v) = Value x -> x ∈ _array v.
Proof.
  unfold get. cbn [fst]. unfold at_index.
  destruct ((0 <=? _) && (_ <? _)); [ | discriminate ].
  destruct (_array v !! _) as [y | ] eqn:Hy; [ | discriminate ].
  intros [= <-]. eapply list_elem_of_lookup_2. exact Hy.
Qed.

Lemma kth_get_in_array (k : nat) v x :
  kth_get k v = Value x -> x ∈ _array v.
Proof.
  revert v. induction k as [ | k IH]; intros v; [ discriminate | ].
  destruct k as [ | k].
  - apply get_value_in_array.
  - change (kth_get (S (S k)) v) with (kth_get (S k) (snd (get v))).
    intros H. apply IH in H. exact H.
Qed.

(** X4.  On an array of fewer than [2^32] elements [getMaximum] and
    [getMinimum] return once the loop has gone through the array.  For
    the empty array both return 0; otherwise [getMaximum] returns an
    element of the array that no element is greater than, and
    [getMinimum] one that no element is less than. *)
Theorem DetVar_extrema v :
  size v < UINT_MOD ->
  exists mx mn,
    getMaximum zero gt (length (_array v)) v = Some (Value mx) /\
    getMinimum zero lt (length (_array v)) v = Some (Value mn) /\
    (_array v = [] -> mx = zero /\ mn = zero) /\
    (_array v <> [] -> mx ∈ _array v /\ mn ∈ _array v) /\
    (forall x, x ∈ _array v -> gt x mx = false /\ lt x mn = false).
Proof.
  unfold size, getMaximum, getMinimum. intros Hlen.
  destruct (_array v) as [ | x0 rest] eqn:Ha.
  - exists zero, zero. repeat split; try reflexivity; try congruence;
      inversion H.
  - destruct (scan_extremum gt x0 rest gt_irrefl gt_trans Hlen)
      as (mx & -> & Hmx & Hgt).
    destruct (scan_extremum lt x0 rest lt_irrefl lt_trans Hlen)
      as (mn & -> & Hmn & Hlt).
    exists mx, mn. repeat split; try assumption; try discriminate.
    + apply Hgt. exact H.
    + apply Hlt. exact H.
Qed.

(** X5.  No value that [get] ever returns is greater than what
    [getMaximum] returns, or less than what [getMinimum] returns,
    whatever the position the replay has reached. *)
Theorem DetVar_get_within_extrema v (k : nat) x mx mn :
  getMaximum zero gt (length (_array v)) v = Some (Value mx) ->
  getMinimum zero lt (length (_array v)) v = Some (Value mn) ->
  size v < UINT_MOD ->
  kth_get k v = Value x ->
  gt x mx = false /\ lt x mn = false.
Proof.
  unfold size, getMaximum, getMinimum. intros Hmx Hmn Hlen Hget.
  apply kth_get_in_array in Hget.
  destruct (_array v) as [ | x0 rest] eqn:Ha; [ inversion Hget | ].
  destruct (scan_extremum gt x0 rest gt_irrefl gt_trans Hlen)
    as (mx' & Hmx' & _ & Hgt).
  destruct (scan_extremum lt x0 rest lt_irrefl lt_trans Hlen)
    as (mn' & Hmn' & _ & Hlt).
  rewrite Hmx in Hmx'. rewrite Hmn in Hmn'.
  injection Hmx' as <-. injection Hmn' as <-.
  split; [ apply Hgt | apply Hlt ]; exact Hget.
Qed.
End DetVarExtremaFacts.

(** ** The default generator and the factories *)

Section GeneratorStore.
Import Rand SimSpec.

Implicit Types (st : GenStore) (p : GenPtr).

Lemma gen_at_put_ne p p' g st :
  p <> p' -> gen_at p' (gen_put p g st) = gen_at p' st.
Proof.
  intros Hne. destruct p as [ | | i], p' as [ | | j]; cbn; try reflexivity;
    try congruence.
  apply lookup_insert_ne. congruence.
Qed.

Lemma gen_put_pstdgen p g st : _pstdgen (gen_put p g st) = _pstdgen st.
Proof. destruct p; reflexivity. Qed.

(** X6.  [changeGenerator] returns the generator that was the default, so
    that giving it back to [changeGenerator] undoes the change, whereas
    [restoreGenerator] reinstalls [&_stdgen] whatever was installed
    before; a variable constructed without a generator takes the default
    of that moment.  Generators do not interfere: drawing from one, or
    reseeding the default one with [RandomVar::init], leaves every other
    generator in its state. *)
Theorem default_generator_switch :
  (forall p st,
      let '(old, st1) := changeGenerator p st in
      old = _pstdgen st /\ RandomVar_new NullGen st1 = p /\
      snd (changeGenerator old st1) = st) /\
  (forall p p' st,
      _pstdgen (restoreGenerator
                  (snd (changeGenerator p' (snd (changeGenerator p st)))))
      = StdGen) /\
  (forall p p' st v st1,
      sample_at p st = Some (v, st1) -> p' <> p ->
      gen_at p' st1 = gen_at p' st /\ _pstdgen st1 = _pstdgen st) /\
  (forall s p' st st1,
      RandomVar_init s st = Some st1 -> p' <> _pstdgen st ->
      gen_at p' st1 = gen_at p' st /\ _pstdgen st1 = _pstdgen st).
Proof.
  repeat split.
  - destruct st; reflexivity.
  - unfold sample_at in H. destruct (gen_at p st) as [g | ]; [ | discriminate ].
    destruct (sample g) as [v' g']. injection H as _ <-.
    apply gen_at_put_ne. congruence.
  - unfold sample_at in H. destruct (gen_at p st) as [g | ]; [ | discriminate ].
    destruct (sample g) as [v' g']. injection H as _ <-.
    apply gen_put_pstdgen.
  - unfold RandomVar_init in H.
    destruct (gen_at (_pstdgen st) st) as [g | ]; [ | discriminate ].
    injection H as <-. apply gen_at_put_ne. congruence.
  - unfold RandomVar_init in H.
    destruct (gen_at (_pstdgen st) st) as [g | ]; [ | discriminate ].
    injection H as <-. apply gen_put_pstdgen.
Qed.

Section FactoryFacts.
Context {double : Type}.
Variable atof : string -> double.

Ltac arity_tac :=
  intros par; split; intros Hlen;
  [ destruct par as [ | p0 [ | p1 [ | p2 par ] ] ]; cbn in *;
    try congruence; eexists; eexists; reflexivity
  | destruct par as [ | p0 [ | p1 [ | p2 par ] ] ]; cbn in *;
    try discriminate; eexists; reflexivity ].

(** X7.  Every factory of a random variable checks the number of its
    parameters before it reads any: it raises [ParseExc] exactly when the
    number is not the one it expects, and otherwise makes its object, so
    that it never reads [par] outside its bounds. *)
Theorem factories_check_arity :
  checks_arity 1 (DeltaVar_createInstance atof) /\
  checks_arity 2 (UniformVar_createInstance atof) /\
  checks_arity 1 (ExponentialVar_createInstance atof) /\
  checks_arity 2 (ParetoVar_createInstance atof) /\
  checks_arity 2 (NormalVar_createInstance atof) /\
  checks_arity 1 (PoissonVar_createInstance atof).
Proof.
  unfold checks_arity.
  repeat lazymatch goal with |- _ /\ _ => split end; arity_tac.
Qed.
End FactoryFacts.

Section PoissonFacts.
Context {double : Type}.
Variable of_int : Z -> double.
Variables fadd fsub fmul fdiv : double -> double -> double.
Variable fneg : double -> double.
Variable fexp : double -> double.
Variable flt : double -> double -> bool.

Local Notation loop := (poisson_loop of_int fadd fmul fdiv flt).

Lemma poisson_loop_range (fuel : nat) (l u : double) (i : Z) (F S : double) :
  1 <= i <= CUTOFF ->
  CUTOFF - i < Z.of_nat fuel ->
  exists k, loop fuel l u i F S = Some k /\
            (i - 1 <= k < CUTOFF - 1 \/ k = CUTOFF).
Proof.
  revert i F S. induction fuel as [ | fuel IH]; intros i F S Hi Hfuel;
    [ cbn in Hfuel; lia | ].
  cbn [poisson_loop]. destruct (Z.ltb_spec i CUTOFF) as [Hlt | Hge].
  - assert (CUTOFF < UINT_MOD) as Hc by reflexivity.
    destruct (flt u S).
    + exists ((i - 1) mod UINT_MOD). split; [ reflexivity | ].
      rewrite Z.mod_small by lia. left. lia.
    + rewrite (Z.mod_small (i + 1)) by lia.
      destruct (IH (i + 1) (fdiv (fmul F l) (of_int i))
                   (fadd S (fdiv (fmul F l) (of_int i))))
        as (k & Hk & Hr); [ lia | lia | ].
      exists k. split; [ exact Hk | ]. lia.
  - exists CUTOFF. split; [ reflexivity | ]. right. reflexivity.
Qed.

(** X25.  [PoissonVar::get] always returns: it draws one sample from the
    generator of the variable, and its loop ends within [CUTOFF] tests.
    The value is an integer from 0 to [CUTOFF - 2] or [CUTOFF] itself;
    [CUTOFF - 1] is never returned, whatever the floating-point
    operations give. *)
Theorem PoissonVar_get_range (l : double) p st g :
  gen_at p st = Some g ->
  exists k,
    PoissonVar_get of_int fadd fsub fmul fdiv fneg fexp flt
                   (Z.to_nat CUTOFF) l p st
    = Some (k, gen_put p (snd (sample g)) st) /\
    (0 <= k < CUTOFF - 1 \/ k = CUTOFF) /\
    k <> CUTOFF - 1.
Proof.
  intros Hg. unfold PoissonVar_get, UniformVar_get, sample_at.
  rewrite Hg. destruct (sample g) as [v g'] eqn:Hs. cbn [snd].
  set (u := fadd _ _). set (F := fexp _).
  destruct (poisson_loop_range (Z.to_nat CUTOFF) l u 1 F F)
    as (k & Hk & Hr).
  - unfold CUTOFF. lia.
  - unfold CUTOFF. lia.
  - exists k. rewrite Hk. split; [ reflexivity | ].
    unfold CUTOFF in *. split; lia.
Qed.
End PoissonFacts.
End GeneratorStore.

(** ** The clock never goes back *)

Section MoreOnTheEngine.
Import Rand MetaSim SimSpec.
Local Open Scope sim_scope.

Implicit Types (q : EventSys) (s : Simulation) (e temp : EventId)
         (ev : Event) (h : gmap EventId Event) (l : list EventId)
         (now : Tick).

(** *** The order in which events are due *)

Lemma due_before_trans h a b c :
  due_before h a b -> due_before h b c -> due_before h a c.
Proof.
  unfold due_before.
  destruct (h !! a), (h !! b), (h !! c); try tauto. lia.
Qed.

Lemma due_before_same h h' a b :
  h' !! a = h !! a -> h' !! b = h !! b ->
  due_before h a b -> due_before h' a b.
Proof. unfold due_before. intros -> ->. tauto. Qed.

(** Where the comparator puts an event is where it is due. *)
Lemma Cmp_due (x y : Event) :
  (Cmp x y = true -> _time x <= _time y) /\
  (Cmp x y = false -> _time y <= _time x).
Proof.
  unfold Cmp.
  destruct (Z.ltb_spec (_time x) (_time y));
    destruct (Z.eqb_spec (_time x) (_time y));
    split; intros Hc; try discriminate Hc; lia.
Qed.

Lemma plist_insert_sorted_le (lt : EventId -> EventId -> bool)
      (le : EventId -> EventId -> Prop) e l :
  (forall a b c, le a b -> le b c -> le a c) ->
  (forall x, x ∈ l -> lt e x = true -> le e x) ->
  (forall x, x ∈ l -> lt e x = false -> le x e) ->
  StronglySorted le l -> StronglySorted le (plist_insert lt e l).
Proof.
  intros Htr Hlt Hge Hs.
  induction Hs as [ | y l Hs IH Hall]; cbn [plist_insert].
  - repeat constructor.
  - rewrite Forall_forall in Hall.
    destruct (lt e y) eqn:Hey.
    + assert (le e y) as Hle by (apply Hlt; [ left | exact Hey ]).
      constructor; [ constructor; [ exact Hs | ] | ].
      * apply Forall_forall. exact Hall.
      * constructor; [ exact Hle | ].
        apply Forall_forall. intros z Hz. eapply Htr; [ exact Hle | ].
        apply Hall, Hz.
    + constructor.
      * apply IH; intros x Hx; [ apply Hlt | apply Hge ]; right; exact Hx.
      * apply Forall_forall. intros z Hz.
        apply elem_of_plist_insert in Hz as [-> | Hz].
        -- apply Hge; [ left | exact Hey ].
        -- apply Hall, Hz.
Qed.

(** *** What keeps an event system on time *)

Lemma timely_mono now now' q : now' <= now -> timely now q -> timely now' q.
Proof.
  intros Hle [Hs Hq Hf]. constructor; try assumption.
  intros e He. destruct (Hq e He) as (ev & Hl & Hfl & Ht).
  exists ev. repeat split; try assumption. lia.
Qed.

Lemma timely_not_queued now q e ev :
  timely now q -> heap q !! e = Some ev -> _isInQueue ev = false ->
  e ∉ _eventQueue q.
Proof.
  intros Ht He Hq Hin.
  destruct (timely_queued now q Ht e Hin) as (ev' & He' & Hq' & _).
  congruence.
Qed.

(** A store that changes neither the time nor the flag of the event. *)
Lemma timely_store now q e ev ev' :
  timely now q -> heap q !! e = Some ev ->
  _time ev' = _time ev -> _isInQueue ev' = _isInQueue ev ->
  timely now (set_heap (<[e := ev']> (heap q)) q).
Proof.
  intros [Hs Hq Hf] He Ht Hfl.
  assert (forall a b, due_before (heap q) a b ->
                      due_before (<[e := ev']> (heap q)) a b) as Hdue.
  { intros a b. unfold due_before.
    destruct (decide (a = e)) as [-> | Ha];
      destruct (decide (b = e)) as [-> | Hb];
      rewrite ?lookup_insert_eq, ?lookup_insert_ne, ?He by congruence;
      rewrite ?Ht; tauto. }
  constructor; cbn [heap _eventQueue set_heap].
  - eapply StronglySorted_impl_in; [ | exact Hs ].
    intros a b _ _. apply Hdue.
  - intros x Hx. destruct (Hq x Hx) as (evx & Hl & Hflx & Htx).
    destruct (decide (x = e)) as [-> | Hne].
    + exists ev'. rewrite lookup_insert_eq.
      rewrite He in Hl. injection Hl as <-.
      repeat split; congruence.
    + exists evx. rewrite lookup_insert_ne by congruence. tauto.
  - intros x evx Hx Hflx. destruct (decide (x = e)) as [-> | Hne].
    + rewrite lookup_insert_eq in Hx. injection Hx as <-.
      apply (Hf e ev He). congruence.
    + rewrite lookup_insert_ne in Hx by congruence. eapply Hf; eauto.
Qed.

Lemma timely_post now e t disp q q' :
  timely now q -> post e t disp now q = (inr tt, q') -> timely now q'.
Proof.
  intros Ht Hp. apply post_inv in Hp as (ev & He & Hle & Hfl & ->).
  cbv zeta.
  set (ev' := set_isInQueue true (set_disposable disp
                (set_time t (set_order (counter q + 1) ev)))).
  set (h' := <[e := ev']> (heap q)).
  pose proof (timely_not_queued now q e ev Ht He Hfl) as Hnin.
  destruct Ht as [Hs Hq Hf].
  assert (forall x, x ∈ _eventQueue q -> h' !! x = heap q !! x) as Hsame.
  { intros x Hx. unfold h'. apply lookup_insert_ne. intros ->. tauto. }
  assert (h' !! e = Some ev') as He' by apply lookup_insert_eq.
  constructor; cbn [heap _eventQueue].
  - apply plist_insert_sorted_le.
    + apply due_before_trans.
    + intros x Hx. unfold Cmp_ptr, due_before. rewrite He', (Hsame x Hx).
      destruct (Hq x Hx) as (evx & -> & _). apply Cmp_due.
    + intros x Hx. unfold Cmp_ptr, due_before. rewrite He', (Hsame x Hx).
      destruct (Hq x Hx) as (evx & -> & _). apply Cmp_due.
    + eapply StronglySorted_impl_in; [ | exact Hs ].
      intros a b Ha Hb. apply due_before_same; apply Hsame; assumption.
  - intros x Hx. apply elem_of_plist_insert in Hx as [-> | Hx].
    + exists ev'. repeat split; [ exact He' | exact Hle ].
    + rewrite (Hsame x Hx). apply Hq, Hx.
  - intros x evx Hx Hflx. apply elem_of_plist_insert.
    destruct (decide (x = e)) as [-> | Hne]; [ left; reflexivity | right ].
    unfold h' in Hx. rewrite lookup_insert_ne in Hx by congruence.
    eapply Hf; eauto.
Qed.

Lemma timely_dropped now q e ev :
  timely now q -> heap q !! e = Some ev -> timely now (dropped e ev q).
Proof.
  intros [Hs Hq Hf] He. unfold dropped.
  constructor; cbn [heap _eventQueue].
  - eapply StronglySorted_impl_in;
      [ | apply StronglySorted_erase; exact Hs ].
    intros a b Ha Hb. apply elem_of_plist_erase in Ha as [Ha _].
    apply elem_of_plist_erase in Hb as [Hb _].
    apply due_before_same; apply lookup_insert_ne; congruence.
  - intros x Hx. apply elem_of_plist_erase in Hx as [Hne Hx].
    rewrite lookup_insert_ne by congruence. apply Hq, Hx.
  - intros x evx Hx Hflx. apply elem_of_plist_erase.
    destruct (decide (x = e)) as [-> | Hne].
    + rewrite lookup_insert_eq in Hx. injection Hx as <-. discriminate.
    + rewrite lookup_insert_ne in Hx by congruence.
      split; [ exact Hne | eapply Hf; eauto ].
Qed.

Lemma timely_destroyed now q e :
  timely now q -> timely now (destroyed e q).
Proof.
  intros [Hs Hq Hf]. unfold destroyed.
  constructor; cbn [heap _eventQueue].
  - eapply StronglySorted_impl_in;
      [ | apply StronglySorted_erase; exact Hs ].
    intros a b Ha Hb. apply elem_of_plist_erase in Ha as [Ha _].
    apply elem_of_plist_erase in Hb as [Hb _].
    apply due_before_same; apply lookup_delete_ne; congruence.
  - intros x Hx. apply elem_of_plist_erase in Hx as [Hne Hx].
    rewrite lookup_delete_ne by congruence. apply Hq, Hx.
  - intros x evx Hx Hflx. apply elem_of_plist_erase.
    destruct (decide (x = e)) as [-> | Hne].
    + rewrite lookup_delete_eq in Hx. discriminate.
    + rewrite lookup_delete_ne in Hx by congruence.
      split; [ exact Hne | eapply Hf; eauto ].
Qed.

(** *** The members of [Event] keep the event system on time *)

Lemma keeps_timely_refl now q : keeps_timely now q q.
Proof. intros H. exact H. Qed.

Lemma keeps_timely_trans now q1 q2 q3 :
  keeps_timely now q1 q2 -> keeps_timely now q2 q3 -> keeps_timely now q1 q3.
Proof. unfold keeps_timely. tauto. Qed.

Lemma timely_keeps_post now e t disp :
  preserves (keeps_timely now) (post e t disp now).
Proof.
  intros q r q' Hp Ht. destruct r as [x | []].
  - apply post_fail in Hp as ->. exact Ht.
  - eapply timely_post; eauto.
Qed.

Lemma timely_keeps_drop now e : preserves (keeps_timely now) (drop e).
Proof.
  intros q r q' Hd Ht.
  apply drop_inv in Hd as [(_ & _ & ->) | (ev & He & _ & ->)];
    [ exact Ht | ].
  apply (timely_dropped now q e ev Ht He).
Qed.

Lemma timely_keeps_destroy now e : preserves (keeps_timely now) (destroy e).
Proof.
  intros q r q' Hd Ht. unfold destroy, bind in Hd.
  destruct (heap q !! e) as [ev | ] eqn:He.
  - rewrite (drop_ok e ev q He) in Hd. unfold modify in Hd.
    injection Hd as _ <-.
    replace (set_heap _ _) with (destroyed e q).
    + apply timely_destroyed, Ht.
    + unfold destroyed, dropped, set_heap. cbn.
      rewrite delete_insert_eq. reflexivity.
  - rewrite (drop_bad_pointer e q He) in Hd. injection Hd as _ <-. exact Ht.
Qed.

Lemma timely_keeps_setPriority now e p :
  preserves (keeps_timely now) (setPriority e p).
Proof.
  intros q r q'. unfold setPriority, bind, deref, store, modify.
  destruct (heap q !! e) as [ev | ] eqn:He; intros [= <- <-] Ht;
    [ | exact Ht ].
  eapply timely_store; eauto.
Qed.

Lemma timely_keeps_restorePriority now e :
  preserves (keeps_timely now) (restorePriority e).
Proof.
  intros q r q'. unfold restorePriority, bind, deref, store, modify.
  destruct (heap q !! e) as [ev | ] eqn:He; intros [= <- <-] Ht;
    [ | exact Ht ].
  eapply timely_store; eauto.
Qed.

Lemma timely_keeps_draw now : preserves (keeps_timely now) draw.
Proof.
  intros q r q'. unfold draw. destruct (sample (_stdgen q)) as [v g].
  intros [= <- <-] [Hs Hq Hf]. constructor; assumption.
Qed.

(** A step-by-step proof that a computation keeps a reflexive and
    transitive relation. *)
Ltac stepwise refl trans leaf :=
  repeat
    lazymatch goal with
    | |- preserves _ (ret _) => apply preserves_ret; exact refl
    | |- preserves _ (gets _) => apply preserves_gets; exact refl
    | |- preserves _ (throw _) => apply preserves_throw; exact refl
    | |- preserves _ (for_each _ _) =>
        apply preserves_for_each; [ exact refl | exact trans | intros ? ]
    | |- preserves _ (on_exception _ _) =>
        apply preserves_on_exception; [ exact trans | | ]
    | |- preserves _ (bind _ _) =>
        apply preserves_bind; [ exact trans | | intros ? ]
    | |- preserves _ (if ?c then _ else _) => destruct c
    | |- preserves _ (match ?x with Some _ => _ | None => _ end) => destruct x
    | |- preserves _ (let '(_, _) := ?x in _) => destruct x as [[? ?] ?]
    | |- preserves _ _ => progress leaf
    end.

Ltac timely_leaf :=
  first [ apply timely_keeps_post | apply timely_keeps_drop
        | apply timely_keeps_setPriority | apply timely_keeps_restorePriority
        | apply timely_keeps_draw | apply timely_keeps_destroy ].

Lemma timely_keeps_process now e disp :
  preserves (keeps_timely now) (process e disp now).
Proof.
  unfold process.
  stepwise (keeps_timely_refl now) (keeps_timely_trans now) timely_leaf.
Qed.

Lemma timely_keeps_run_handler (hd : Handler) now :
  preserves (keeps_timely now) (run_handler hd now).
Proof.
  induction hd as [ | e t disp k IH | e k IH | e disp k IH | e p k IH
                  | e k IH | k IH | k IH ]; cbn [run_handler];
    stepwise (keeps_timely_refl now) (keeps_timely_trans now)
             ltac:(first [ timely_leaf | apply timely_keeps_process
                         | apply IH ]).
Qed.

(** *** The simulation stays on time *)

Lemma keeps_on_time_refl s : keeps_on_time s s.
Proof. intros H. exact H. Qed.

Lemma keeps_on_time_trans s1 s2 s3 :
  keeps_on_time s1 s2 -> keeps_on_time s2 s3 -> keeps_on_time s1 s3.
Proof. unfold keeps_on_time. tauto. Qed.

Lemma on_time_same s s' :
  globTime s' = globTime s -> evs s' = evs s -> keeps_on_time s s'.
Proof. intros Hg He [H0 Ht]. unfold on_time. rewrite Hg, He. tauto. Qed.

Lemma on_time_liftE {A} (m : Tick -> M EventSys A) :
  (forall now, preserves (keeps_timely now) (m now)) ->
  preserves keeps_on_time (liftE m).
Proof.
  intros Hm s r s'. unfold liftE.
  destruct (m (globTime s) (evs s)) as [r' q'] eqn:H1.
  intros [= <- <-] [H0 Ht]. split; [ exact H0 | ].
  cbn. eapply Hm; eauto.
Qed.

Lemma on_time_setTime_0 : preserves keeps_on_time (setTime 0).
Proof.
  intros s r s' [= <- <-] [H0 Ht]. split; cbn; [ lia | ].
  eapply timely_mono; eauto.
Qed.

Lemma timely_keeps_deref now e : preserves (keeps_timely now) (deref e).
Proof. apply preserves_deref. intros q. apply keeps_timely_refl. Qed.

Lemma timely_keeps_getTime now e : preserves (keeps_timely now) (getTime e).
Proof.
  unfold getTime.
  stepwise (keeps_timely_refl now) (keeps_timely_trans now)
           ltac:(apply timely_keeps_deref).
Qed.

Lemma timely_keeps_isDisposable now e :
  preserves (keeps_timely now) (isDisposable e).
Proof.
  unfold isDisposable.
  stepwise (keeps_timely_refl now) (keeps_timely_trans now)
           ltac:(apply timely_keeps_deref).
Qed.

Ltac on_time_leaf :=
  first
    [ apply on_time_setTime_0
    | apply preserves_modify; intros ?; apply on_time_same; reflexivity
    | apply on_time_liftE; intros ?;
      first [ timely_leaf | apply timely_keeps_run_handler
            | apply timely_keeps_deref | apply timely_keeps_getTime
            | apply timely_keeps_isDisposable ] ].

Lemma on_time_probe e p : preserves keeps_on_time (probe e p).
Proof.
  unfold probe, emit.
  stepwise keeps_on_time_refl keeps_on_time_trans on_time_leaf.
Qed.

(** [action] once the event object has been read and marked. *)
Lemma action_unfold e ev s :
  heap (evs s) !! e = Some ev ->
  action e s =
    (liftE (run_handler (doit ev)) ;;
     ev' <- liftE (fun _ => deref e) ;;
     for_each (probe e) (_stats ev') ;;
     for_each (probe e) (_particles ev') ;;
     for_each (probe e) (_traces ev'))
      (set_evs (set_heap (<[e := set_isInQueue false
                                   (set_lastTime (_time ev) ev)]>
                            (heap (evs s))) (evs s)) s).
Proof.
  intros He. unfold action. unfold bind at 1, liftE at 1, deref.
  rewrite He. unfold bind at 1, liftE at 1, store, modify. reflexivity.
Qed.

Lemma on_time_after_handler e ev :
  preserves keeps_on_time
    (liftE (run_handler (doit ev)) ;;
     ev' <- liftE (fun _ => deref e) ;;
     for_each (probe e) (_stats ev') ;;
     for_each (probe e) (_particles ev') ;;
     for_each (probe e) (_traces ev')).
Proof.
  stepwise keeps_on_time_refl keeps_on_time_trans
           ltac:(first [ on_time_leaf | apply on_time_probe ]).
Qed.

(** [action] on an event that is out of the queue keeps the simulation
    on time, whatever the handler does. *)
Lemma on_time_action e ev s r s' :
  heap (evs s) !! e = Some ev -> _isInQueue ev = false ->
  on_time s -> action e s = (r, s') -> on_time s'.
Proof.
  intros He Hfl [H0 Ht]. rewrite (action_unfold e ev s He).
  intros Hrest. eapply on_time_after_handler; [ exact Hrest | ].
  split; [ exact H0 | ]. cbn [globTime evs set_evs].
  eapply timely_store; eauto.
Qed.

(** *** The clock and the output of the members of [Event] *)

Lemma same_clock_refl s : same_clock s s.
Proof. reflexivity. Qed.

Lemma same_clock_trans s1 s2 s3 :
  same_clock s1 s2 -> same_clock s2 s3 -> same_clock s1 s3.
Proof. unfold same_clock. congruence. Qed.

Lemma same_clock_liftE {A} (m : Tick -> M EventSys A) :
  preserves same_clock (liftE m).
Proof.
  intros s r s'. unfold liftE.
  destruct (m (globTime s) (evs s)) as [r' q']. intros [= <- <-].
  reflexivity.
Qed.

Ltac same_clock_leaf :=
  first [ apply same_clock_liftE
        | apply preserves_modify; intros ?; reflexivity ].

Lemma same_clock_probe e p : preserves same_clock (probe e p).
Proof.
  unfold probe, emit.
  stepwise same_clock_refl same_clock_trans same_clock_leaf.
Qed.

Lemma same_clock_action e : preserves same_clock (action e).
Proof.
  unfold action.
  stepwise same_clock_refl same_clock_trans
           ltac:(first [ same_clock_leaf | apply same_clock_probe ]).
Qed.

(** *** One step *)

Lemma sim_step_rest temp rest ev s :
  _eventQueue (evs s) = temp :: rest ->
  heap (evs s) !! temp = Some ev ->
  sim_step s = step_rest temp (_time ev) (at_action temp ev s).
Proof. exact (sim_step_front temp rest ev s). Qed.

Lemma step_rest_result temp t s t' s' :
  step_rest temp t s = (inr t', s') -> t' = t.
Proof.
  unfold step_rest, bind.
  destruct (action temp s) as [[x | []] s1]; [ discriminate | ].
  destruct (liftE _ s1) as [[x | d] s2]; [ discriminate | ].
  destruct d; [ destruct (liftE _ s2) as [[x | []] s3]; [ discriminate | ] | ];
    intros [= <- _]; reflexivity.
Qed.

Lemma same_clock_step_rest temp t : preserves same_clock (step_rest temp t).
Proof.
  unfold step_rest.
  stepwise same_clock_refl same_clock_trans
           ltac:(first [ same_clock_leaf | apply same_clock_action ]).
Qed.

Lemma emits_step_rest temp t : preserves (emits is_probe) (step_rest temp t).
Proof.
  unfold step_rest.
  stepwise (emits_refl is_probe) (emits_trans is_probe)
           ltac:(first [ apply preserves_action_emits
                       | apply preserves_liftE_emits ]).
Qed.

Lemma on_time_step_rest temp t ev s r s' :
  heap (evs s) !! temp = Some ev -> _isInQueue ev = false ->
  on_time s -> step_rest temp t s = (r, s') -> on_time s'.
Proof.
  intros He Hfl Hon. unfold step_rest. unfold bind at 1.
  destruct (action temp s) as [ra sa] eqn:Ha.
  pose proof (on_time_action temp ev s ra sa He Hfl Hon Ha) as Hsa.
  destruct ra as [x | []]; [ intros [= <- <-]; exact Hsa | ].
  intros Hrest. revert Hsa. revert Hrest. generalize sa. intros s0 Hrest.
  change (keeps_on_time s0 s'). revert s0 r s' Hrest.
  change (preserves keeps_on_time
            (d <- liftE (fun _ => isDisposable temp) ;;
             (if d then liftE (fun _ => destroy temp) else ret tt) ;;
             ret t)).
  stepwise keeps_on_time_refl keeps_on_time_trans on_time_leaf.
Qed.

(** The state in which [action] is called is on time at the time of the
    event, which is not before the clock. *)
Lemma on_time_at_action temp rest ev s :
  on_time s -> _eventQueue (evs s) = temp :: rest ->
  heap (evs s) !! temp = Some ev ->
  globTime s <= _time ev /\ on_time (at_action temp ev s).
Proof.
  intros [H0 Ht] Hq He.
  destruct (timely_queued _ _ Ht temp) as (ev0 & He0 & _ & Hdue);
    [ rewrite Hq; left | ].
  rewrite He in He0. injection He0 as <-.
  split; [ exact Hdue | ]. split; [ cbn; lia | ].
  pose proof (timely_dropped _ _ temp ev Ht He) as [Hs' Hq' Hf'].
  cbn [globTime evs set_evs set_out set_globTime at_action].
  constructor; try assumption.
  intros x Hx. destruct (Hq' x Hx) as (evx & Hlx & Hflx & _).
  exists evx. repeat split; try assumption.
  cbn [dropped heap _eventQueue] in Hx, Hlx.
  apply elem_of_plist_erase in Hx as [Hne Hx].
  rewrite lookup_insert_ne in Hlx by congruence.
  pose proof (timely_sorted _ _ Ht) as Hs. rewrite Hq in Hs, Hx.
  apply StronglySorted_inv in Hs as [_ Hall].
  rewrite Forall_forall in Hall.
  apply elem_of_cons in Hx as [-> | Hx]; [ congruence | ].
  specialize (Hall x Hx). unfold due_before in Hall.
  rewrite He, Hlx in Hall. exact Hall.
Qed.

(** What [sim_step] comes to: nothing at all, and an exception, when
    there is no front event to execute; otherwise the execution of the
    front event at its time, to which the clock is set, followed by probe
    notifications. *)
Lemma sim_step_cases s r s' :
  sim_step s = (r, s') ->
  (s' = s /\ exists x, r = inl x) \/
  (exists temp rest ev lp,
      _eventQueue (evs s) = temp :: rest /\
      heap (evs s) !! temp = Some ev /\
      step_rest temp (_time ev) (at_action temp ev s) = (r, s') /\
      globTime s' = _time ev /\
      out s' = out s ++ ObsExec temp (_time ev) :: lp /\
      Forall is_probe lp /\
      (forall t, r = inr t -> t = _time ev)).
Proof.
  destruct (_eventQueue (evs s)) as [ | temp rest] eqn:Hq.
  - unfold sim_step, bind, gets, getFirst, throw. rewrite Hq.
    intros [= <- <-]. left. split; [ reflexivity | eauto ].
  - destruct (heap (evs s) !! temp) as [ev | ] eqn:He.
    + rewrite (sim_step_rest temp rest ev s Hq He). intros Hrest. right.
      destruct (emits_step_rest _ _ _ _ _ Hrest) as (lp & Hout & Hlp).
      exists temp, rest, ev, lp. repeat split; try assumption.
      * rewrite (same_clock_step_rest _ _ _ _ _ Hrest). reflexivity.
      * rewrite Hout. cbn [out at_action set_globTime set_out].
        rewrite <- app_assoc. reflexivity.
      * intros t ->. eapply step_rest_result. exact Hrest.
    + unfold sim_step. unfold bind at 1, gets, getFirst. rewrite Hq.
      cbn [head]. unfold bind at 1.
      rewrite (liftE_bad_pointer drop temp s (drop_bad_pointer temp) He).
      intros [= <- <-]. left. split; [ reflexivity | eauto ].
Qed.

Lemma executed_probes (lp : list Obs) : Forall is_probe lp -> executed lp = [].
Proof.
  induction 1 as [ | o lp Ho _ IH]; [ reflexivity | ].
  destruct o; try contradiction. exact IH.
Qed.

Lemma executed_app (l1 l2 : list Obs) :
  executed (l1 ++ l2) = executed l1 ++ executed l2.
Proof. unfold executed. apply omap_app. Qed.

Lemma executed_exec e t (l : list Obs) :
  executed (ObsExec e t :: l) = (e, t) :: executed l.
Proof. reflexivity. Qed.

Lemma sim_step_executed s r s' :
  sim_step s = (r, s') ->
  (s' = s /\ exists x, r = inl x) \/
  (exists temp t,
      executed (out s') = executed (out s) ++ [(temp, t)] /\
      globTime s' = t /\ (forall t', r = inr t' -> t' = t)).
Proof.
  intros Hstep. apply sim_step_cases in Hstep
    as [Hsame | (temp & rest & ev & lp & _ & _ & _ & Hclock & Hout & Hlp & Hr)];
    [ left; exact Hsame | right ].
  exists temp, (_time ev). rewrite Hout. repeat split; try assumption.
  rewrite executed_app, executed_exec, (executed_probes lp Hlp).
  reflexivity.
Qed.

(** *** The clock along the steps *)

Lemma advances_refl s : advances s s.
Proof.
  split; [ lia | ]. exists []. rewrite app_nil_r.
  repeat split; constructor.
Qed.

Lemma exec_times_app (l1 l2 : list Obs) :
  exec_times (l1 ++ l2) = exec_times l1 ++ exec_times l2.
Proof. unfold exec_times. rewrite executed_app, map_app. reflexivity. Qed.

Lemma StronglySorted_app_le (l1 l2 : list Z) (m : Z) :
  StronglySorted Z.le l1 -> StronglySorted Z.le l2 ->
  Forall (fun t => t <= m) l1 -> Forall (fun t => m <= t) l2 ->
  StronglySorted Z.le (l1 ++ l2).
Proof.
  intros H1 H2 Hle Hge. induction H1 as [ | x l1 H1 IH Hall]; [ exact H2 | ].
  cbn [app]. apply Forall_cons in Hle as [Hx Hle].
  constructor; [ apply IH; exact Hle | ].
  apply Forall_app. split; [ exact Hall | ].
  eapply Forall_impl; [ exact Hge | ]. intros t Ht. cbn beta in *. lia.
Qed.

Lemma advances_trans s1 s2 s3 :
  advances s1 s2 -> advances s2 s3 -> advances s1 s3.
Proof.
  intros (Hle1 & l1 & Ho1 & Hs1 & Hb1) (Hle2 & l2 & Ho2 & Hs2 & Hb2).
  split; [ lia | ]. exists (l1 ++ l2).
  rewrite Ho2, Ho1, app_assoc, exec_times_app.
  split; [ reflexivity | ]. split.
  - apply (StronglySorted_app_le _ _ (globTime s2)); try assumption.
    + eapply Forall_impl; [ exact Hb1 | ]. intros t Ht. cbn beta in *. lia.
    + eapply Forall_impl; [ exact Hb2 | ]. intros t Ht. cbn beta in *. lia.
  - apply Forall_app. split.
    + eapply Forall_impl; [ exact Hb1 | ]. intros t Ht. cbn beta in *. lia.
    + eapply Forall_impl; [ exact Hb2 | ]. intros t Ht. cbn beta in *. lia.
Qed.

Lemma moves_on_refl s : moves_on s s.
Proof. intros H. split; [ exact H | apply advances_refl ]. Qed.

Lemma moves_on_trans s1 s2 s3 :
  moves_on s1 s2 -> moves_on s2 s3 -> moves_on s1 s3.
Proof.
  intros H12 H23 H1. destruct (H12 H1) as [H2 Ha12].
  destruct (H23 H2) as [H3 Ha23]. split; [ exact H3 | ].
  eapply advances_trans; eauto.
Qed.

Lemma moves_on_same s s' :
  globTime s' = globTime s -> evs s' = evs s -> out s' = out s ->
  moves_on s s'.
Proof.
  intros Hg He Ho Hon. split.
  - eapply on_time_same; eauto.
  - split; [ lia | ]. exists []. rewrite app_nil_r, Hg.
    repeat split; try assumption; constructor.
Qed.

(** Whatever its handler does, a step leaves the simulation on time and
    does not take the clock back. *)
Lemma sim_step_moves_on : preserves moves_on sim_step.
Proof.
  intros s r s' Hstep Hon.
  destruct (sim_step_cases s r s' Hstep)
    as [[-> _] | (temp & rest & ev & lp & Hq & He & Hrest & Hclock & Hout
                  & Hlp & _)].
  - split; [ exact Hon | apply advances_refl ].
  - destruct (on_time_at_action temp rest ev s Hon Hq He) as [Hdue Hat].
    split.
    + eapply (on_time_step_rest temp (_time ev)
                                (set_isInQueue false ev)); try exact Hrest.
      * cbn. apply lookup_insert_eq.
      * reflexivity.
      * exact Hat.
    + split; [ lia | ]. exists (ObsExec temp (_time ev) :: lp).
      split; [ exact Hout | ].
      unfold exec_times.
      rewrite executed_exec, (executed_probes lp Hlp). cbn [map snd].
      split; [ repeat constructor | ].
      repeat constructor; lia.
Qed.

Lemma sim_step_returns_clock s t s' :
  sim_step s = (inr t, s') -> globTime s' = t.
Proof.
  intros Hstep. destruct (sim_step_cases _ _ _ Hstep)
    as [[_ [x [=]]] | (temp & rest & ev & lp & _ & _ & _ & Hclock & _ & _ & Hr)].
  rewrite (Hr t eq_refl). exact Hclock.
Qed.

(** X8.  The clock never goes back.  From a simulation that is on time
    -- the queue in due order, no queued event due before the clock --
    one step, whatever the handler of the event does to the queue, to
    priorities or to itself and whether it returns or throws, leaves a
    simulation that is on time again, with a clock that is not earlier;
    the time the step returns is the new clock. *)
Theorem sim_step_never_goes_back s r s' :
  on_time s -> sim_step s = (r, s') ->
  on_time s' /\ globTime s <= globTime s' /\
  (forall t, r = inr t -> t = globTime s').
Proof.
  intros Hon Hstep.
  destruct (sim_step_moves_on s r s' Hstep Hon) as [Hon' [Hle _]].
  split; [ exact Hon' | ]. split; [ exact Hle | ].
  intros t ->. symmetry. eapply sim_step_returns_clock. exact Hstep.
Qed.

(** ** The loops of the driver *)

(** *** [run_to] *)

Lemma run_to_loop_moves_on fuel stop :
  preservesP moves_on (run_to_loop fuel stop).
Proof.
  induction fuel as [ | fuel IH]; intros s r s'; cbn [run_to_loop];
    [ discriminate | ].
  destruct (getNextEventTime s) as [rt st] eqn:Hn.
  destruct (getNextEventTime_inv _ _ _ Hn) as [-> _].
  destruct rt as [x | t]; [ intros [= <- <-]; apply moves_on_refl | ].
  destruct (t <=? stop); [ | intros [= <- <-]; apply moves_on_refl ].
  destruct (sim_step s) as [[x | t'] s2] eqn:Hstep.
  - intros [= <- <-]. eapply sim_step_moves_on; eauto.
  - intros Hrec.
    eapply moves_on_trans; [ eapply sim_step_moves_on; eauto | ].
    eapply moves_on_trans; [ | eapply IH; eauto ].
    apply moves_on_same; try reflexivity.
    cbn. symmetry. eapply sim_step_returns_clock; eauto.
Qed.

Lemma run_to_loop_emits fuel stop s r s1 :
  run_to_loop fuel stop s = Some (r, s1) -> emits (step_output stop) s s1.
Proof.
  intros Hloop.
  destruct (run_to_loop_sound _ _ _ _ _ Hloop) as (s0 & Hsteps & Hem & _).
  eapply emits_trans; [ apply run_to_steps_emits | ]; eassumption.
Qed.

(** Where the loop of [run_to] has nothing left to do, the clock can be
    put forward to [stop]. *)
Lemma on_time_clamp stop s1 (d : list Obs) :
  on_time s1 -> run_to_exit stop s1 ->
  on_time (set_globTime (Z.max (globTime s1) stop)
             (set_out (out s1 ++ d) s1)).
Proof.
  intros [H0 Ht] Hex. split; cbn; [ lia | ].
  destruct Ht as [Hs Hq Hf]. constructor; try assumption.
  intros x Hx. destruct (Hq x Hx) as (evx & Hlx & Hflx & Hdue).
  exists evx. repeat split; try assumption.
  destruct Hex as [Hempty | (temp & ev & Hfront & He & Hlate)].
  - rewrite Hempty in Hx. inversion Hx.
  - unfold getFirst in Hfront.
    destruct (_eventQueue (evs s1)) as [ | y rest] eqn:Hqueue;
      [ discriminate | ].
    injection Hfront as ->.
    apply elem_of_cons in Hx as [-> | Hx].
    + rewrite He in Hlx. injection Hlx as <-. lia.
    + apply StronglySorted_inv in Hs as [_ Hall].
      rewrite Forall_forall in Hall. specialize (Hall x Hx).
      unfold due_before in Hall. rewrite He, Hlx in Hall. lia.
Qed.

Lemma run_to_moves_on fuel stop : preservesP moves_on (run_to fuel stop).
Proof.
  intros s r s'. unfold run_to.
  destruct (run_to_loop fuel stop s) as [[r1 s1] | ] eqn:Hloop;
    [ | discriminate ].
  pose proof (run_to_loop_moves_on _ _ _ _ _ Hloop) as Hmove.
  destruct (run_to_loop_sound _ _ _ _ _ Hloop)
    as (s0 & _ & _ & [(-> & -> & Hfront) | [(-> & -> & Hq) | Hexc]]).
  - rewrite clamp_to_final. intros [= <- <-] Hon.
    destruct (Hmove Hon) as [Hon1 Hadv]. split.
    + pose proof (on_time_clamp stop s0 [] Hon1 (or_intror Hfront)) as H.
      destruct H as [H0 Ht]. split; [ exact H0 | exact Ht ].
    + eapply advances_trans; [ exact Hadv | ].
      split; [ cbn; lia | ]. exists []. cbn. rewrite app_nil_r.
      repeat split; constructor.
  - unfold bind, emit, modify. rewrite clamp_to_final. intros [= <- <-] Hon.
    destruct (Hmove Hon) as [Hon1 Hadv]. split.
    + apply (on_time_clamp stop s0 [ObsNoMoreEvents (globTime s0)] Hon1).
      left. exact Hq.
    + eapply advances_trans; [ exact Hadv | ].
      split; [ cbn; lia | ]. exists [ObsNoMoreEvents (globTime s0)].
      cbn. repeat split; constructor.
  - destruct Hexc as (x & -> & Hx).
    destruct x; try congruence; intros [= <- <-]; exact Hmove.
Qed.

Lemma run_to_executed_le fuel stop s r s' :
  run_to fuel stop s = Some (r, s') ->
  exists xs, executed (out s') = executed (out s) ++ xs /\
             Forall (fun et => snd et <= stop) xs.
Proof.
  unfold run_to.
  destruct (run_to_loop fuel stop s) as [[r1 s1] | ] eqn:Hloop;
    [ | discriminate ].
  destruct (emits_executed _ _ _ (run_to_loop_emits _ _ _ _ _ Hloop))
    as (l & Hl & Hall).
  assert (forall r2 s2, clamp_to stop s1 = (r2, s2) -> out s2 = out s1)
    as Hclamp
    by (intros r2 s2; rewrite clamp_to_final; intros [= _ <-]; reflexivity).
  intros Hrun. exists l. split; [ | exact Hall ]. rewrite <- Hl.
  destruct r1 as [[ | | | ] | []]; try (injection Hrun as _ <-; reflexivity).
  - unfold bind, emit, modify in Hrun. rewrite clamp_to_final in Hrun.
    injection Hrun as _ <-. cbn [out set_globTime set_out].
    rewrite executed_app. cbn. apply app_nil_r.
  - rewrite clamp_to_final in Hrun. injection Hrun as _ <-. reflexivity.
Qed.

(** X9.  [run_to] executes the events in the order of their times: from a
    simulation that is on time it leaves one that is on time, with a clock
    that is not earlier, and the events it has executed in between, in
    execution order, have times that never decrease, none before the
    clock it started from and none after [stop] -- whatever the handlers
    do, and whether it returns or an exception escapes. *)
Theorem run_to_in_time_order fuel stop s r s' :
  on_time s -> run_to fuel stop s = Some (r, s') ->
  on_time s' /\ globTime s <= globTime s' /\
  exists xs,
    executed (out s') = executed (out s) ++ xs /\
    StronglySorted Z.le (map snd xs) /\
    Forall (fun et => globTime s <= snd et <= stop) xs.
Proof.
  intros Hon Hrun.
  destruct (run_to_moves_on _ _ _ _ _ Hrun Hon)
    as (Hon' & Hle & l0 & Hout & Hsorted & Hbounds).
  destruct (run_to_executed_le _ _ _ _ _ Hrun) as (l & Hl & Hstop).
  split; [ exact Hon' | ]. split; [ exact Hle | ].
  assert (l = executed l0) as ->.
  { rewrite Hout, executed_app in Hl. apply app_inv_head in Hl.
    congruence. }
  exists (executed l0). split; [ exact Hl | ]. split; [ exact Hsorted | ].
  unfold exec_times in Hbounds. rewrite Forall_map in Hbounds.
  rewrite Forall_forall in Hbounds, Hstop |- *.
  intros et Het. specialize (Hbounds et Het). specialize (Hstop et Het).
  destruct et as [e0 t0]. cbn in Hbounds, Hstop |- *. lia.
Qed.

(** *** The main cycle of [run] *)

Lemma main_cycle_moves_on fuel endTick :
  preservesP moves_on (main_cycle fuel endTick).
Proof.
  induction fuel as [ | fuel IH]; intros s r s'; cbn [main_cycle];
    [ discriminate | ].
  destruct (globTime s <? endTick);
    [ | intros [= <- <-]; apply moves_on_refl ].
  destruct (sim_step s) as [[x | t'] s2] eqn:Hstep.
  - intros [= <- <-]. eapply sim_step_moves_on; eauto.
  - intros Hrec.
    eapply moves_on_trans; [ eapply sim_step_moves_on; eauto | ].
    eapply moves_on_trans; [ | eapply IH; eauto ].
    apply moves_on_same; try reflexivity.
    cbn. symmetry. eapply sim_step_returns_clock; eauto.
Qed.

(** The cycle tests the clock, not the time of the next event: it goes
    on as long as the clock is before [endTick]. *)
Lemma main_cycle_executed fuel endTick s r s' :
  main_cycle fuel endTick s = Some (r, s') ->
  exists xs,
    executed (out s') = executed (out s) ++ xs /\
    Forall (fun et => snd et < endTick) (removelast xs) /\
    (xs <> [] -> globTime s < endTick) /\
    (r = inr tt -> endTick <= globTime s').
Proof.
  revert s. induction fuel as [ | fuel IH]; intros s; cbn [main_cycle];
    [ discriminate | ].
  destruct (Z.ltb_spec (globTime s) endTick) as [Hlt | Hge].
  2:{ intros [= <- <-]. exists []. rewrite app_nil_r.
      split; [ reflexivity | ]. split; [ constructor | ].
      split; [ congruence | ]. intros _. exact Hge. }
  destruct (sim_step s) as [[x | t] s1] eqn:Hstep.
  - intros [= <- <-].
    destruct (sim_step_executed _ _ _ Hstep)
      as [[-> _] | (temp & t & Hex & _)].
    + exists []. rewrite app_nil_r.
      split; [ reflexivity | ]. split; [ constructor | ].
      split; [ congruence | discriminate ].
    + exists [(temp, t)]. split; [ exact Hex | ].
      split; [ constructor | ]. split; [ intros _; exact Hlt | discriminate ].
  - intros Hrec.
    destruct (sim_step_executed _ _ _ Hstep)
      as [[_ [x [=]]] | (temp & t0 & Hex & Hclock & Hr)].
    rewrite (Hr t eq_refl) in *. clear Hr.
    destruct (IH _ Hrec) as (l & Hl & Hall & Hne & Hexit).
    cbn [out set_globTime globTime] in Hl, Hne.
    exists ((temp, t0) :: l). split; [ | split; [ | split ] ].
    + rewrite Hl, Hex, <- app_assoc. reflexivity.
    + destruct l as [ | et l]; [ constructor | ].
      change (removelast ((temp, t0) :: et :: l))
        with ((temp, t0) :: removelast (et :: l)).
      constructor; [ | exact Hall ]. cbn. apply Hne. discriminate.
    + intros _. exact Hlt.
    + exact Hexit.
Qed.

(** From a clock that has reached [endTick] the cycle does nothing. *)
Lemma main_cycle_done fuel endTick s r s' :
  endTick <= globTime s ->
  main_cycle fuel endTick s = Some (r, s') -> r = inr tt /\ s' = s.
Proof.
  intros Hge. destruct fuel as [ | fuel]; cbn [main_cycle]; [ discriminate | ].
  destruct (Z.ltb_spec (globTime s) endTick); [ lia | ].
  intros [= <- <-]. split; reflexivity.
Qed.

(** A step on a queue whose front is live executes that front event,
    whatever becomes of its handler. *)
Lemma sim_step_executes_front temp rest ev s r s1 :
  _eventQueue (evs s) = temp :: rest ->
  heap (evs s) !! temp = Some ev ->
  sim_step s = (r, s1) ->
  executed (out s1) = executed (out s) ++ [(temp, _time ev)].
Proof.
  intros Hq He. rewrite (sim_step_rest temp rest ev s Hq He). intros Hrest.
  destruct (emits_step_rest _ _ _ _ _ Hrest) as (lp & Hout & Hlp).
  rewrite Hout. cbn [out at_action set_globTime set_out set_evs].
  rewrite <- app_assoc. cbn [app].
  rewrite executed_app, executed_exec, (executed_probes lp Hlp).
  reflexivity.
Qed.

(** From a clock short of [endTick] the cycle executes the front event,
    whenever that event is due. *)
Lemma main_cycle_first fuel endTick s r s' temp rest ev :
  globTime s < endTick ->
  _eventQueue (evs s) = temp :: rest ->
  heap (evs s) !! temp = Some ev ->
  main_cycle fuel endTick s = Some (r, s') ->
  exists ys, executed (out s') = executed (out s) ++ (temp, _time ev) :: ys.
Proof.
  intros Hlt Hq He. destruct fuel as [ | fuel]; cbn [main_cycle];
    [ discriminate | ].
  destruct (Z.ltb_spec (globTime s) endTick); [ | lia ].
  destruct (sim_step s) as [rs s1] eqn:Hstep.
  pose proof (sim_step_executes_front _ _ _ _ _ _ Hq He Hstep) as Hex.
  destruct rs as [x | t].
  - intros [= <- <-]. exists []. exact Hex.
  - intros Hrec.
    destruct (main_cycle_executed _ _ _ _ _ Hrec) as (ys & Hys & _).
    cbn [out set_globTime] in Hys.
    exists ys. rewrite Hys, Hex, <- app_assoc. reflexivity.
Qed.

(** When the cycle is left normally after some event, the clock is at
    the time of the last event it executed. *)
Lemma main_cycle_last fuel endTick s s' :
  main_cycle fuel endTick s = Some (inr tt, s') ->
  exists xs,
    executed (out s') = executed (out s) ++ xs /\
    (xs = [] -> s' = s) /\
    (forall e t, last xs = Some (e, t) -> t = globTime s').
Proof.
  revert s. induction fuel as [ | fuel IH]; intros s; cbn [main_cycle];
    [ discriminate | ].
  destruct (Z.ltb_spec (globTime s) endTick) as [Hlt | Hge].
  2:{ intros [= <-]. exists []. rewrite app_nil_r.
      split; [ reflexivity | ]. split; [ reflexivity | ].
      intros e t. cbn. discriminate. }
  destruct (sim_step s) as [[x | t0] s1] eqn:Hstep; [ discriminate | ].
  intros Hrec.
  destruct (sim_step_executed _ _ _ Hstep)
    as [[_ [x [=]]] | (temp & t1 & Hex & Hclock & Hr)].
  rewrite (Hr t0 eq_refl) in *. clear Hr.
  destruct (IH _ Hrec) as (ys & Hys & Hnil & Hlast).
  cbn [out set_globTime] in Hys.
  exists ((temp, t1) :: ys). split; [ | split ].
  - rewrite Hys, Hex, <- app_assoc. reflexivity.
  - discriminate.
  - intros e t. rewrite last_cons.
    destruct (last ys) as [et | ] eqn:Hl.
    + intros [= ->]. apply (Hlast e t). reflexivity.
    + intros [= <- <-]. apply last_None in Hl.
      rewrite (Hnil Hl). reflexivity.
Qed.

(** X11.  The main cycle of [run] stops on the clock, not on the time of
    the next event.  From a clock that has reached [endTick] it does
    nothing.  From a clock short of [endTick] it executes the front
    event however late that event is due -- an event due at or after
    [endTick] is then the only one it executes.  Every event it executes
    but the last one is due before [endTick]; when the cycle is left
    normally the clock has reached [endTick] and stands at the time of
    the last event executed, which is thus due at or after [endTick]. *)
Theorem main_cycle_stops_on_clock fuel endTick s r s' :
  main_cycle fuel endTick s = Some (r, s') ->
  exists xs,
    executed (out s') = executed (out s) ++ xs /\
    Forall (fun et => snd et < endTick) (removelast xs) /\
    (r = inr tt -> endTick <= globTime s') /\
    (endTick <= globTime s -> xs = [] /\ r = inr tt /\ s' = s) /\
    (globTime s < endTick ->
     forall temp rest ev,
       _eventQueue (evs s) = temp :: rest ->
       heap (evs s) !! temp = Some ev ->
       exists ys, xs = (temp, _time ev) :: ys /\
                  (endTick <= _time ev -> ys = [])) /\
    (r = inr tt ->
     forall e t, last xs = Some (e, t) -> t = globTime s' /\ endTick <= t).
Proof.
  intros Hrun.
  destruct (main_cycle_executed _ _ _ _ _ Hrun)
    as (xs & Hxs & Hall & Hne & Hexit).
  exists xs. split; [ exact Hxs | ]. split; [ exact Hall | ].
  split; [ exact Hexit | ]. split; [ | split ].
  - intros Hge. destruct xs as [ | et xs].
    2:{ pose proof (Hne ltac:(discriminate)). lia. }
    split; [ reflexivity | ]. eapply main_cycle_done; eauto.
  - intros Hlt temp rest ev Hq He.
    destruct (main_cycle_first _ _ _ _ _ _ _ _ Hlt Hq He Hrun) as (ys & Hys).
    rewrite Hxs in Hys. apply app_inv_head in Hys. subst xs.
    exists ys. split; [ reflexivity | ].
    intros Hlate. destruct ys as [ | et ys]; [ reflexivity | ].
    change (removelast ((temp, _time ev) :: et :: ys))
      with ((temp, _time ev) :: removelast (et :: ys)) in Hall.
    apply Forall_cons in Hall as [Hfirst _]. cbn in Hfirst. lia.
  - intros -> e t Hl.
    destruct (main_cycle_last _ _ _ _ Hrun) as (xs' & Hxs' & _ & Hlast).
    rewrite Hxs in Hxs'. apply app_inv_head in Hxs'. subst xs'.
    pose proof (Hlast e t Hl) as Ht. split; [ exact Ht | ].
    rewrite Ht. apply Hexit. reflexivity.
Qed.

(** *** The simulation stays on time across runs *)

Ltac driver_leaf :=
  first [ on_time_leaf | apply on_time_probe ].

Lemma on_time_clear_loop (n : nat) : preserves keeps_on_time (clear_loop n).
Proof.
  induction n as [ | n IH]; cbn [clear_loop];
    stepwise keeps_on_time_refl keeps_on_time_trans
             ltac:(first [ driver_leaf | apply IH ]).
Qed.

Lemma on_time_clearEventQueue : preserves keeps_on_time clearEventQueue.
Proof.
  unfold clearEventQueue.
  stepwise keeps_on_time_refl keeps_on_time_trans
           ltac:(first [ driver_leaf | apply on_time_clear_loop ]).
Qed.

Lemma on_time_callNewRun : preserves keeps_on_time callNewRun.
Proof.
  unfold callNewRun.
  stepwise keeps_on_time_refl keeps_on_time_trans
           ltac:(first [ driver_leaf | apply on_time_clearEventQueue ]).
Qed.

Lemma on_time_callEndRun : preserves keeps_on_time callEndRun.
Proof.
  unfold callEndRun.
  stepwise keeps_on_time_refl keeps_on_time_trans
           ltac:(first [ driver_leaf | apply on_time_clearEventQueue ]).
Qed.

Lemma on_time_initSingleRun : preserves keeps_on_time initSingleRun.
Proof.
  unfold initSingleRun, emit.
  stepwise keeps_on_time_refl keeps_on_time_trans
           ltac:(first [ driver_leaf | apply on_time_callNewRun ]).
Qed.

Lemma on_time_endSingleRun : preserves keeps_on_time endSingleRun.
Proof.
  unfold endSingleRun, emit.
  stepwise keeps_on_time_refl keeps_on_time_trans
           ltac:(first [ driver_leaf | apply on_time_callEndRun
                       | apply on_time_clearEventQueue ]).
Qed.

Lemma on_time_initRuns n : preserves keeps_on_time (initRuns n).
Proof.
  unfold initRuns, emit.
  stepwise keeps_on_time_refl keeps_on_time_trans driver_leaf.
Qed.

Lemma on_time_run_prologue nRuns : preserves keeps_on_time (run_prologue nRuns).
Proof.
  unfold run_prologue, run_mode, emit.
  stepwise keeps_on_time_refl keeps_on_time_trans
           ltac:(first [ driver_leaf | apply on_time_initRuns ]).
Qed.

Lemma on_time_main_cycle fuel endTick :
  preservesP keeps_on_time (main_cycle fuel endTick).
Proof.
  intros s r s' Hrun Hon. apply (main_cycle_moves_on _ _ _ _ _ Hrun Hon).
Qed.

Lemma on_time_replica_init n :
  preserves keeps_on_time (emit (ObsRun n) ;; initSingleRun).
Proof.
  unfold emit.
  stepwise keeps_on_time_refl keeps_on_time_trans
           ltac:(first [ driver_leaf | apply on_time_initSingleRun ]).
Qed.

Lemma on_time_replica_finish :
  preserves keeps_on_time
    (endSingleRun ;; modify (fun s => set_actRuns (actRuns s + 1) s)).
Proof.
  stepwise keeps_on_time_refl keeps_on_time_trans
           ltac:(first [ driver_leaf | apply on_time_endSingleRun ]).
Qed.

Lemma on_time_replica fuel endTick :
  preservesP keeps_on_time (replica fuel endTick).
Proof.
  intros s r s'. unfold replica.
  destruct ((emit (ObsRun (actRuns s)) ;; initSingleRun) s)
    as [r1 s1] eqn:Hinit.
  pose proof (on_time_replica_init _ _ _ _ Hinit) as H01.
  destruct r1 as [x | []]; [ intros [= <- <-]; exact H01 | ].
  destruct (main_cycle fuel endTick s1) as [[r2 s2] | ] eqn:Hmain;
    [ | discriminate ].
  pose proof (on_time_main_cycle _ _ _ _ _ Hmain) as H12.
  assert (keeps_on_time s s2) as H02
    by (eapply keeps_on_time_trans; eauto).
  destruct r2 as [[ | | | ] | []]; try (intros [= <- <-]; exact H02).
  - intros [= Hfin]. eapply keeps_on_time_trans; [ exact H02 | ].
    revert Hfin. unfold bind at 1, emit at 1, modify. intros Hfin.
    eapply keeps_on_time_trans;
      [ | eapply on_time_replica_finish; exact Hfin ].
    apply on_time_same; reflexivity.
  - intros [= Hfin]. eapply keeps_on_time_trans; [ exact H02 | ].
    eapply on_time_replica_finish; exact Hfin.
Qed.

Lemma on_time_replicas budget fuel endTick :
  preservesP keeps_on_time (replicas budget fuel endTick).
Proof.
  induction budget as [ | budget IH]; intros s r s'; cbn [replicas];
    destruct (actRuns s <? numRuns s); try discriminate;
    try (intros [= <- <-]; apply keeps_on_time_refl).
  destruct (replica fuel endTick s) as [[[x | []] s1] | ] eqn:Hrep;
    try discriminate.
  - intros [= <- <-]. eapply on_time_replica; eauto.
  - intros Hrec. eapply keeps_on_time_trans;
      [ eapply on_time_replica | eapply IH ]; eauto.
Qed.

Lemma on_time_run fuel endTick nRuns :
  preservesP keeps_on_time (run fuel endTick nRuns).
Proof.
  intros s r s'. unfold run.
  destruct (run_prologue nRuns s) as [r1 s1] eqn:Hpro.
  pose proof (on_time_run_prologue _ _ _ _ Hpro) as H01.
  destruct r1 as [x | term]; [ intros [= <- <-]; exact H01 | ].
  destruct (replicas _ fuel endTick s1) as [[r2 s2] | ] eqn:Hrep;
    [ | discriminate ].
  pose proof (on_time_replicas _ _ _ _ _ _ Hrep) as H12.
  destruct r2 as [x | []].
  - intros [= <- <-]. eapply keeps_on_time_trans; eauto.
  - intros [= Hfin].
    eapply keeps_on_time_trans; [ exact H01 | ].
    eapply keeps_on_time_trans; [ exact H12 | ].
    revert Hfin. generalize s2. intros s0 Hfin. revert s0 r s' Hfin.
    change (preserves keeps_on_time
              (modify (set_end true) ;;
               if term then endSim else ret tt)).
    unfold endSim, emit.
    stepwise keeps_on_time_refl keeps_on_time_trans driver_leaf.
Qed.

Lemma on_time_new (q : EventSys) (reg : list Entity) :
  _eventQueue q = [] ->
  (forall e ev, heap q !! e = Some ev -> _isInQueue ev = false) ->
  on_time (Simulation_new q reg).
Proof.
  intros Hq Hfl. split; [ cbn; lia | ]. cbn [evs Simulation_new].
  constructor.
  - rewrite Hq. constructor.
  - intros e He. rewrite Hq in He. inversion He.
  - intros e ev He Hf. rewrite (Hfl e ev He) in Hf. discriminate.
Qed.

(** X10.  Being on time is an invariant of the driver.  A new simulation
    with no event queued is on time, and whatever the handlers and the
    [newRun] and [endRun] hooks do, every public member of [Simulation]
    -- [initRuns], [initSingleRun], [endSingleRun], [clearEventQueue],
    [sim_step], [run_to] and [run] -- leaves a simulation that is on time
    on time, whether it returns or an exception escapes. *)
Theorem driver_stays_on_time :
  (forall q reg,
      _eventQueue q = [] ->
      (forall e ev, heap q !! e = Some ev -> _isInQueue ev = false) ->
      on_time (Simulation_new q reg)) /\
  (forall n, preserves keeps_on_time (initRuns n)) /\
  preserves keeps_on_time initSingleRun /\
  preserves keeps_on_time endSingleRun /\
  preserves keeps_on_time clearEventQueue /\
  preserves keeps_on_time sim_step /\
  (forall fuel stop, preservesP keeps_on_time (run_to fuel stop)) /\
  (forall fuel endTick nRuns,
      preservesP keeps_on_time (run fuel endTick nRuns)).
Proof.
  split; [ exact on_time_new | ].
  split; [ exact on_time_initRuns | ].
  split; [ exact on_time_initSingleRun | ].
  split; [ exact on_time_endSingleRun | ].
  split; [ exact on_time_clearEventQueue | ].
  split; [ | split ].
  - intros s r s' Hstep Hon. apply (sim_step_moves_on _ _ _ Hstep Hon).
  - intros fuel stop s r s' Hrun Hon.
    apply (run_to_moves_on _ _ _ _ _ Hrun Hon).
  - exact on_time_run.
Qed.

(** ** Clearing the queue *)

Lemma cleared_lookup (q : list EventId) h x :
  cleared q h !! x =
    match h !! x with
    | Some ev =>
        if decide (x ∈ q)
        then if _disposable ev then None else Some (set_isInQueue false ev)
        else Some ev
    | None => None
    end.
Proof.
  unfold cleared. rewrite map_lookup_imap.
  destruct (h !! x); reflexivity.
Qed.

Lemma cleared_nil h : cleared [] h = h.
Proof.
  apply map_eq. intros x. rewrite cleared_lookup.
  destruct (h !! x); [ | reflexivity ].
  destruct (decide (x ∈ [])) as [Hin | _]; [ inversion Hin | reflexivity ].
Qed.

Lemma cleared_front_kept h temp ev rest :
  h !! temp = Some ev -> _disposable ev = false ->
  cleared (plist_erase temp rest) (<[temp := set_isInQueue false ev]> h)
  = cleared (temp :: rest) h.
Proof.
  intros He Hd. apply map_eq. intros x. rewrite !cleared_lookup.
  destruct (decide (x = temp)) as [-> | Hne].
  - rewrite lookup_insert_eq, He.
    destruct (decide (temp ∈ plist_erase temp rest)) as [Hin | _];
      [ apply elem_of_plist_erase in Hin; tauto | ].
    destruct (decide (temp ∈ temp :: rest)) as [_ | Hnin];
      [ | exfalso; apply Hnin; left ].
    rewrite Hd. reflexivity.
  - rewrite lookup_insert_ne by congruence.
    destruct (h !! x) as [evx | ]; [ | reflexivity ].
    destruct (decide (x ∈ plist_erase temp rest)) as [Hin | Hnin];
      destruct (decide (x ∈ temp :: rest)) as [Hin' | Hnin'];
      try reflexivity; exfalso.
    + apply Hnin'. apply elem_of_plist_erase in Hin. right. tauto.
    + apply Hnin. apply elem_of_plist_erase.
      apply elem_of_cons in Hin' as [-> | Hin']; tauto.
Qed.

Lemma cleared_front_deleted h temp ev rest :
  h !! temp = Some ev -> _disposable ev = true ->
  cleared (plist_erase temp rest) (delete temp h) = cleared (temp :: rest) h.
Proof.
  intros He Hd. apply map_eq. intros x. rewrite !cleared_lookup.
  destruct (decide (x = temp)) as [-> | Hne].
  - rewrite lookup_delete_eq, He.
    destruct (decide (temp ∈ temp :: rest)) as [_ | Hnin];
      [ | exfalso; apply Hnin; left ].
    rewrite Hd. reflexivity.
  - rewrite lookup_delete_ne by congruence.
    destruct (h !! x) as [evx | ]; [ | reflexivity ].
    destruct (decide (x ∈ plist_erase temp rest)) as [Hin | Hnin];
      destruct (decide (x ∈ temp :: rest)) as [Hin' | Hnin'];
      try reflexivity; exfalso.
    + apply Hnin'. apply elem_of_plist_erase in Hin. right. tauto.
    + apply Hnin. apply elem_of_plist_erase.
      apply elem_of_cons in Hin' as [-> | Hin']; tauto.
Qed.

Lemma plist_erase_twice e l : plist_erase e (plist_erase e l) = plist_erase e l.
Proof.
  apply plist_erase_absent. intros Hin.
  apply elem_of_plist_erase in Hin. tauto.
Qed.

(** The event system with its queue cleared. *)
Lemma clear_loop_effect (n : nat) s :
  (length (_eventQueue (evs s)) <= n)%nat ->
  (forall e, e ∈ _eventQueue (evs s) -> is_Some (heap (evs s) !! e)) ->
  clear_loop n s =
    (inr tt,
     set_evs (mkEventSys (cleared (_eventQueue (evs s)) (heap (evs s))) []
                         (counter (evs s)) (_stdgen (evs s))
                         (drawn (evs s))) s).
Proof.
  assert (forall s0, _eventQueue (evs s0) = [] ->
            s0 = set_evs (mkEventSys (cleared [] (heap (evs s0))) []
                                     (counter (evs s0)) (_stdgen (evs s0))
                                     (drawn (evs s0))) s0) as Hnil.
  { intros [[h0 q0 c0 g0 d0] t0 n0 a0 e0 reg0 o0]. cbn. intros ->.
    rewrite cleared_nil. reflexivity. }
  revert s. induction n as [ | n IH]; intros s Hlen Hlive; cbn [clear_loop].
  - destruct (_eventQueue (evs s)) as [ | temp rest] eqn:Hq;
      [ | cbn in Hlen; lia ].
    unfold ret. f_equal. apply Hnil, Hq.
  - unfold bind at 1, gets, getFirst.
    destruct (_eventQueue (evs s)) as [ | temp rest] eqn:Hq; cbn [head].
    { unfold ret. f_equal. apply Hnil, Hq. }
    destruct (Hlive temp) as [ev He]; [ left | ].
    unfold bind at 1. rewrite (liftE_drop temp ev s He).
    set (s1 := set_evs (dropped temp ev (evs s)) s).
    assert (heap (evs s1) !! temp = Some (set_isInQueue false ev)) as He1
      by (cbn; apply lookup_insert_eq).
    unfold bind at 1. rewrite (liftE_isDisposable temp _ s1 He1).
    unfold bind at 1. cbn [_disposable set_isInQueue].
    destruct (_disposable ev) eqn:Hd.
    + rewrite (liftE_destroy temp _ s1 He1). rewrite IH.
      * cbn [evs set_evs s1 dropped destroyed heap _eventQueue counter
             _stdgen drawn].
        rewrite Hq, plist_erase_front, plist_erase_twice, delete_insert_eq.
        rewrite (cleared_front_deleted _ temp ev rest He Hd). reflexivity.
      * cbn [evs set_evs s1 dropped destroyed _eventQueue].
        rewrite Hq, plist_erase_front, plist_erase_twice.
        pose proof (plist_erase_length temp rest). cbn in Hlen. lia.
      * cbn [evs set_evs s1 dropped destroyed _eventQueue heap].
        rewrite Hq, plist_erase_front, plist_erase_twice.
        intros x Hx. apply elem_of_plist_erase in Hx as [Hne Hx].
        rewrite lookup_delete_ne, lookup_insert_ne by congruence.
        apply Hlive. right. exact Hx.
    + unfold ret at 1. cbv beta iota. rewrite IH.
      * cbn [evs set_evs s1 dropped heap _eventQueue counter _stdgen drawn].
        rewrite Hq, plist_erase_front.
        rewrite (cleared_front_kept _ temp ev rest He Hd). reflexivity.
      * cbn [evs set_evs s1 dropped _eventQueue].
        rewrite Hq, plist_erase_front.
        pose proof (plist_erase_length temp rest). cbn in Hlen. lia.
      * cbn [evs set_evs s1 dropped _eventQueue heap].
        rewrite Hq, plist_erase_front.
        intros x Hx. apply elem_of_plist_erase in Hx as [Hne Hx].
        rewrite lookup_insert_ne by congruence.
        apply Hlive. right. exact Hx.
Qed.

(** X12.  [clearEventQueue] on a queue whose events are all live never
    throws: it empties the queue and resets the clock to 0; every event
    that was queued has its flag cleared, and is deleted if it is
    disposable; the events that were not queued, the counter and the
    generator are left as they were. *)
Theorem clearEventQueue_effect s :
  (forall e, e ∈ _eventQueue (evs s) -> is_Some (heap (evs s) !! e)) ->
  clearEventQueue s =
    (inr tt,
     set_globTime 0
       (set_evs (mkEventSys (cleared (_eventQueue (evs s)) (heap (evs s)))
                            [] (counter (evs s)) (_stdgen (evs s))
                            (drawn (evs s))) s)) /\
  forall x,
    cleared (_eventQueue (evs s)) (heap (evs s)) !! x =
      match heap (evs s) !! x with
      | Some ev =>
          if decide (x ∈ _eventQueue (evs s))
          then if _disposable ev then None else Some (set_isInQueue false ev)
          else Some ev
      | None => None
      end.
Proof.
  intros Hlive. split; [ | intros x; apply cleared_lookup ].
  unfold clearEventQueue. unfold bind at 1, gets. unfold bind.
  rewrite clear_loop_effect by (try assumption; lia).
  reflexivity.
Qed.

(** ** The state a [run] leaves *)

Lemma finish_clean s s' :
  (endSingleRun ;; modify (fun s => set_actRuns (actRuns s + 1) s)) s
  = (inr tt, s') ->
  _eventQueue (evs s') = [] /\ globTime s' = 0.
Proof.
  unfold bind at 1.
  destruct (endSingleRun s) as [[x | []] s1] eqn:Hend; [ discriminate | ].
  unfold modify. intros [= <-]. cbn [evs globTime set_actRuns].
  revert Hend. unfold endSingleRun. unfold bind at 1.
  destruct (callEndRun s) as [[x | []] s2]; [ discriminate | ].
  unfold bind at 1, emit at 1, modify.
  apply clearEventQueue_empties.
Qed.

Lemma replica_clean fuel endTick s s' :
  replica fuel endTick s = Some (inr tt, s') ->
  _eventQueue (evs s') = [] /\ globTime s' = 0.
Proof.
  unfold replica.
  destruct ((emit (ObsRun (actRuns s)) ;; initSingleRun) s)
    as [[x | []] s1]; [ discriminate | ].
  destruct (main_cycle fuel endTick s1) as [[[x | []] s2] | ];
    [ | | discriminate ].
  - destruct x; try discriminate. intros [= H]. revert H.
    unfold bind at 1, emit at 1, modify. apply finish_clean.
  - intros [= H]. revert H. apply finish_clean.
Qed.

Lemma replicas_clean budget fuel endTick s s' :
  actRuns s < numRuns s ->
  replicas budget fuel endTick s = Some (inr tt, s') ->
  _eventQueue (evs s') = [] /\ globTime s' = 0.
Proof.
  revert s. induction budget as [ | budget IH]; intros s Hlt;
    cbn [replicas]; destruct (Z.ltb_spec (actRuns s) (numRuns s));
    try discriminate; try lia.
  destruct (replica fuel endTick s) as [[[x | []] s1] | ] eqn:Hrep;
    try discriminate.
  intros Hrec. destruct (Z.lt_ge_cases (actRuns s1) (numRuns s1)) as [Hlt1 | Hge1].
  - apply (IH s1 Hlt1 Hrec).
  - destruct budget as [ | budget']; cbn [replicas] in Hrec;
      destruct (Z.ltb_spec (actRuns s1) (numRuns s1)); try lia;
      injection Hrec as <-; eapply replica_clean; eauto.
Qed.

(** X13.  When [run] returns, the simulation is finished and clean: the
    [end] flag is set, the run counter has reached the number of runs,
    which is at least one, the event queue is empty and -- since every
    replica ends with [clearEventQueue] -- the clock reads 0, not the
    time the last replica reached. *)
Theorem run_leaves_clean fuel endTick nRuns s s' :
  run fuel endTick nRuns s = Some (inr tt, s') ->
  _eventQueue (evs s') = [] /\ globTime s' = 0 /\ end_ s' = true /\
  actRuns s' = numRuns s' /\ 1 <= numRuns s'.
Proof.
  intros Hrun.
  destruct (run_batch_calls _ _ _ _ _ Hrun) as (_ & Hn & Ha & Hend).
  revert Hrun. unfold run.
  destruct (run_prologue_mode nRuns s) as (s1 & -> & Hn1 & Ha1 & Hpos & _).
  destruct (replicas (Z.to_nat (numRuns s1)) fuel endTick s1)
    as [[[x | []] s2] | ] eqn:Hrep; try discriminate.
  assert (actRuns s1 < numRuns s1) as Hlt by lia.
  destruct (replicas_clean _ _ _ _ _ Hlt Hrep) as [Hq Ht].
  intros [= Hfin].
  assert (evs s' = evs s2 /\ globTime s' = globTime s2) as [He Hg].
  { revert Hfin. unfold bind, modify, endSim, emit, ret.
    destruct (snd (fst (batch_mode nRuns))); intros [= <-]; split;
      reflexivity. }
  rewrite He, Hg. split; [ exact Hq | ]. split; [ exact Ht | ].
  split; [ exact Hend | ]. split; [ congruence | ].
  rewrite Hn, <- Hn1. exact Hpos.
Qed.

(** X14.  The calls [run] makes into the statistics engine, mode by
    mode.  With [n] the number of replicas -- 1 for [nRuns <= 1], 3 for
    [nRuns = 2], [nRuns] otherwise -- a [run] that returns has called
    [BaseStat::init(n)] first unless [nRuns] is 0 or -1, then
    [BaseStat::newRun()] and [BaseStat::endRun()] once per replica, in
    turn, then [BaseStat::endSim()] unless [nRuns] is negative; and it
    has made no other call. *)
Theorem run_statistics_protocol fuel endTick nRuns s s' :
  run fuel endTick nRuns s = Some (inr tt, s') ->
  let n := if nRuns <? 2 then 1 else if nRuns =? 2 then 3 else nRuns in
  stat_calls (out s') =
    stat_calls (out s) ++
    (if (nRuns =? 0) || (nRuns =? -1) then [] else [StatInit n]) ++
    concat (replicate (Z.to_nat n) [StatNewRun; StatEndRun]) ++
    (if nRuns <? 0 then [] else [StatEndSim]) /\
  numRuns s' = n.
Proof.
  intros Hrun. cbv zeta.
  destruct (run_batch_calls _ _ _ _ _ Hrun) as (Hs & Hn & _).
  rewrite Hs, Hn. clear. unfold batch_calls, batch_mode.
  destruct (Z.ltb_spec nRuns (-1));
    [ | destruct (Z.eqb_spec nRuns (-1));
        [ | destruct (Z.eqb_spec nRuns 0);
            [ | destruct (Z.eqb_spec nRuns 1);
                [ | destruct (Z.eqb_spec nRuns 2) ] ] ] ];
    destruct (Z.ltb_spec nRuns 2); try lia;
    destruct (Z.ltb_spec nRuns 0); try lia;
    try (destruct (Z.eqb_spec nRuns 0); try lia);
    try (destruct (Z.eqb_spec nRuns (-1)); try lia);
    try (destruct (Z.eqb_spec nRuns 2); try lia);
    cbn [fst snd orb]; split; reflexivity.
Qed.

(** ** Looking at the next event, then taking the step *)

(** X15.  [getNextEventTime] announces what [sim_step] does.  It changes
    nothing; when it returns [t], the [sim_step] that follows does not
    find the queue empty and leaves the clock at [t], whether the handler
    returns -- then [sim_step] returns [t] -- or throws; and it raises
    [NoMoreEventsInQueue] exactly when [sim_step] would. *)
Theorem getNextEventTime_announces_sim_step s :
  (forall t s1,
      getNextEventTime s = (inr t, s1) ->
      s1 = s /\
      forall r s', sim_step s = (r, s') ->
                   globTime s' = t /\ r <> inl NoMoreEventsInQueue /\
                   (forall t', r = inr t' -> t' = t)) /\
  (forall s1,
      getNextEventTime s = (inl NoMoreEventsInQueue, s1) <->
      sim_step s = (inl NoMoreEventsInQueue, s1)).
Proof.
  split.
  - intros t s1 Hn.
    destruct (getNextEventTime_inv _ _ _ Hn)
      as [-> [(Hr & _) | [(temp & _ & _ & Hr) | (temp & ev & Hf & He & Hr)]]];
      try discriminate.
    injection Hr as ->. split; [ reflexivity | ].
    intros r s' Hstep. unfold getFirst in Hf.
    destruct (_eventQueue (evs s)) as [ | x rest] eqn:Hq; [ discriminate | ].
    injection Hf as ->.
    split; [ | split ].
    + rewrite (sim_step_rest temp rest ev s Hq He) in Hstep.
      rewrite (same_clock_step_rest _ _ _ _ _ Hstep). reflexivity.
    + intros ->. apply sim_step_not_empty in Hstep. congruence.
    + intros t' ->. rewrite (sim_step_rest temp rest ev s Hq He) in Hstep.
      eapply step_rest_result. exact Hstep.
  - intros s1. split.
    + intros Hn.
      destruct (getNextEventTime_inv _ _ _ Hn)
        as [-> [(_ & Hq) | [(temp & _ & _ & Hr) | (temp & ev & _ & _ & Hr)]]];
        try discriminate.
      unfold sim_step, bind, gets, getFirst, throw. rewrite Hq. reflexivity.
    + intros Hstep. pose proof (sim_step_not_empty _ _ Hstep) as Hq.
      revert Hstep. unfold sim_step, bind, gets, getFirst, throw.
      rewrite Hq. cbn [head]. intros [= <-].
      apply getNextEventTime_empty. exact Hq.
Qed.

(** ** Running to the same time again *)

Lemma run_to_returns fuel stop s t s' :
  run_to fuel stop s = Some (inr t, s') ->
  exists s1, run_to_exit stop s1 /\ s' = run_to_final stop s1 /\
             t = Z.max (globTime s1) stop.
Proof.
  unfold run_to.
  destruct (run_to_loop fuel stop s) as [[r1 s1] | ] eqn:Hloop;
    [ | discriminate ].
  destruct (run_to_loop_sound _ _ _ _ _ Hloop)
    as (s0 & _ & _ & [(-> & -> & Hfront) | [(-> & -> & Hq) | Hexc]]).
  - intros [= H]. exists s0.
    assert (run_to_exit stop s0) as Hex by (right; exact Hfront).
    pose proof (run_to_final_exit stop s0 Hex) as Hfin.
    destruct Hfront as (temp & ev & Hf & _). unfold getFirst in Hf.
    destruct (_eventQueue (evs s0)) eqn:Hq; [ discriminate | ].
    rewrite Hfin in H. injection H as <- <-. repeat split. exact Hex.
  - intros [= H]. exists s0.
    assert (run_to_exit stop s0) as Hex by (left; exact Hq).
    pose proof (run_to_final_exit stop s0 Hex) as Hfin.
    rewrite Hq in Hfin. rewrite Hfin in H. injection H as <- <-.
    repeat split. exact Hex.
  - destruct Hexc as (x & -> & Hx). destruct x; try discriminate.
    congruence.
Qed.

(** X16.  [run_to] is idempotent: once [run_to(stop)] has returned [t], a
    second [run_to(stop)] returns [t] again after a single look at the
    queue; it executes no event and leaves the clock and the event system
    as they are. *)
Theorem run_to_again fuel stop s t s' :
  run_to fuel stop s = Some (inr t, s') ->
  exists s'',
    run_to 1 stop s' = Some (inr t, s'') /\
    evs s'' = evs s' /\ globTime s'' = t /\
    executed (out s'') = executed (out s').
Proof.
  intros Hrun.
  destruct (run_to_returns _ _ _ _ _ Hrun) as (s1 & Hex & -> & ->).
  set (s' := run_to_final stop s1).
  assert (globTime s' = Z.max (globTime s1) stop) as Hg by reflexivity.
  assert (evs s' = evs s1) as He by reflexivity.
  assert (Z.max (globTime s') stop = Z.max (globTime s1) stop) as Hmax
    by (rewrite Hg; lia).
  unfold run_to. cbn [run_to_loop].
  destruct Hex as [Hq | (temp & ev & Hf & Hl & Hlate)].
  - rewrite (getNextEventTime_empty s') by (rewrite He; exact Hq).
    unfold bind, emit, modify. rewrite clamp_to_final.
    cbn [globTime set_out]. rewrite Hmax.
    eexists. split; [ reflexivity | ]. repeat split.
    cbn [out set_globTime set_out]. rewrite executed_app. cbn.
    apply app_nil_r.
  - rewrite (getNextEventTime_front temp ev s')
      by (rewrite He; assumption).
    destruct (Z.leb_spec (_time ev) stop); [ lia | ].
    rewrite clamp_to_final, Hmax.
    eexists. split; [ reflexivity | ]. repeat split.
Qed.

(** ** Priorities *)

(** X17.  No handler can touch the standard priority of an event:
    whatever a handler has done -- any number of [setPriority],
    [process], [post] or [drop], and whether it returned or threw -- every
    event that was live still is, and [restorePriority] gives it back
    the priority it was constructed with. *)
Theorem restorePriority_undoes_handlers (hd : Handler) now q r q' e ev :
  heap q !! e = Some ev -> run_handler hd now q = (r, q') ->
  exists ev' q'',
    heap q' !! e = Some ev' /\ _std_priority ev' = _std_priority ev /\
    restorePriority e q' = (inr tt, q'') /\
    getPriority e q'' = (inr (_std_priority ev), q'').
Proof.
  intros He Hh.
  destruct (same_frozen_live _ _ _ _ (run_handler_frozen _ _ _ _ _ Hh) He)
    as (ev' & He' & Hfr).
  assert (_std_priority ev' = _std_priority ev) as Hstd
    by (unfold frozen in Hfr; congruence).
  exists ev'. eexists. split; [ exact He' | ]. split; [ exact Hstd | ].
  unfold restorePriority, getPriority, bind, deref, store, modify, ret.
  rewrite He'. split; [ reflexivity | ].
  cbn [heap set_heap]. rewrite lookup_insert_eq. cbn. rewrite Hstd.
  reflexivity.
Qed.

(** ** Scheduling instructions *)

Import RTSim.

Implicit Types (i : SchedInstr).

Lemma plist_erase_insert (lt : EventId -> EventId -> bool) e l :
  e ∉ l -> plist_erase e (plist_insert lt e l) = l.
Proof.
  induction l as [ | x l IH]; intros Hnin; cbn [plist_insert].
  - unfold plist_erase. rewrite filter_cons.
    destruct (decide (e <> e)); [ congruence | reflexivity ].
  - destruct (lt e x).
    + rewrite plist_erase_front. apply plist_erase_absent. exact Hnin.
    + apply not_elem_of_cons in Hnin as [Hne Hnin].
      unfold plist_erase. rewrite filter_cons.
      destruct (decide (x <> e)) as [_ | Heq]; [ | exfalso; apply Heq; congruence ].
      f_equal. apply IH. exact Hnin.
Qed.

Lemma schedule_ok i s ev :
  heap (evs s) !! _endEvt i = Some ev -> _isInQueue ev = false ->
  schedule i s =
    (inr tt,
     set_evs
       (let ev' := set_isInQueue true
                     (set_disposable false
                        (set_time (globTime s)
                           (set_order (counter (evs s) + 1) ev))) in
        let h' := <[_endEvt i := ev']> (heap (evs s)) in
        mkEventSys h' (plist_insert (Cmp_ptr h') (_endEvt i)
                                    (_eventQueue (evs s)))
                   (counter (evs s) + 1) (_stdgen (evs s)) (drawn (evs s)))
       s).
Proof.
  intros He Hfl. unfold schedule, liftE.
  rewrite (post_ok _ ev _ _ _ _ He (Z.le_refl _) Hfl). reflexivity.
Qed.

Lemma on_time_schedule i : preserves keeps_on_time (schedule i).
Proof. unfold schedule. on_time_leaf. Qed.

Lemma on_time_deschedule i : preserves keeps_on_time (deschedule i).
Proof. unfold deschedule. on_time_leaf. Qed.

Lemma on_time_endRun i : preserves keeps_on_time (endRun i).
Proof.
  unfold endRun.
  stepwise keeps_on_time_refl keeps_on_time_trans on_time_leaf.
Qed.

Lemma on_time_schedule_deschedule i :
  preserves keeps_on_time (schedule i ;; deschedule i).
Proof.
  stepwise keeps_on_time_refl keeps_on_time_trans
           ltac:(first [ apply on_time_schedule | apply on_time_deschedule ]).
Qed.

(** X18.  [schedule()] followed by [deschedule()] leaves the queue as it
    was: the end event is posted at the current time and taken out
    again, and no other event moves or changes.  The end event itself is
    not as it was: it keeps the time and the insertion number of the
    post, which has been counted, and it is no longer disposable. *)
Theorem schedule_then_deschedule i s ev :
  on_time s ->
  heap (evs s) !! _endEvt i = Some ev -> _isInQueue ev = false ->
  exists s',
    (schedule i ;; deschedule i) s = (inr tt, s') /\
    _eventQueue (evs s') = _eventQueue (evs s) /\
    heap (evs s') =
      <[_endEvt i :=
          set_isInQueue false
            (set_disposable false
               (set_time (globTime s)
                  (set_order (counter (evs s) + 1) ev)))]> (heap (evs s)) /\
    counter (evs s') = counter (evs s) + 1 /\
    globTime s' = globTime s /\ out s' = out s /\ on_time s'.
Proof.
  intros Hon He Hfl.
  pose proof (timely_not_queued _ _ _ _ (proj2 Hon) He Hfl) as Hnin.
  assert (exists s', (schedule i ;; deschedule i) s = (inr tt, s') /\
            _eventQueue (evs s') = _eventQueue (evs s) /\
            heap (evs s') =
              <[_endEvt i :=
                  set_isInQueue false
                    (set_disposable false
                       (set_time (globTime s)
                          (set_order (counter (evs s) + 1) ev)))]>
                (heap (evs s)) /\
            counter (evs s') = counter (evs s) + 1 /\
            globTime s' = globTime s /\ out s' = out s)
    as (s' & Hrun & Hrest).
  { unfold bind. rewrite (schedule_ok i s ev He Hfl). cbv zeta.
    unfold deschedule.
    erewrite liftE_drop by (cbn; apply lookup_insert_eq).
    eexists. split; [ reflexivity | ].
    cbn [evs set_evs dropped heap _eventQueue counter globTime out].
    rewrite plist_erase_insert by exact Hnin.
    rewrite insert_insert_eq. repeat split. }
  exists s'. split; [ exact Hrun | ].
  destruct Hrest as (H1 & H2 & H3 & H4 & H5).
  repeat (split; [ assumption | ]).
  exact (on_time_schedule_deschedule i s _ s' Hrun Hon).
Qed.

(** X19.  [schedule()] succeeds exactly when the end event is live and
    not in the queue.  When it fails, it changes nothing; and it fails
    when called a second time, the instruction being scheduled
    already. *)
Theorem schedule_fails_when_scheduled i s :
  ((exists s', schedule i s = (inr tt, s')) <->
   (exists ev, heap (evs s) !! _endEvt i = Some ev /\
               _isInQueue ev = false)) /\
  (forall x s', schedule i s = (inl x, s') -> s' = s) /\
  (forall s1, schedule i s = (inr tt, s1) ->
              exists x, schedule i s1 = (inl x, s1)).
Proof.
  assert (forall s0 s1, schedule i s0 = (inr tt, s1) ->
            exists ev, heap (evs s0) !! _endEvt i = Some ev /\
                       _isInQueue ev = false /\
                       exists ev1, heap (evs s1) !! _endEvt i = Some ev1 /\
                                   _isInQueue ev1 = true) as Hinv.
  { intros s0 s1. unfold schedule, liftE.
    destruct (post _ _ _ _ (evs s0)) as [[x | []] q1] eqn:Hp;
      [ discriminate | ].
    intros [= <-]. apply post_inv in Hp as (ev & He & _ & Hfl & ->).
    exists ev. repeat split; try assumption.
    eexists. cbn. rewrite lookup_insert_eq. split; reflexivity. }
  assert (forall s0 x s1, schedule i s0 = (inl x, s1) -> s1 = s0) as Hfail.
  { intros s0 x s1. unfold schedule, liftE.
    destruct (post _ _ _ _ (evs s0)) as [[y | []] q1] eqn:Hp;
      [ | discriminate ].
    intros [= _ <-]. apply post_fail in Hp as ->. apply set_evs_id. }
  split; [ split | split ].
  - intros (s' & Hs). destruct (Hinv _ _ Hs) as (ev & He & Hfl & _).
    exists ev. split; assumption.
  - intros (ev & He & Hfl). eexists. apply (schedule_ok i s ev He Hfl).
  - intros x s'. apply Hfail.
  - intros s1 Hs. destruct (Hinv _ _ Hs) as (_ & _ & _ & ev1 & He1 & Hfl1).
    destruct (schedule i s1) as [[x | []] s2] eqn:Hs2.
    + exists x. rewrite (Hfail _ _ _ Hs2). reflexivity.
    + destruct (Hinv _ _ Hs2) as (ev & He & Hfl & _). congruence.
Qed.

(** X20.  [endRun()] takes the end event and the threshold event out of
    the queue, whether they are in it or not, without an exception as
    long as both are live; the other events keep their place in the
    queue and their state, and a simulation that is on time stays so. *)
Theorem endRun_unqueues i s ev1 ev2 :
  heap (evs s) !! _endEvt i = Some ev1 ->
  heap (evs s) !! _threEvt i = Some ev2 ->
  exists s',
    endRun i s = (inr tt, s') /\
    _eventQueue (evs s') =
      plist_erase (_threEvt i) (plist_erase (_endEvt i) (_eventQueue (evs s)))
    /\
    isInQueue (_endEvt i) (evs s') = (inr false, evs s') /\
    isInQueue (_threEvt i) (evs s') = (inr false, evs s') /\
    (forall x, x <> _endEvt i -> x <> _threEvt i ->
               heap (evs s') !! x = heap (evs s) !! x) /\
    globTime s' = globTime s /\ out s' = out s /\
    (on_time s -> on_time s').
Proof.
  intros He1 He2.
  assert (exists ev2', heap (dropped (_endEvt i) ev1 (evs s)) !! _threEvt i
                       = Some ev2') as [ev2' He2'].
  { cbn. destruct (decide (_endEvt i = _threEvt i)) as [Heq | Hne].
    - rewrite Heq, lookup_insert_eq. eauto.
    - rewrite lookup_insert_ne by exact Hne. eauto. }
  assert (endRun i s =
            (inr tt,
             set_evs (dropped (_threEvt i) ev2'
                        (dropped (_endEvt i) ev1 (evs s))) s)) as Hrun.
  { unfold endRun, bind. rewrite (liftE_drop _ ev1 s He1).
    erewrite liftE_drop by (cbn [evs set_evs]; exact He2').
    reflexivity. }
  set (q' := dropped (_threEvt i) ev2' (dropped (_endEvt i) ev1 (evs s)))
    in *.
  assert (forall e ev, heap q' !! e = Some ev -> _isInQueue ev = false ->
                       isInQueue e q' = (inr false, q')) as Hflag.
  { intros e ev He Hfl. unfold isInQueue, bind, deref, ret.
    rewrite He, Hfl. reflexivity. }
  exists (set_evs q' s). split; [ exact Hrun | ].
  cbn [evs set_evs globTime out].
  split; [ reflexivity | ].
  split; [ | split; [ | split; [ | split; [ | split ] ] ] ].
  - destruct (decide (_threEvt i = _endEvt i)) as [Heq | Hne].
    + apply (Hflag _ (set_isInQueue false ev2')); [ | reflexivity ].
      unfold q', dropped. cbn [heap]. rewrite <- Heq.
      apply lookup_insert_eq.
    + apply (Hflag _ (set_isInQueue false ev1)); [ | reflexivity ].
      unfold q', dropped. cbn [heap].
      rewrite lookup_insert_ne by exact Hne. apply lookup_insert_eq.
  - apply (Hflag _ (set_isInQueue false ev2')); [ | reflexivity ].
    unfold q', dropped. cbn [heap]. apply lookup_insert_eq.
  - intros x Hx1 Hx2. unfold q', dropped. cbn [heap].
    rewrite !lookup_insert_ne by congruence. reflexivity.
  - reflexivity.
  - reflexivity.
  - intros Hon. eapply on_time_endRun; eauto.
Qed.

(** X21.  What [schedule()] posts is due now: in a simulation that is on
    time, once [schedule()] has returned the end event is in the queue
    and the next event -- the end event, or one queued in front of it --
    is due at the current time, so that the step that executes it does
    not move the clock. *)
Theorem schedule_is_due_now i s s' :
  on_time s -> schedule i s = (inr tt, s') ->
  on_time s' /\ _endEvt i ∈ _eventQueue (evs s') /\
  getNextEventTime s' = (inr (globTime s), s') /\
  forall r s'', sim_step s' = (r, s'') -> globTime s'' = globTime s.
Proof.
  intros Hon Hs.
  pose proof (on_time_schedule i s _ s' Hs Hon) as Hon'.
  assert (globTime s' = globTime s /\
          exists ev', heap (evs s') !! _endEvt i = Some ev' /\
                      _time ev' = globTime s /\
                      _endEvt i ∈ _eventQueue (evs s'))
    as (Hg & ev' & He' & Ht' & Hin).
  { revert Hs. unfold schedule, liftE.
    destruct (post _ _ _ _ (evs s)) as [[x | []] q1] eqn:Hp;
      [ discriminate | ].
    intros [= <-]. apply post_inv in Hp as (ev & He & _ & Hfl & ->).
    split; [ reflexivity | ]. eexists. cbn. rewrite lookup_insert_eq.
    split; [ reflexivity | ]. split; [ reflexivity | ].
    apply elem_of_plist_insert. left. reflexivity. }
  split; [ exact Hon' | ]. split; [ exact Hin | ].
  destruct Hon' as [_ Ht].
  destruct (_eventQueue (evs s')) as [ | f rest] eqn:Hq; [ inversion Hin | ].
  destruct (timely_queued _ _ Ht f) as (evf & Hf & _ & Hdue);
    [ rewrite Hq; left | ].
  assert (_time evf = globTime s) as Htf.
  { apply Z.le_antisymm; [ | lia ].
    pose proof (timely_sorted _ _ Ht) as Hsorted. rewrite Hq in Hsorted.
    apply elem_of_cons in Hin as [Heq | Hin].
    - rewrite <- Heq, He' in Hf. injection Hf as <-. lia.
    - apply StronglySorted_inv in Hsorted as [_ Hall].
      rewrite Forall_forall in Hall. specialize (Hall _ Hin).
      unfold due_before in Hall. rewrite Hf, He' in Hall. lia. }
  assert (getNextEventTime s' = (inr (globTime s), s')) as Hnext.
  { rewrite <- Htf. apply (getNextEventTime_front f evf).
    - unfold getFirst. rewrite Hq. reflexivity.
    - exact Hf. }
  split; [ exact Hnext | ].
  intros r s'' Hstep.
  rewrite (sim_step_rest f rest evf s' Hq Hf) in Hstep.
  rewrite (same_clock_step_rest _ _ _ _ _ Hstep). cbn. exact Htf.
Qed.

(** ** What [run_to] leaves to [run] *)

Lemma undisturbed_refl s : undisturbed s s.
Proof. repeat split. Qed.

Lemma undisturbed_trans s1 s2 s3 :
  undisturbed s1 s2 -> undisturbed s2 s3 -> undisturbed s1 s3.
Proof. unfold undisturbed. intros H1 H2. repeat split; try congruence;
  [ transitivity (stat_calls (out s2)); tauto
  | transitivity (numRuns s2); tauto
  | transitivity (actRuns s2); tauto
  | transitivity (end_ s2); tauto
  | transitivity (registry s2); tauto ].
Qed.

Lemma undisturbed_liftE {A} (m : Tick -> M EventSys A) :
  preserves undisturbed (liftE m).
Proof.
  intros s r s'. unfold liftE.
  destruct (m (globTime s) (evs s)) as [r' q']. intros [= <- <-].
  repeat split.
Qed.

Lemma undisturbed_emit (o : Obs) : no_stat o -> preserves undisturbed (emit o).
Proof.
  intros Ho s r s' [= <- <-]. repeat split. cbn [out set_out].
  unfold stat_calls. rewrite omap_app.
  destruct o; try contradiction; apply app_nil_r.
Qed.

Lemma undisturbed_setTime t : preserves undisturbed (setTime t).
Proof. intros s r s' [= <- <-]. repeat split. Qed.

Ltac undisturbed_leaf :=
  first [ apply undisturbed_liftE | apply undisturbed_emit; exact I
        | apply undisturbed_setTime ].

Lemma undisturbed_probe e p : preserves undisturbed (probe e p).
Proof.
  unfold probe.
  stepwise undisturbed_refl undisturbed_trans undisturbed_leaf.
Qed.

Lemma undisturbed_action e : preserves undisturbed (action e).
Proof.
  unfold action.
  stepwise undisturbed_refl undisturbed_trans
           ltac:(first [ undisturbed_leaf | apply undisturbed_probe ]).
Qed.

Lemma undisturbed_sim_step : preserves undisturbed sim_step.
Proof.
  unfold sim_step.
  stepwise undisturbed_refl undisturbed_trans
           ltac:(first [ undisturbed_leaf | apply undisturbed_action ]).
Qed.

Lemma undisturbed_clamp_to stop : preserves undisturbed (clamp_to stop).
Proof.
  unfold clamp_to.
  stepwise undisturbed_refl undisturbed_trans undisturbed_leaf.
Qed.

Lemma undisturbed_run_to_loop fuel stop :
  preservesP undisturbed (run_to_loop fuel stop).
Proof.
  induction fuel as [ | fuel IH]; intros s r s'; cbn [run_to_loop];
    [ discriminate | ].
  destruct (getNextEventTime s) as [rt st] eqn:Hn.
  destruct (getNextEventTime_inv _ _ _ Hn) as [-> _].
  destruct rt as [x | t]; [ intros [= <- <-]; apply undisturbed_refl | ].
  destruct (t <=? stop); [ | intros [= <- <-]; apply undisturbed_refl ].
  destruct (sim_step s) as [[x | t'] s2] eqn:Hstep.
  - intros [= <- <-]. eapply undisturbed_sim_step; eauto.
  - intros Hrec.
    eapply undisturbed_trans; [ eapply undisturbed_sim_step; eauto | ].
    eapply undisturbed_trans; [ | eapply IH; eauto ].
    repeat split.
Qed.

(** X24.  [sim_step] and [run_to] are debugging aids that leave to [run]
    what belongs to [run]: whatever the handlers do and however they
    end, neither calls the statistics engine, and neither touches the
    run counters, the [end] flag or the registry of entities. *)
Theorem run_to_leaves_run_alone :
  (forall s r s', sim_step s = (r, s') -> undisturbed s s') /\
  (forall fuel stop s r s',
      run_to fuel stop s = Some (r, s') -> undisturbed s s').
Proof.
  split; [ exact undisturbed_sim_step | ].
  intros fuel stop s r s'. unfold run_to.
  destruct (run_to_loop fuel stop s) as [[r1 s1] | ] eqn:Hloop;
    [ | discriminate ].
  pose proof (undisturbed_run_to_loop _ _ _ _ _ Hloop) as H01.
  assert (preserves undisturbed
            (emit (ObsNoMoreEvents (globTime s1)) ;; clamp_to stop)) as Hdiag.
  { stepwise undisturbed_refl undisturbed_trans
             ltac:(first [ undisturbed_leaf | apply undisturbed_clamp_to ]). }
  destruct r1 as [[ | | | ] | []]; try (intros [= <- <-]; exact H01);
    intros [= H]; (eapply undisturbed_trans; [ exact H01 | ]).
  - eapply Hdiag. exact H.
  - eapply undisturbed_clamp_to. exact H.
Qed.

(** ** The exceptions that escape [run] *)

Lemma raises_only_on_exception {S A} (P : Exc -> Prop)
      (m : M S A) (h : M S unit) :
  raises_only P m -> raises_only P h -> raises_only P (on_exception m h).
Proof.
  intros Hm Hh s x s'. unfold on_exception.
  destruct (m s) as [[y | a] s1] eqn:H1; [ | discriminate ].
  destruct (h s1) as [[z | []] s2] eqn:H2; intros [= <- <-].
  - eapply Hh; eauto.
  - eapply Hm; eauto.
Qed.

Ltac raises leaf :=
  repeat
    lazymatch goal with
    | |- raises_only _ (ret _) => apply raises_only_ret
    | |- raises_only _ (gets _) => apply raises_only_gets
    | |- raises_only _ (modify _) => apply raises_only_modify
    | |- raises_only _ (bind _ _) => apply raises_only_bind; [ | intros ? ]
    | |- raises_only _ (for_each _ _) => apply raises_only_for_each; intros ?
    | |- raises_only _ (on_exception _ _) => apply raises_only_on_exception
    | |- raises_only _ (if ?c then _ else _) => destruct c
    | |- raises_only _ (match ?x with Some _ => _ | None => _ end) =>
        destruct x
    | |- raises_only _ (let '(_, _) := ?x in _) => destruct x as [[? ?] ?]
    | |- raises_only _ _ => progress leaf
    end.

Ltac raises_leaf :=
  apply raises_only_liftE; intros ?;
  first [ apply raises_only_drop | apply raises_only_destroy
        | apply raises_only_isDisposable | apply raises_only_run_handler ].

Lemma raises_only_clear_loop (n : nat) :
  raises_only not_empty_queue (clear_loop n).
Proof.
  induction n as [ | n IH]; cbn [clear_loop];
    raises ltac:(first [ raises_leaf | apply IH ]).
Qed.

Lemma raises_only_clearEventQueue :
  raises_only not_empty_queue clearEventQueue.
Proof.
  unfold clearEventQueue, setTime.
  raises ltac:(first [ raises_leaf | apply raises_only_clear_loop ]).
Qed.

Lemma raises_only_initSingleRun : raises_only not_empty_queue initSingleRun.
Proof.
  unfold initSingleRun, callNewRun, setTime, emit.
  raises ltac:(first [ raises_leaf | apply raises_only_clearEventQueue ]).
Qed.

Lemma raises_only_endSingleRun : raises_only not_empty_queue endSingleRun.
Proof.
  unfold endSingleRun, callEndRun, emit.
  raises ltac:(first [ raises_leaf | apply raises_only_clearEventQueue ]).
Qed.

Lemma raises_only_run_prologue nRuns :
  raises_only not_empty_queue (run_prologue nRuns).
Proof.
  unfold run_prologue, run_mode, initRuns, setTime, emit.
  raises ltac:(idtac).
Qed.

Lemma same_runs_refl s : same_runs s s.
Proof. split; reflexivity. Qed.

Lemma same_runs_trans s1 s2 s3 :
  same_runs s1 s2 -> same_runs s2 s3 -> same_runs s1 s3.
Proof. unfold same_runs. intros [? ?] [? ?]. split; congruence. Qed.

Lemma same_runs_quiet {A} (m : M Simulation A) :
  preserves quiet m -> preserves same_runs m.
Proof.
  intros Hm s r s' H. destruct (Hm s r s' H) as (Hn & Ha & _).
  split; assumption.
Qed.

Lemma same_runs_initSingleRun : preserves same_runs initSingleRun.
Proof.
  unfold initSingleRun, emit.
  stepwise same_runs_refl same_runs_trans
           ltac:(first [ apply same_runs_quiet;
                         first [ apply quiet_setTime | apply quiet_callNewRun ]
                       | apply preserves_modify; intros ?; split;
                         reflexivity ]).
Qed.

Lemma same_runs_endSingleRun : preserves same_runs endSingleRun.
Proof.
  unfold endSingleRun, emit.
  stepwise same_runs_refl same_runs_trans
           ltac:(first [ apply same_runs_quiet;
                         first [ apply quiet_callEndRun
                               | apply quiet_clearEventQueue ]
                       | apply preserves_modify; intros ?; split;
                         reflexivity ]).
Qed.

(** A replica that an exception cuts short: the exception is not
    [NoMoreEventsInQueue], and the run counters have not moved. *)
Lemma replica_raises fuel endTick s x s' :
  replica fuel endTick s = Some (inl x, s') ->
  x <> NoMoreEventsInQueue /\ same_runs s s'.
Proof.
  unfold replica. unfold bind at 1, emit at 1, modify.
  set (s0 := set_out (out s ++ [ObsRun (actRuns s)]) s).
  assert (same_runs s s0) as H00 by (split; reflexivity).
  destruct (initSingleRun s0) as [[y | []] s1] eqn:Hinit.
  { intros [= <- <-]. split.
    - eapply raises_only_initSingleRun; eauto.
    - eapply same_runs_trans; [ exact H00 | ].
      eapply same_runs_initSingleRun; eauto. }
  pose proof (same_runs_initSingleRun _ _ _ Hinit) as H01.
  destruct (main_cycle fuel endTick s1) as [[r2 s2] | ] eqn:Hmain;
    [ | discriminate ].
  pose proof (quiet_main_cycle _ _ _ _ _ Hmain) as (Hn12 & Ha12 & _).
  assert (same_runs s s2) as H02.
  { eapply same_runs_trans; [ exact H00 | ].
    eapply same_runs_trans; [ exact H01 | ]. split; assumption. }
  assert (forall s3 s4 y,
             same_runs s2 s3 ->
             (endSingleRun ;; modify (fun s => set_actRuns (actRuns s + 1) s)) s3
             = (inl y, s4) ->
             y <> NoMoreEventsInQueue /\ same_runs s s4) as Hfin.
  { intros s3 s4 y H23. unfold bind.
    destruct (endSingleRun s3) as [[z | []] s5] eqn:Hend; [ | discriminate ].
    intros [= <- <-]. split.
    - eapply raises_only_endSingleRun; eauto.
    - eapply same_runs_trans; [ exact H02 | ].
      eapply same_runs_trans; [ exact H23 | ].
      eapply same_runs_endSingleRun; eauto. }
  destruct r2 as [y | []].
  - destruct y;
      try (intros [= <- <-]; split; [ discriminate | exact H02 ]).
    intros [= H]. revert H. unfold bind at 1, emit at 1, modify. apply Hfin.
    split; reflexivity.
  - intros [= H]. revert H. apply Hfin. apply same_runs_refl.
Qed.

Lemma replicas_raises budget fuel endTick s x s' :
  replicas budget fuel endTick s = Some (inl x, s') ->
  x <> NoMoreEventsInQueue /\ numRuns s' = numRuns s /\
  actRuns s' < numRuns s'.
Proof.
  revert s. induction budget as [ | budget IH]; intros s; cbn [replicas];
    destruct (Z.ltb_spec (actRuns s) (numRuns s)); try discriminate.
  destruct (replica fuel endTick s) as [[[y | []] s1] | ] eqn:Hrep;
    try discriminate.
  - intros [= <- <-].
    destruct (replica_raises _ _ _ _ _ Hrep) as [Hx [Hn Ha]].
    split; [ exact Hx | ]. split; [ exact Hn | lia ].
  - intros Hrec. destruct (IH _ Hrec) as (Hx & Hn & Ha).
    destruct (replica_calls _ _ _ _ Hrep) as (Hn1 & _).
    split; [ exact Hx | ]. split; [ congruence | exact Ha ].
Qed.

(** An exception of a replica that the loop gets to ends the loop. *)
Lemma replicas_reach_raises fuel endTick s sk x s' :
  replicas_reach fuel endTick s sk ->
  actRuns sk < numRuns sk ->
  replica fuel endTick sk = Some (inl x, s') ->
  forall budget : nat,
    numRuns s - actRuns s <= Z.of_nat budget ->
    replicas budget fuel endTick s = Some (inl x, s').
Proof.
  intros Hreach Hk Hrep.
  induction Hreach as [s | s s1 sk Hlt Hdone _ IH]; intros budget Hb.
  - destruct budget as [ | budget]; [ cbn in Hb; lia | ].
    cbn [replicas]. destruct (Z.ltb_spec (actRuns s) (numRuns s)); [ | lia ].
    rewrite Hrep. reflexivity.
  - destruct budget as [ | budget]; [ cbn in Hb; lia | ].
    cbn [replicas]. destruct (Z.ltb_spec (actRuns s) (numRuns s)); [ | lia ].
    rewrite Hdone.
    destruct (replica_calls _ _ _ _ Hdone) as (Hn & Ha & _).
    apply (IH Hk Hrep). lia.
Qed.

End MoreOnTheEngine.

(** ** The task a factory call makes *)

Section PeriodicTaskResult.
Import Rand MetaSim RTSim.

Variable Tick_of_string : string -> Tick.
Variable atoi : string -> Z.

End PeriodicTaskResult.

(** ** The further properties at work *)

Section MoreWitnesses.
Import Rand MetaSim SimSpec RTSim Scenarios.

Lemma no_flag_two_events e ev :
  heap two_events !! e = Some ev -> _isInQueue ev = false.
Proof.
  unfold two_events. cbn [heap]. intros He.
  apply lookup_insert_Some in He as [[_ <-] | [_ He]]; [ reflexivity | ].
  apply lookup_singleton_Some in He as [_ <-]. reflexivity.
Qed.

Lemma on_time_two_events : on_time (sim_of [] two_events).
Proof.
  apply (on_time_new two_events []); [ reflexivity | ].
  exact no_flag_two_events.
Qed.

Lemma on_time_AB_posted : on_time (sim_of [] AB_posted).
Proof.
  split; [ cbn; lia | ]. cbn [evs sim_of globTime].
  apply (timely_post 0 B 10 false A_posted); [ | vm_compute; reflexivity ].
  apply (timely_post 0 A 10 false two_events); [ | vm_compute; reflexivity ].
  apply on_time_two_events.
Qed.

Lemma live_AB_posted e :
  e ∈ _eventQueue (evs (sim_of [] AB_posted)) ->
  is_Some (heap (evs (sim_of [] AB_posted)) !! e).
Proof.
  intros He. destruct on_time_AB_posted as [_ Ht].
  destruct (timely_queued _ _ Ht e He) as (ev & Hl & _). eauto.
Qed.

Lemma Zgtb_irrefl (x : Z) : (x >? x) = false.
Proof. rewrite Z.gtb_ltb. apply Z.ltb_irrefl. Qed.

Lemma Zgtb_trans (x y z : Z) :
  (x >? y) = true -> (y >? z) = true -> (x >? z) = true.
Proof. rewrite !Z.gtb_ltb, !Z.ltb_lt. lia. Qed.

Lemma Zltb_trans (x y z : Z) :
  (x <? y) = true -> (y <? z) = true -> (x <? z) = true.
Proof. rewrite !Z.ltb_lt. lia. Qed.

Lemma samples_stay_in_range_witness :
  Forall (fun v => 0 < v < Rand.M) (fst (samples 3 (RandomGen_new 1))) /\
  0 < getCurrSeed (snd (samples 3 (RandomGen_new 1))) < Rand.M.
Proof.
  apply (proj1 samples_stay_in_range 3%nat (RandomGen_new 1)).
  cbn. unfold Rand.M. lia.
Defined.

Lemma distinct_seeds_never_meet_witness :
  getCurrSeed (snd (samples 2 (RandomGen_new 1)))
  <> getCurrSeed (snd (samples 2 (RandomGen_new 2))) /\
  fst (sample (snd (samples 2 (RandomGen_new 1))))
  <> fst (sample (snd (samples 2 (RandomGen_new 2)))).
Proof.
  apply (distinct_seeds_never_meet 2 (RandomGen_new 1) (RandomGen_new 2));
    cbn; unfold Rand.M; lia.
Defined.

Lemma DetVar_extrema_witness :
  exists mx mn,
    getMaximum 0 Z.gtb (length (_array three_values)) three_values
    = Some (Value mx) /\
    getMinimum 0 Z.ltb (length (_array three_values)) three_values
    = Some (Value mn) /\
    (_array three_values = [] -> mx = 0 /\ mn = 0) /\
    (_array three_values <> [] ->
     mx ∈ _array three_values /\ mn ∈ _array three_values) /\
    (forall x, x ∈ _array three_values ->
               (x >? mx) = false /\ (x <? mn) = false).
Proof.
  apply (DetVar_extrema 0 Z.gtb Z.ltb Zgtb_irrefl Zgtb_trans
                        Z.ltb_irrefl Zltb_trans three_values).
  vm_compute. reflexivity.
Defined.

Lemma DetVar_get_within_extrema_witness :
  (1 >? 3) = false /\ (1 <? 1) = false.
Proof.
  apply (DetVar_get_within_extrema 0 Z.gtb Z.ltb Zgtb_irrefl Zgtb_trans
                                   Z.ltb_irrefl Zltb_trans
                                   three_values 5 1 3 1);
    vm_compute; reflexivity.
Defined.

Lemma default_generator_switch_witness :
  gen_at (UserGen 0) two_gens_drawn = gen_at (UserGen 0) two_gens /\
  _pstdgen two_gens_drawn = _pstdgen two_gens.
Proof.
  apply (proj1 (proj2 (proj2 default_generator_switch))
               StdGen (UserGen 0) two_gens 16807 two_gens_drawn).
  - vm_compute. reflexivity.
  - discriminate.
Defined.

Lemma PoissonVar_get_range_witness :
  exists k,
    PoissonVar_get (fun z => z) Z.add Z.sub Z.mul Z.div Z.opp (fun z => z)
                   Z.ltb (Z.to_nat CUTOFF) 2 StdGen GenStore_init
    = Some (k, gen_put StdGen (snd (sample (RandomGen_new 1))) GenStore_init)
    /\ (0 <= k < CUTOFF - 1 \/ k = CUTOFF) /\ k <> CUTOFF - 1.
Proof.
  apply (PoissonVar_get_range (fun z => z) Z.add Z.sub Z.mul Z.div Z.opp
           (fun z => z) Z.ltb 2 StdGen GenStore_init (RandomGen_new 1)).
  reflexivity.
Defined.

Lemma sim_step_never_goes_back_witness :
  on_time (snd (sim_step (sim_of [] AB_posted))) /\
  globTime (sim_of [] AB_posted)
  <= globTime (snd (sim_step (sim_of [] AB_posted))) /\
  (forall t, fst (sim_step (sim_of [] AB_posted)) = inr t ->
             t = globTime (snd (sim_step (sim_of [] AB_posted)))).
Proof.
  apply (sim_step_never_goes_back (sim_of [] AB_posted)).
  - exact on_time_AB_posted.
  - apply surjective_pairing.
Defined.

Lemma run_to_in_time_order_witness :
  on_time horizon_done /\
  globTime (sim_of [] AB_posted) <= globTime horizon_done /\
  exists xs,
    executed (out horizon_done)
    = executed (out (sim_of [] AB_posted)) ++ xs /\
    StronglySorted Z.le (map snd xs) /\
    Forall (fun et => globTime (sim_of [] AB_posted) <= snd et <= 100) xs.
Proof.
  apply (run_to_in_time_order 5 100 (sim_of [] AB_posted) (inr 100)).
  - exact on_time_AB_posted.
  - vm_compute. reflexivity.
Defined.

Lemma driver_stays_on_time_witness : on_time every_7_done.
Proof.
  destruct driver_stays_on_time as (Hnew & _ & _ & _ & _ & _ & _ & Hrun).
  apply (Hrun 20%nat 100 3 every_7 (inr tt) every_7_done).
  - vm_compute. reflexivity.
  - apply (Hnew (evs every_7) [source]); [ reflexivity | ].
    unfold every_7. cbn [evs sim_of heap]. intros e ev He.
    apply lookup_singleton_Some in He as [_ <-]. reflexivity.
Defined.

Lemma main_cycle_stops_on_clock_witness :
  exists xs,
    executed (out every_7_cycled) = executed (out every_7_started) ++ xs /\
    Forall (fun et => snd et < 100) (removelast xs) /\
    ((inr tt : Exc + unit) = inr tt -> 100 <= globTime every_7_cycled) /\
    (100 <= globTime every_7_started ->
     xs = [] /\ (inr tt : Exc + unit) = inr tt /\
     every_7_cycled = every_7_started) /\
    (globTime every_7_started < 100 ->
     forall temp rest ev,
       _eventQueue (evs every_7_started) = temp :: rest ->
       heap (evs every_7_started) !! temp = Some ev ->
       exists ys, xs = (temp, _time ev) :: ys /\
                  (100 <= _time ev -> ys = [])) /\
    ((inr tt : Exc + unit) = inr tt ->
     forall e t, last xs = Some (e, t) ->
                 t = globTime every_7_cycled /\ 100 <= t).
Proof.
  apply (main_cycle_stops_on_clock 20 100 every_7_started (inr tt)).
  vm_compute. reflexivity.
Defined.

Lemma clearEventQueue_effect_witness :
  _eventQueue (evs (snd (clearEventQueue (sim_of [] AB_posted)))) = [] /\
  fst (clearEventQueue (sim_of [] AB_posted)) = inr tt.
Proof.
  destruct (clearEventQueue_effect (sim_of [] AB_posted) live_AB_posted)
    as [-> _].
  split; reflexivity.
Defined.

Lemma run_leaves_clean_witness :
  _eventQueue (evs every_7_done) = [] /\ globTime every_7_done = 0 /\
  end_ every_7_done = true /\
  actRuns every_7_done = numRuns every_7_done /\ 1 <= numRuns every_7_done.
Proof.
  apply (run_leaves_clean 20 100 3 every_7). vm_compute. reflexivity.
Defined.

Lemma run_statistics_protocol_witness :
  stat_calls (out every_7_done) =
    stat_calls (out every_7) ++
    [StatInit 3] ++
    concat (replicate 3 [StatNewRun; StatEndRun]) ++ [StatEndSim] /\
  numRuns every_7_done = 3.
Proof.
  apply (run_statistics_protocol 20 100 3 every_7). vm_compute. reflexivity.
Defined.

Lemma getNextEventTime_announces_sim_step_witness :
  sim_of [] AB_posted = sim_of [] AB_posted /\
  forall r s', sim_step (sim_of [] AB_posted) = (r, s') ->
               globTime s' = 10 /\ r <> inl NoMoreEventsInQueue /\
               (forall t', r = inr t' -> t' = 10).
Proof.
  apply (proj1 (getNextEventTime_announces_sim_step (sim_of [] AB_posted))).
  vm_compute. reflexivity.
Defined.

Lemma run_to_again_witness :
  exists s'',
    run_to 1 100 horizon_done = Some (inr 100, s'') /\
    evs s'' = evs horizon_done /\ globTime s'' = 100 /\
    executed (out s'') = executed (out horizon_done).
Proof.
  apply (run_to_again 5 100 (sim_of [] AB_posted)). vm_compute. reflexivity.
Defined.

Lemma restorePriority_undoes_handlers_witness :
  exists ev' q'',
    heap (snd (run_handler (SetPriority A 3 Done) 0 two_events)) !! A
    = Some ev' /\
    _std_priority ev' = _std_priority (Event_new 8 Done) /\
    restorePriority A (snd (run_handler (SetPriority A 3 Done) 0 two_events))
    = (inr tt, q'') /\
    getPriority A q'' = (inr (_std_priority (Event_new 8 Done)), q'').
Proof.
  apply (restorePriority_undoes_handlers (SetPriority A 3 Done) 0 two_events
           (fst (run_handler (SetPriority A 3 Done) 0 two_events))).
  - vm_compute. reflexivity.
  - apply surjective_pairing.
Defined.

Lemma schedule_then_deschedule_witness :
  exists s',
    (bind (schedule instr) (fun _ => deschedule instr)) (sim_of [] two_events)
    = (inr tt, s') /\
    _eventQueue (evs s') = _eventQueue (evs (sim_of [] two_events)) /\
    heap (evs s') =
      <[_endEvt instr :=
          set_isInQueue false
            (set_disposable false
               (set_time (globTime (sim_of [] two_events))
                  (set_order (counter (evs (sim_of [] two_events)) + 1)
                             (Event_new 8 Done))))]>
        (heap (evs (sim_of [] two_events))) /\
    counter (evs s') = counter (evs (sim_of [] two_events)) + 1 /\
    globTime s' = globTime (sim_of [] two_events) /\
    out s' = out (sim_of [] two_events) /\ on_time s'.
Proof.
  apply (schedule_then_deschedule instr (sim_of [] two_events)).
  - exact on_time_two_events.
  - vm_compute. reflexivity.
  - reflexivity.
Defined.

Lemma schedule_fails_when_scheduled_witness :
  exists x, schedule instr scheduled = (inl x, scheduled).
Proof.
  apply (proj2 (proj2 (schedule_fails_when_scheduled
                         instr (sim_of [] two_events)))).
  vm_compute. reflexivity.
Defined.

Lemma endRun_unqueues_witness :
  exists s',
    endRun instr (sim_of [] AB_posted) = (inr tt, s') /\
    _eventQueue (evs s') =
      plist_erase (_threEvt instr)
        (plist_erase (_endEvt instr)
                     (_eventQueue (evs (sim_of [] AB_posted)))) /\
    isInQueue (_endEvt instr) (evs s') = (inr false, evs s') /\
    isInQueue (_threEvt instr) (evs s') = (inr false, evs s') /\
    (forall x, x <> _endEvt instr -> x <> _threEvt instr ->
               heap (evs s') !! x = heap (evs (sim_of [] AB_posted)) !! x) /\
    globTime s' = globTime (sim_of [] AB_posted) /\
    out s' = out (sim_of [] AB_posted) /\
    (on_time (sim_of [] AB_posted) -> on_time s').
Proof.
  apply (endRun_unqueues instr (sim_of [] AB_posted)
           (set_isInQueue true (set_time 10 (set_order 1 (Event_new 8 Done))))
           (set_isInQueue true (set_time 10 (set_order 2 (Event_new 8 Done)))));
    vm_compute; reflexivity.
Defined.

Lemma schedule_is_due_now_witness :
  on_time scheduled /\ _endEvt instr ∈ _eventQueue (evs scheduled) /\
  getNextEventTime scheduled
  = (inr (globTime (sim_of [] two_events)), scheduled) /\
  forall r s'', sim_step scheduled = (r, s'') ->
                globTime s'' = globTime (sim_of [] two_events).
Proof.
  apply (schedule_is_due_now instr (sim_of [] two_events)).
  - exact on_time_two_events.
  - vm_compute. reflexivity.
Defined.


Lemma run_to_leaves_run_alone_witness :
  undisturbed (sim_of [] AB_posted) horizon_done.
Proof.
  apply (proj2 run_to_leaves_run_alone 5%nat 100 (sim_of [] AB_posted)
               (inr 100)).
  vm_compute. reflexivity.
Defined.

(** The main cycle goes one event beyond the horizon: the event that
    re-posts itself every 7 ticks is executed at 0, 7, ..., 98 and once
    more at 105, where [run_to] would have stopped at 98. *)
Example scenario_overshoot :
  map snd (executed (out every_7_cycled)) = map (fun k => 7 * k) (seqZ 0 16) /\
  globTime every_7_cycled = 105.
Proof. split; vm_compute; reflexivity. Qed.

(** The extreme values of 3, 1, 2. *)
Example scenario_extrema :
  getMaximum 0 Z.gtb 3 three_values = Some (Value 3) /\
  getMinimum 0 Z.ltb 3 three_values = Some (Value 1).
Proof. split; reflexivity. Qed.
End MoreWitnesses.
